(** * vis-timeline: the element pool of [DOMutil.js] and the [Graph2d] widget

    A shallow embedding of [src/lib/DOMutil.js] and of the parts of
    [src/lib/timeline/Graph2d.js] that carry behaviour of their own, with the
    properties of the element pool, the locale lookup, the bar drawing and the
    widget's entry points proved over it.

    JavaScript mutates objects in place and may throw at any statement; both
    are kept: every function is a computation over an explicit state that
    ends either normally or with an exception, and in both cases hands back
    the state as mutated so far. *)

From Stdlib Require Import QArith Qabs.
From stdpp Require Import base option list gmap strings.

#[local] Set Warnings "-clear-no-such-hyp".

(** ** JavaScript values and completions *)

Module JS.

(** Numbers are exact rationals: the arithmetic of the embedded code is
    [x - 0.5 * width], [height * -1] and [y - height], which is read here
    without rounding, infinities or NaN. *)
#[warnings="-register-all"]
Inductive value :=
| Undefined
| Null
| Bool (b : bool)
| Num (q : Q)
| Str (s : string)
| Arr (items : list value)
| Obj (id : nat).

(** [ToBoolean]. *)
Definition truthy (v : value) : bool :=
  match v with
  | Undefined | Null => false
  | Bool b => b
  | Num q => negb (Qeq_bool q 0)
  | Str s => negb (String.eqb s "")
  | Arr _ | Obj _ => true
  end.

(** [v === undefined] and the loose [v == undefined]. *)
Definition is_undefined (v : value) : bool :=
  match v with Undefined => true | _ => false end.

Definition loosely_undefined (v : value) : bool :=
  match v with Undefined | Null => true | _ => false end.

(** [a < b] on numbers. *)
Definition Qltb (a b : Q) : bool := (Qnum a * QDen b <? Qnum b * QDen a)%Z.

Inductive error :=
| TypeError | ReferenceError
| NotFoundError | InvalidCharacterError | NamespaceError
| Thrown (what : string).

(** How a call ends: normally with a result, or by an exception; the state
    reached is kept in both cases. *)
Inductive outcome (S A : Type) :=
| Return (a : A) (s : S)
| Throw (e : error) (s : S).
Arguments Return {S A} a s.
Arguments Throw {S A} e s.

Definition state_of {S A} (o : outcome S A) : S :=
  match o with Return _ s | Throw _ s => s end.

Definition returned {S A} (o : outcome S A) : Prop :=
  match o with Return _ _ => True | Throw _ _ => False end.

Definition M (S A : Type) : Type := S → outcome S A.

Definition ret {S A} (a : A) : M S A := λ s, Return a s.

Definition bind {S A B} (m : M S A) (k : A → M S B) : M S B :=
  λ s, match m s with
       | Return a s' => k a s'
       | Throw e s' => Throw e s'
       end.

Definition throw {S A} (e : error) : M S A := λ s, Throw e s.

Definition get {S} : M S S := λ s, Return s s.
Definition modify {S} (f : S → S) : M S unit := λ s, Return () (f s).

(** [try { m } catch (error) { h }] *)
Definition try_catch {S A} (m : M S A) (h : M S A) : M S A :=
  λ s, match m s with
       | Return a s' => Return a s'
       | Throw _ s' => h s'
       end.

(** A loop over the elements of an array, in order. *)
Fixpoint for_each {S A} (body : A → M S unit) (l : list A) : M S unit :=
  match l with
  | [] => ret ()
  | x :: l' => bind (body x) (λ _, for_each body l')
  end.

(** Run a computation on a component of the state. *)
Definition zoom {S T A} (proj : S → T) (inj : T → S → S) (m : M T A) : M S A :=
  λ s, match m (proj s) with
       | Return a t => Return a (inj t s)
       | Throw e t => Throw e (inj t s)
       end.

End JS.

Import JS.

Global Instance M_ret {S} : MRet (M S) := λ A, @JS.ret S A.
Global Instance M_bind {S} : MBind (M S) := λ A B k m, JS.bind m k.

(** ** The document: nodes, the parent relation, attributes *)

Module DOM.

Definition node := nat.

Inductive namespace := HTML | SVG.

Record element := Element { namespaceURI : namespace; tagName : string }.

(** A node is its index in [elements], the table of every element created so
    far, so creation never returns a node that exists.  [links] holds one
    pair (child, parent) per attached node, siblings in document order.
    [removed] logs the [removeChild] calls, latest first. *)
Record Document := Doc {
  elements : list element;
  links : list (node * node);
  attributes : gmap (node * string) value;
  removed : list node
}.

Definition exists_node (d : Document) (n : node) : bool :=
  bool_decide (n < length (elements d)).

Fixpoint lookup_parent (n : node) (l : list (node * node)) : option node :=
  match l with
  | [] => None
  | (c, p) :: l' => if decide (c = n) then Some p else lookup_parent n l'
  end.

(** [n.parentNode], [None] for [null]. *)
Definition parentNode (d : Document) (n : node) : option node :=
  lookup_parent n (links d).

Definition attached (d : Document) (n : node) : Prop := is_Some (parentNode d n).

(** [n] is in the tree under [root]: the live tree, for the document's
    root. *)
Inductive connected (d : Document) (root : node) : node → Prop :=
| connected_root : connected d root root
| connected_child n p :
    parentNode d n = Some p → connected d root p → connected d root n.


Definition getAttribute (d : Document) (n : node) (name : string) : option value :=
  attributes d !! (n, name).

(** *** Element names

    [createElement] wants a string that matches the production [Name] of
    XML, [createElementNS] one that matches [QName], and both throw an
    InvalidCharacterError for any other string; with the SVG namespace
    [createElementNS] throws a NamespaceError for the prefix [xml] and for
    the name or the prefix [xmlns].  A string is a sequence of bytes; those
    of the characters beyond ASCII count as name characters. *)

Definition code (c : Ascii.ascii) : nat := Ascii.nat_of_ascii c.

Definition between (lo hi : nat) (c : Ascii.ascii) : bool :=
  (lo <=? code c) && (code c <=? hi).

Definition is_colon (c : Ascii.ascii) : bool := code c =? 58.

(** [NameStartChar] and [NameChar], the colon apart: letters, [_] and the
    bytes beyond ASCII; and with them digits, [-] and [.]. *)
Definition name_start (c : Ascii.ascii) : bool :=
  between 65 90 c || between 97 122 c || (code c =? 95) || (128 <=? code c).

Definition name_char (c : Ascii.ascii) : bool :=
  name_start c || between 48 57 c || (code c =? 45) || (code c =? 46).

Fixpoint all_chars (p : Ascii.ascii → bool) (s : string) : bool :=
  match s with
  | EmptyString => true
  | String c s' => p c && all_chars p s'
  end.

Definition Name (s : string) : bool :=
  match s with
  | EmptyString => false
  | String c s' =>
      (name_start c || is_colon c) && all_chars (λ c, name_char c || is_colon c) s'
  end.

Definition NCName (s : string) : bool :=
  match s with
  | EmptyString => false
  | String c s' => name_start c && all_chars name_char s'
  end.

(** What stands before the first colon, and what after it, if there is
    one. *)
Fixpoint split_colon (s : string) : string * option string :=
  match s with
  | EmptyString => (EmptyString, None)
  | String c s' =>
      if is_colon c then (EmptyString, Some s')
      else let '(before, after) := split_colon s' in (String c before, after)
  end.

(** The prefix and the local name of a [QName]. *)
Definition QName (s : string) : option (option string * string) :=
  match split_colon s with
  | (local, None) => if NCName local then Some (None, local) else None
  | (prefix, Some local) =>
      if NCName prefix && NCName local then Some (Some prefix, local) else None
  end.

(** The elements of the two kinds the code creates: with [createElement]
    in an HTML document, and with [createElementNS] and the SVG namespace. *)
Definition name_error (ns : namespace) (tag : string) : option error :=
  match ns with
  | HTML => if Name tag then None else Some InvalidCharacterError
  | SVG =>
      match QName tag with
      | None => Some InvalidCharacterError
      | Some (prefix, _) =>
          if bool_decide (prefix = Some "xml" ∨ prefix = Some "xmlns" ∨ tag = "xmlns")
          then Some NamespaceError
          else None
      end
  end.

(** [document.createElementNS(ns, tag)] and [document.createElement(tag)]:
    a new, detached element, or the exception for a string that is no name
    of an element, with nothing created. *)
Definition createElementNS (ns : namespace) (tag : string) : M Document node :=
  λ d, match name_error ns tag with
       | Some e => Throw e d
       | None =>
           Return (length (elements d))
             (Doc (elements d ++ [Element ns tag]) (links d) (attributes d) (removed d))
       end.

Definition createElement (tag : string) : M Document node := createElementNS HTML tag.

(** [parent.appendChild(child)] for a detached [child]: it becomes the last
    child.  A [parent] that is no node has no such method. *)
Definition appendChild (parent child : node) : M Document unit :=
  λ d, if exists_node d parent
       then Return () (Doc (elements d) (links d ++ [(child, parent)])
                         (attributes d) (removed d))
       else Throw TypeError d.

Fixpoint insert_before (ref : node) (l : node * node) (ls : list (node * node))
  : list (node * node) :=
  match ls with
  | [] => [l]
  | (c, p) :: ls' =>
      if decide (c = ref) then l :: (c, p) :: ls' else (c, p) :: insert_before ref l ls'
  end.

(** The second argument of [insertBefore]: [null], or a node. *)
Inductive reference := RefNull | RefNode (r : node).

(** [parent.insertBefore(child, ref)] for a detached [child]: with [null] it
    appends; with a node that is no child of [parent] it throws
    NotFoundError; else [child] is placed just before [ref]. *)
Definition insertBefore (parent child : node) (ref : reference) : M Document unit :=
  λ d, if exists_node d parent then
         match ref with
         | RefNull =>
             Return () (Doc (elements d) (links d ++ [(child, parent)])
                          (attributes d) (removed d))
         | RefNode r =>
             if decide (parentNode d r = Some parent)
             then Return () (Doc (elements d) (insert_before r (child, parent) (links d))
                               (attributes d) (removed d))
             else Throw NotFoundError d
         end
       else Throw TypeError d.

(** The document once [n] is removed from its parent; what hangs under [n]
    stays under it. *)
Definition detach (n : node) (d : Document) : Document :=
  Doc (elements d) (filter (λ l, l.1 ≠ n) (links d)) (attributes d) (n :: removed d).

(** [n.parentNode.removeChild(n)]: reading [removeChild] off a [null]
    parent throws. *)
Definition removeFromParent (n : node) : M Document unit :=
  λ d, match parentNode d n with
       | Some _ => Return () (detach n d)
       | None => Throw TypeError d
       end.

(** [n.setAttributeNS(null, name, v)]; the attribute keeps the value given,
    not the string the DOM makes of it. *)
Definition setAttributeNS (n : node) (name : string) (v : value) : M Document unit :=
  λ d, Return () (Doc (elements d) (links d) (<[(n, name) := v]> (attributes d))
                    (removed d)).

(** A document is well formed when both ends of every link are nodes of the
    table. *)
Definition doc_wf (d : Document) : Prop :=
  Forall (λ l, l.1 < length (elements d) ∧ l.2 < length (elements d)) (links d).

End DOM.

Import DOM.

(** ** [src/lib/DOMutil.js] *)

Module DOMutil.

(** One pool entry per tag: [{used: [], redundant: []}]. *)
Record entry := Entry { used : list node; redundant : list node }.

(** The state the pool functions work on: the [JSONcontainer] object they
    are handed, which they mutate in place, and the document. *)
Record World := Wld { JSONcontainer : gmap string entry; document : Document }.

Definition in_document {A} (m : M Document A) : M World A :=
  zoom document (λ d w, Wld (JSONcontainer w) d) m.

(** [Object.prototype.hasOwnProperty.call(JSONcontainer, elementType)] *)
Definition hasOwnProperty (elementType : string) : M World bool :=
  λ w, Return (bool_decide (is_Some (JSONcontainer w !! elementType))) w.

(** [JSONcontainer[elementType]], whose fields are then read.  The container
    is a plain object.  A name that is no property of it gives [undefined],
    and reading a field off that throws; the name ["__proto__"], when it is
    no own property, gives the prototype of the container, which is, where
    the code reads it, the entry it has just assigned there. *)
Definition entryOf (elementType : string) : M World entry :=
  λ w, match JSONcontainer w !! elementType with
       | Some e => Return e w
       | None =>
           if decide (elementType = "__proto__") then Return (Entry [] []) w
           else Throw TypeError w
       end.

(** [JSONcontainer[elementType] = e], and the write to a field of the object
    read at that name.  For ["__proto__"], when it is no own property, the
    assignment sets the prototype of the container and makes no property;
    the lists of that prototype are read by no other call, so they are no
    part of the state. *)
Definition setEntry (elementType : string) (e : entry) : M World unit :=
  modify (λ w,
    if bool_decide (elementType = "__proto__" ∧ JSONcontainer w !! elementType = None)
    then w
    else Wld (<[elementType := e]> (JSONcontainer w)) (document w)).

(** An assignment to one field of [JSONcontainer[elementType]]. *)
Definition updateEntry (elementType : string) (f : entry → entry) : M World unit :=
  e ← entryOf elementType; setEntry elementType (f e).

(** The own property names of the container, which [for ... in] visits one
    by one.  JavaScript goes by the order of creation, the map by its own;
    the loops below treat every name alike. *)
Definition ownKeys (J : gmap string entry) : list string := (map_to_list J).*1.

(** [for (var elementType in JSONcontainer) { if (!hasOwnProperty...) continue; body }] *)
Definition for_in (body : string → M World unit) : M World unit :=
  λ w, for_each body (ownKeys (JSONcontainer w)) w.

Definition prepareElements : M World unit :=
  for_in (λ elementType,
    updateEntry elementType (λ e, Entry (used e) (used e));;
    updateEntry elementType (λ e, Entry [] (redundant e))).

Definition cleanupElements : M World unit :=
  for_in (λ elementType,
    elementTypeJsonContainer ← entryOf elementType;
    for_each (λ n, in_document (removeFromParent n))
             (redundant elementTypeJsonContainer);;
    updateEntry elementType (λ e, Entry (used e) [])).

Definition resetElements : M World unit :=
  prepareElements;; cleanupElements;; prepareElements.

Definition getSVGElement (elementType : string) (svgContainer : node) : M World node :=
  own ← hasOwnProperty elementType;
  element ← (if own : bool then
               e ← entryOf elementType;
               match redundant e with
               | first :: rest =>
                   updateEntry elementType (λ e, Entry (used e) rest);;
                   mret first
               | [] =>
                   element ← in_document (createElementNS SVG elementType);
                   in_document (appendChild svgContainer element);;
                   mret element
               end
             else
               element ← in_document (createElementNS SVG elementType);
               setEntry elementType (Entry [] []);;
               in_document (appendChild svgContainer element);;
               mret element);
  updateEntry elementType (λ e, Entry (used e ++ [element]) (redundant e));;
  mret element.

(** The [insertBefore] argument of [getDOMElement]: left out, or given. *)
Definition place (DOMContainer element : node) (insertBefore_ : option reference)
  : M World unit :=
  match insertBefore_ with
  | Some ref => in_document (insertBefore DOMContainer element ref)
  | None => in_document (appendChild DOMContainer element)
  end.

Definition getDOMElement (elementType : string) (DOMContainer : node)
    (insertBefore_ : option reference) : M World node :=
  own ← hasOwnProperty elementType;
  element ← (if own : bool then
               e ← entryOf elementType;
               match redundant e with
               | first :: rest =>
                   updateEntry elementType (λ e, Entry (used e) rest);;
                   mret first
               | [] =>
                   element ← in_document (createElement elementType);
                   place DOMContainer element insertBefore_;;
                   mret element
               end
             else
               element ← in_document (createElement elementType);
               setEntry elementType (Entry [] []);;
               place DOMContainer element insertBefore_;;
               mret element);
  updateEntry elementType (λ e, Entry (used e ++ [element]) (redundant e));;
  mret element.

(** [drawBar]: nothing for a zero height; a negative height is flipped and
    the bar moved up by it.  [className] is a string, [style] a string or
    [undefined]. *)
Definition drawBar (x y width height : Q) (className : string)
    (svgContainer : node) (style : value) : M World unit :=
  if negb (Qeq_bool height 0) then
    let flip := Qltb height 0 in
    let height := if flip then (height * -1)%Q else height in
    let y := if flip then (y - height)%Q else y in
    rect ← getSVGElement "rect" svgContainer;
    in_document (setAttributeNS rect "x" (Num (x - 0.5 * width)%Q));;
    in_document (setAttributeNS rect "y" (Num y));;
    in_document (setAttributeNS rect "width" (Num width));;
    in_document (setAttributeNS rect "height" (Num height));;
    in_document (setAttributeNS rect "class" (Str className));;
    if truthy style
    then in_document (setAttributeNS rect "style" style)
    else mret ()
  else mret ().

(** *** The pool protocol *)

Inductive call :=
| GetSVG (elementType : string) (svgContainer : node)
| GetDOM (elementType : string) (DOMContainer : node) (insertBefore_ : option reference).

Definition acquire (c : call) : M World node :=
  match c with
  | GetSVG t c => getSVGElement t c
  | GetDOM t c r => getDOMElement t c r
  end.

(** The lists of a tag, empty for a tag not seen yet. *)
Definition used_at (J : gmap string entry) (t : string) : list node :=
  match J !! t with Some e => used e | None => [] end.

Definition redundant_at (J : gmap string entry) (t : string) : list node :=
  match J !! t with Some e => redundant e | None => [] end.

Definition call_tag (cl : call) : string :=
  match cl with GetSVG t _ | GetDOM t _ _ => t end.

Definition call_container (cl : call) : node :=
  match cl with GetSVG _ c | GetDOM _ c _ => c end.

Definition call_namespace (cl : call) : namespace :=
  match cl with GetSVG _ _ => SVG | GetDOM _ _ _ => HTML end.


(** A draw pass asks for its elements one after the other. *)
Definition acquire_all (cs : list call) : M World unit :=
  for_each (λ c, _ ← acquire c; mret ()) cs.

Inductive op := Prepare | Cleanup | Reset | Get (c : call).

Definition run_op (o : op) : M World unit :=
  match o with
  | Prepare => prepareElements
  | Cleanup => cleanupElements
  | Reset => resetElements
  | Get c => _ ← acquire c; mret ()
  end.

(** The state after a sequence of pool operations; a caller that catches an
    exception goes on from the state the failed call left. *)
Definition run (ops : list op) (w : World) : World :=
  foldl (λ w o, state_of (run_op o w)) w ops.

(** The nodes the pool holds. *)
Definition used_nodes (J : gmap string entry) : list node :=
  map_to_list J ≫= (λ te, used te.2).

Definition redundant_nodes (J : gmap string entry) : list node :=
  map_to_list J ≫= (λ te, redundant te.2).

Definition pooled (J : gmap string entry) (n : node) : Prop :=
  n ∈ used_nodes J ∨ n ∈ redundant_nodes J.

(** No node is waiting in a [redundant] list: the state of a new pool and
    the one [cleanupElements] and [resetElements] leave. *)
Definition settled (J : gmap string entry) : Prop :=
  map_Forall (λ _ e, redundant e = []) J.

(** Every pooled node is in one list only, once, and has a parent. *)
Record pool_inv (w : World) : Prop := PoolInv {
  inv_nodup : ∀ t e, JSONcontainer w !! t = Some e → NoDup (used e ++ redundant e);
  inv_disjoint : ∀ t1 t2 e1 e2 n,
    JSONcontainer w !! t1 = Some e1 → JSONcontainer w !! t2 = Some e2 →
    n ∈ used e1 ++ redundant e1 → n ∈ used e2 ++ redundant e2 → t1 = t2;
  inv_attached : ∀ t e n,
    JSONcontainer w !! t = Some e → n ∈ used e ++ redundant e →
    attached (document w) n;
  inv_doc : doc_wf (document w)
}.

(** The same, as a check on the lists. *)
Definition pool_ok (w : World) : Prop :=
  NoDup (map_to_list (JSONcontainer w) ≫= λ te, used te.2 ++ redundant te.2) ∧
  Forall (λ n, n ∈ (links (document w)).*1)
         (map_to_list (JSONcontainer w) ≫= λ te, used te.2 ++ redundant te.2) ∧
  doc_wf (document w).

(** How often [removeChild] was called on [n]. *)
Definition removals (d : Document) (n : node) : nat :=
  length (filter (λ m, m = n) (removed d)).

(** The way the pool is meant to be driven: [prepareElements] and
    [resetElements] are called on settled pools only, and no element is
    asked for under the name ["__proto__"], which makes no property of the
    container. *)
Definition guard (o : op) (w : World) : Prop :=
  match o with
  | Prepare | Reset => settled (JSONcontainer w)
  | Get cl => call_tag cl ≠ "__proto__"
  | Cleanup => True
  end.

Global Instance guard_dec o w : Decision (guard o w).
Proof. destruct o; simpl; apply _. Defined.

Fixpoint disciplined (ops : list op) (w : World) : bool :=
  match ops with
  | [] => true
  | o :: ops' => bool_decide (guard o w) && disciplined ops' (state_of (run_op o w))
  end.

(** *** [getNavigatorLanguage] *)

(** What reading a property gives: a value, or the exception its getter
    throws. *)
Inductive access := Gives (v : value) | Raises (e : error).

(** The [navigator] object as the function sees it.  [languages] is read up
    to three times and may answer differently each time; [length_of] is the
    [length] property of an object it answered with. *)
Record Navigator := {
  languages : nat → access;
  length_of : nat → access;
  userLanguage : access;
  language : access;
  browserLanguage : access
}.

(** The global [navigator]: not declared at all, declared with a falsy
    value, or an object. *)
Inductive binding := Undeclared | Falsy | Object (o : Navigator).

Definition read (a : access) : M unit value :=
  match a with
  | Gives v => mret v
  | Raises e => throw e
  end.

(** [v.length] *)
Definition lengthOf (o : Navigator) (v : value) : M unit value :=
  match v with
  | Undefined | Null => throw TypeError
  | Bool _ | Num _ => mret Undefined
  | Str s => mret (Num (inject_Z (Z.of_nat (String.length s))))
  | Arr items => mret (Num (inject_Z (Z.of_nat (length items))))
  | Obj id => read (length_of o id)
  end.

(** The body of the [try] block. *)
Definition getNavigatorLanguage_try (navigator : binding) : M unit value :=
  match navigator with
  | Undeclared => throw ReferenceError
  | Falsy => mret (Str "en")
  | Object o =>
      l ← read (languages o 0);
      c ← (if truthy l then l' ← read (languages o 1); lengthOf o l' else mret l);
      if truthy c then read (languages o 2)
      else
        u ← read (userLanguage o);
        if truthy u then mret u else
        l ← read (language o);
        if truthy l then mret l else
        b ← read (browserLanguage o);
        if truthy b then mret b else mret (Str "en")
  end.

Definition getNavigatorLanguage (navigator : binding) : M unit value :=
  try_catch (getNavigatorLanguage_try navigator) (mret (Str "en")).

End DOMutil.

Import DOMutil.

(** ** [drawPoint] of [src/lib/DOMutil.js] *)

Module DrawPoint.

(** [groupTemplate], as in [{style: 'circle', size: 5, className: 'className'}]:
    [style] and [className] are strings, [size] a number, [styles] a string
    or [undefined]. *)
Record GroupTemplate := {
  style : string;
  size : Q;
  styles : value;
  className : string
}.

(** [labelObj]: the offsets are numbers or left out, [content] is any value,
    the class a string or left out. *)
Record Label := {
  xOffset : option Q;
  yOffset : option Q;
  content : value;
  label_className : option string
}.

(** The state [drawPoint] works on: pool and document, and the
    [textContent] given to elements. *)
Record Canvas := Cnv { world : World; textContent : gmap node value }.

Definition in_world {A} (m : M World A) : M Canvas A :=
  zoom world (λ w c, Cnv w (textContent c)) m.

(** [n.setAttributeNS(null, name, v)] *)
Definition attr (n : node) (name : string) (v : value) : M Canvas unit :=
  in_world (in_document (setAttributeNS n name v)).

(** [n.textContent = v] *)
Definition set_textContent (n : node) (v : value) : M Canvas unit :=
  modify (λ c, Cnv (world c) (<[n := v]> (textContent c))).

(** [if (offset) { x = x + offset }] *)
Definition shifted (x : Q) (offset : option Q) : Q :=
  match offset with
  | Some o => if truthy (Num o) then (x + o)%Q else x
  | None => x
  end.

Definition drawPoint (x y : Q) (groupTemplate : GroupTemplate) (svgContainer : node)
    (labelObj : option Label) : M Canvas node :=
  point ← (if String.eqb (style groupTemplate) "circle" then
             point ← in_world (getSVGElement "circle" svgContainer);
             attr point "cx" (Num x);;
             attr point "cy" (Num y);;
             attr point "r" (Num (0.5 * size groupTemplate)%Q);;
             mret point
           else
             point ← in_world (getSVGElement "rect" svgContainer);
             attr point "x" (Num (x - 0.5 * size groupTemplate)%Q);;
             attr point "y" (Num (y - 0.5 * size groupTemplate)%Q);;
             attr point "width" (Num (size groupTemplate));;
             attr point "height" (Num (size groupTemplate));;
             mret point);
  (if negb (is_undefined (styles groupTemplate))
   then attr point "style" (styles groupTemplate)
   else mret ());;
  attr point "class" (Str (className groupTemplate +:+ " vis-point"));;
  match labelObj with
  | Some labelObj =>
      label ← in_world (getSVGElement "text" svgContainer);
      let x := shifted x (xOffset labelObj) in
      let y := shifted y (yOffset labelObj) in
      (if truthy (content labelObj)
       then set_textContent label (content labelObj)
       else mret ());;
      match label_className labelObj with
      | Some c =>
          if truthy (Str c)
          then attr label "class" (Str (c +:+ " vis-label"))
          else mret ()
      | None => mret ()
      end;;
      attr label "x" (Num x);;
      attr label "y" (Num y)
  | None => mret ()
  end;;
  mret point.

End DrawPoint.

(** ** [src/lib/timeline/Graph2d.js] *)

Module Graph2d.

(** *** The constructor's arguments *)

Section Constructor.

(** [isDataViewLike] is imported from [util.js]; [property o name] is what
    reading [o[name]] gives. *)
Variable isDataViewLike : value → bool.
Variable property : value → string → value.

(** Whether [Object.prototype] is in the prototype chain of an object: so it
    is for an object literal or a [DataSet], not for [Object.create(null)]
    or an object of another frame. *)
Variable inherits_Object : value → bool.

Definition isArray (v : value) : bool :=
  match v with Arr _ => true | _ => false end.

(** [v instanceof Object]: no primitive, and of the objects those with
    [Object.prototype] in their chain. *)
Definition instanceofObject (v : value) : bool :=
  match v with Arr _ | Obj _ => inherits_Object v | _ => false end.

(** What the constructor does with its arguments on the new widget, in
    order; the wiring of the components in between does not depend on them. *)
Inductive action :=
| Warn (message : string)
| Create (container : value)
| SetOptions (options : value)
| SetGroups (groups : value)
| SetItems (items : value)
| Redraw.

Definition quote : string := String (Ascii.ascii_of_nat 34) EmptyString.

Definition throttleRedraw_warning : string :=
  "Graph2d option " +:+ quote +:+ "throttleRedraw" +:+ quote +:+
  " is DEPRICATED and no longer supported. It will be removed in the next MAJOR release.".

(** [groups] and [options] after the first statement of the constructor. *)
Definition arguments (groups options : value) : value * value :=
  if negb (isArray groups || isDataViewLike groups) && instanceofObject groups
  then let forthArgument := options in (forthArgument, groups)
  else (groups, options).

Definition Graph2d (container items groups options : value) : list action :=
  let '(groups, options) := arguments groups options in
  (if truthy options && truthy (property options "throttleRedraw")
   then [Warn throttleRedraw_warning] else []) ++
  [Create container] ++
  (if truthy options then [SetOptions options] else []) ++
  (if truthy groups then [SetGroups groups] else []) ++
  (if truthy items then [SetItems items] else []) ++
  [Redraw].

End Constructor.

(** *** [setOptions] *)

(** The page a widget lives in: what was written to the console, one entry
    per call with its arguments, and the widget itself. *)
Record Page (W : Type) := { console : list (list value); widget : W }.
Arguments console {W} _.
Arguments widget {W} _.

Definition console_log {W} (args : list value) : M (Page W) unit :=
  modify (λ p, {| console := console p ++ [args]; widget := widget p |}).

Section SetOptions.

Context {W : Type}.

(** [Validator.validate(options, allOptions)] answers whether it found an
    error; like [Core.prototype.setOptions] and [printStyle] it is imported.
    The validator reports by its answer and its own console output, and
    like any call it may throw. *)
Variable validate : value → M (Page W) value.
Variable printStyle : string.
Variable Core_setOptions : value → M (Page W) unit.

(** [errorFound === true] *)
Definition is_true (v : value) : bool :=
  match v with Bool true => true | _ => false end.

Definition errors_found : list value :=
  [Str "%cErrors have been found in the supplied options object."; Str printStyle].

Definition setOptions (options : value) : M (Page W) unit :=
  errorFound ← validate options;
  (if is_true errorFound then console_log errors_found else mret ());;
  Core_setOptions options.

End SetOptions.

(** *** The handler of the widget's [changed] event *)

Record Options := {
  start : value;
  end_ : value;
  rollingMode : value;
  onInitialDrawComplete : value
}.

(** What the handler reads of the widget and its page, and what the calls it
    makes may change. *)
Record Shared := {
  itemsData : value;
  options : Options;
  initialRangeChangeDone : bool;
  visibility : string;
  loadingScreen_parentNode : option node
}.

(** [setTimeout(callback, delay)] *)
Record timer := { callback : string; delay : nat }.

(** What this handler alone writes: the two flags (no other line of
    Graph2d.js assigns them once the widget exists) and the timers it sets. *)
Record Own := {
  initialFitDone : bool;
  initialDrawDone : bool;
  timers : list timer
}.

(** The flags of a widget just constructed. *)
Definition created : Own :=
  {| initialFitDone := false; initialDrawDone := false; timers := [] |}.

Record range := { min : value; max : value }.

Section Changed.

(** [getItemRange], [setWindow] and [fit] are inherited from Core;
    [getItemRange] answers with a range or with no object at all. *)
Variable getItemRange : M Shared (option range).
Variable setWindow : value → value → M Shared unit.
Variable fit : M Shared unit.

Definition shared {A} (m : M Shared A) : M (Own * Shared) A :=
  zoom snd (λ s os, (os.1, s)) m.

Definition own (f : Own → Own) : M (Own * Shared) unit :=
  modify (λ os, (f os.1, os.2)).

(** [me.options.<name>], read when the statement runs. *)
Definition option_ (name : Options → value) : M (Own * Shared) value :=
  me ← get; mret (name (options me.2)).

Definition defined (v : value) : bool := negb (loosely_undefined v).

(** [range.min], [range.max] *)
Definition field (r : option range) (name : range → value) : M (Own * Shared) value :=
  match r with
  | Some r => mret (name r)
  | None => throw TypeError
  end.

(** The first block: fit the window once. *)
Definition initial_fit : M (Own * Shared) unit :=
  me ← get;
  if negb (initialFitDone me.1) && negb (truthy (rollingMode (options me.2))) then
    own (λ o, {| initialFitDone := true; initialDrawDone := initialDrawDone o;
                 timers := timers o |});;
    s ← option_ start; e ← option_ end_;
    if defined s || defined e then
      s ← option_ start; e ← option_ end_;
      range ← (if negb (defined s) || negb (defined e)
               then shared getItemRange else mret None);
      s ← option_ start;
      start ← (if defined s then option_ start else field range min);
      e ← option_ end_;
      end' ← (if defined e then option_ end_ else field range max);
      shared (setWindow start end')
    else shared fit
  else mret ().

(** [me.dom.loadingScreen.parentNode.removeChild(me.dom.loadingScreen)] *)
Definition remove_loadingScreen : M Shared unit :=
  λ s, match loadingScreen_parentNode s with
       | Some _ => Return () {| itemsData := itemsData s; options := options s;
                               initialRangeChangeDone := initialRangeChangeDone s;
                               visibility := visibility s;
                               loadingScreen_parentNode := None |}
       | None => Throw TypeError s
       end.

Definition show_root : M Shared unit :=
  modify (λ s, {| itemsData := itemsData s; options := options s;
                  initialRangeChangeDone := initialRangeChangeDone s;
                  visibility := "visible";
                  loadingScreen_parentNode := loadingScreen_parentNode s |}).

Definition setTimeout (cb : string) (ms : nat) : M (Own * Shared) unit :=
  own (λ o, {| initialFitDone := initialFitDone o; initialDrawDone := initialDrawDone o;
               timers := timers o ++ [{| callback := cb; delay := ms |}] |}).

(** The second block: signal the first draw once. *)
Definition initial_draw : M (Own * Shared) unit :=
  me ← get;
  let o := options me.2 in
  if negb (initialDrawDone me.1) &&
     (initialRangeChangeDone me.2
      || (negb (truthy (start o)) && negb (truthy (end_ o)))
      || truthy (rollingMode o))
  then
    own (λ o, {| initialFitDone := initialFitDone o; initialDrawDone := true;
                 timers := timers o |});;
    shared show_root;;
    shared remove_loadingScreen;;
    f ← option_ onInitialDrawComplete;
    if truthy f
    then setTimeout "onInitialDrawComplete" 0
    else mret ()
  else mret ().

Definition on_changed : M (Own * Shared) unit :=
  me ← get;
  if loosely_undefined (itemsData me.2) then mret ()
  else initial_fit;; initial_draw.

(** The widget's own state after a sequence of [changed] events.  Each
    event finds the rest of the widget as whatever ran before left it; a
    handler that throws keeps what it wrote. *)
Definition emit_changed (events : list Shared) (o : Own) : Own :=
  foldl (λ o s, (state_of (on_changed (o, s))).1) o events.

End Changed.

(** *** Reading a property of a plain object *)

(** The property names every plain object inherits from [Object.prototype]:
    its methods, and the accessor [__proto__]. *)
Definition Object_prototype : list string :=
  ["constructor"; "__defineGetter__"; "__defineSetter__"; "hasOwnProperty";
   "__lookupGetter__"; "__lookupSetter__"; "isPrototypeOf"; "propertyIsEnumerable";
   "toString"; "valueOf"; "__proto__"; "toLocaleString"].

(** What [o[name]] finds in a plain object [o] with the own properties
    [own]: the own property of that name, else what [Object.prototype] has
    under it (a function, or for [__proto__] that prototype itself), else
    nothing, which reads as [undefined]. *)
Inductive found (A : Type) := Owned (a : A) | Inherited | Absent.
Arguments Owned {A} a.
Arguments Inherited {A}.
Arguments Absent {A}.

Definition read {A} (own : gmap string A) (name : string) : found A :=
  match own !! name with
  | Some a => Owned a
  | None => if bool_decide (name ∈ Object_prototype) then Inherited else Absent
  end.

(** *** [getLegend] *)

Inductive legend (L : Type) := Icon (l : L) | Message (text : string).
Arguments Icon {L} l.
Arguments Message {L} text.

Section GetLegend.

Context {S G L : Type}.

(** [getLegend] of a graph group, defined with the line graph. *)
Variable GraphGroup_getLegend : G → value → value → M S L.

(** [this.linegraph.groups] is set up with the line graph, outside this
    file, as a plain object; its own properties are the groups under their
    ids.  A [groupId] is the property name it is used as.  What is found
    under an inherited name is no group and has no [getLegend], so the call
    of it throws. *)
Definition getLegend (groups : gmap string G) (groupId : string) (width height : value)
  : M S (legend L) :=
  let width := if is_undefined width then Num 15 else width in
  let height := if is_undefined height then Num 15 else height in
  match read groups groupId with
  | Owned group => l ← GraphGroup_getLegend group width height; mret (Icon l)
  | Inherited => throw TypeError
  | Absent => mret (Message ("cannot find group:'" +:+ groupId +:+ "'"))
  end.

End GetLegend.

(** *** [isGroupVisible] and [getDataRange] *)

Section Groups.

(** The items of a group are kept in an array; [time] is
    [util.convert(item.x, 'Date').valueOf()], the time of an item in
    milliseconds, taken to be a valid date. *)
Context {S I : Type}.
Variable time : I → Z.

(** [v == true] for a string, an array or an object [v]: the value is
    converted to a number, which for an object runs its [valueOf] or
    [toString] and may throw, and compared with 1. *)
Variable converted_equals_true : value → M S bool.

(** A group of the line graph, as these two methods read it. *)
Record GraphGroup := { visible : value; group_itemsData : list I }.

(** [v == true] *)
Definition equals_true (v : value) : M S bool :=
  match v with
  | Bool b => mret b
  | Num q => mret (Qeq_bool q 1)
  | Undefined | Null => mret false
  | Str _ | Arr _ | Obj _ => converted_equals_true v
  end.

(** [this.linegraph.groups] and [this.linegraph.options.groups.visibility]
    are plain objects: the groups under their ids, and what was set for an
    id as its visibility.  Under an inherited name the first has a function
    (or the prototype), which has no [visible], and so has the second, which
    does not equal [true]. *)
Definition isGroupVisible (groups : gmap string GraphGroup)
    (visibility : gmap string value) (groupId : string) : M S value :=
  match read groups groupId with
  | Owned group =>
      if truthy (visible group) then
        match read visibility groupId with
        | Owned set =>
            if is_undefined set then mret (Bool true)
            else b ← equals_true set; mret (Bool b)
        | Inherited => mret (Bool false)
        | Absent => mret (Bool true)
        end
      else mret (visible group)
  | Inherited => mret Undefined
  | Absent => mret (Bool false)
  end.

(** [min == null ? value : min > value ? value : min], and the same for
    [max]. *)
Definition widen (acc : option Z * option Z) (value : Z) : option Z * option Z :=
  (Some (match acc.1 with
         | None => value
         | Some min => if (min >? value)%Z then value else min
         end),
   Some (match acc.2 with
         | None => value
         | Some max => if (max <? value)%Z then value else max
         end)).

(** The times [new Date(min)] and [new Date(max)] are made of, [None] for
    [null]. *)
Definition getDataRange (groups : gmap string GraphGroup) : option Z * option Z :=
  foldl (λ acc kg,
           if is_true (visible kg.2)
           then foldl (λ acc item, widen acc (time item)) acc (group_itemsData kg.2)
           else acc)
        (None, None) (map_to_list groups).

End Groups.

(** *** [setItems] *)

Section SetItems.

(** [isDataViewLike] and [typeCoerceDataSet] come from [util.js], [DataSet]
    from vis-data; [rawDS] reads the property of that name, [dispose] calls
    the method of the old data set, [linegraph_setItems] the one of the line
    graph; [setWindow] and [fit] are inherited from Core.  Each may change
    the widget and may throw. *)
Variable isDataViewLike : value → bool.
Variable typeCoerceDataSet : value → M Shared value.
Variable new_DataSet : value → M Shared value.
Variable rawDS : value → value.
Variable dispose : value → M Shared unit.
Variable linegraph_setItems : value → M Shared unit.
Variable setWindow : value → value → M Shared unit.
Variable fit : M Shared unit.

(** [this.itemsData = v] *)
Definition set_itemsData (v : value) : M Shared unit :=
  modify (λ s, {| itemsData := v; options := options s;
                  initialRangeChangeDone := initialRangeChangeDone s;
                  visibility := visibility s;
                  loadingScreen_parentNode := loadingScreen_parentNode s |}).

Definition setItems (items : value) : M Shared unit :=
  me ← get;
  let initialLoad := loosely_undefined (itemsData me) in
  newDataSet ← (if negb (truthy items) then mret Null
                else if isDataViewLike items then typeCoerceDataSet items
                else set ← new_DataSet items; typeCoerceDataSet set);
  me ← get;
  (if truthy (itemsData me) then dispose (itemsData me) else mret ());;
  set_itemsData newDataSet;;
  linegraph_setItems (if negb (loosely_undefined newDataSet)
                      then rawDS newDataSet else Null);;
  if initialLoad then
    me ← get;
    let o := options me in
    if defined (start o) || defined (end_ o) then
      me ← get;
      let start := if defined (start (options me)) then start (options me) else Null in
      me ← get;
      let end' := if defined (end_ (options me)) then end_ (options me) else Null in
      setWindow start end'
    else fit
  else mret ().

End SetItems.

(** *** [getEventProperties] *)

Section GetEventProperties.

(** The parts of the widget an event can fall on, in the order they are
    tried. *)
Inductive region :=
| timeAxis_foreground | timeAxis2_foreground
| yAxisLeft_frame | yAxisRight_frame
| legendLeft_frame | legendRight_frame
| currentTime_bar | dom_center.

(** An event: [center] and [srcEvent] are objects or missing. *)
Record Event := {
  center : option (Q * Q);
  clientX : Q;
  clientY : Q;
  srcEvent : option (value * value);
  pageX : value;
  pageY : value
}.

(** What the method reads of the widget: the position of the centre
    container, whether there is a second time axis, whether the data axes
    are hidden, and the length of [itemsData], [None] for [null]. *)
Record Widget := {
  absoluteLeft : Q;
  absoluteTop : Q;
  timeAxis2 : bool;
  yAxisLeft_hidden : bool;
  yAxisRight_hidden : bool;
  itemsData_length : option nat
}.

Context {T : Type}.

(** [_toTime], [CustomTime.customTimeFromTarget] (the id of the custom time,
    if any), [util.getTarget], [util.hasParent] and the [screenToValue] of each
    data axis. *)
Variable toTime : Q → value.
Variable customTimeFromTarget : Event → option value.
Variable getTarget : Event → T.
Variable hasParent : T → region → bool.
Variable yAxisLeft_screenToValue : Q → value.
Variable yAxisRight_screenToValue : Q → value.

Record EventProperties := {
  ep_event : Event;
  ep_customTime : value;
  ep_what : option string;
  ep_pageX : value;
  ep_pageY : value;
  ep_x : Q;
  ep_y : Q;
  ep_time : value;
  ep_value : list value
}.

(** [this.itemsData.length > 0] *)
Definition has_items (w : Widget) : M unit bool :=
  match itemsData_length w with
  | Some n => mret (bool_decide (0 < n))
  | None => throw TypeError
  end.

Definition getEventProperties (w : Widget) (event : Event) : M unit EventProperties :=
  let clientX := match center event with Some c => c.1 | None => clientX event end in
  let clientY := match center event with Some c => c.2 | None => clientY event end in
  let x := (clientX - absoluteLeft w)%Q in
  let y := (clientY - absoluteTop w)%Q in
  let time := toTime x in
  let customTime := customTimeFromTarget event in
  let element := getTarget event in
  let what :=
    if hasParent element timeAxis_foreground then Some "axis"
    else if timeAxis2 w && hasParent element timeAxis2_foreground then Some "axis"
    else if hasParent element yAxisLeft_frame then Some "data-axis"
    else if hasParent element yAxisRight_frame then Some "data-axis"
    else if hasParent element legendLeft_frame then Some "legend"
    else if hasParent element legendRight_frame then Some "legend"
    else if bool_decide (is_Some customTime) then Some "custom-time"
    else if hasParent element currentTime_bar then Some "current-time"
    else if hasParent element dom_center then Some "background"
    else None in
  left ← (if negb (yAxisLeft_hidden w) then has_items w else mret false);
  let value := if left : bool then [yAxisLeft_screenToValue y] else [] in
  right ← (if negb (yAxisRight_hidden w) then has_items w else mret false);
  let value := if right : bool then value ++ [yAxisRight_screenToValue y] else value in
  mret {| ep_event := event;
          ep_customTime := match customTime with Some id => id | None => Null end;
          ep_what := what;
          ep_pageX := match srcEvent event with Some e => e.1 | None => pageX event end;
          ep_pageY := match srcEvent event with Some e => e.2 | None => pageY event end;
          ep_x := x; ep_y := y; ep_time := time; ep_value := value |}.

End GetEventProperties.

End Graph2d.

(** * Properties *)

(** ** Running computations *)

Module JSFacts.

Lemma run_bind {S A B} (m : M S A) (k : A → M S B) (s : S) :
  (m ≫= k) s = match m s with Return a s' => k a s' | Throw e s' => Throw e s' end.
Proof. reflexivity. Qed.

Lemma run_ret {S A} (a : A) (s : S) : (mret a : M S A) s = Return a s.
Proof. reflexivity. Qed.

Ltac run := repeat first [rewrite run_bind | rewrite run_ret | progress cbv beta iota].

Lemma try_catch_run {S A} (m h : M S A) s :
  try_catch m h s = match m s with Return a s' => Return a s' | Throw _ s' => h s' end.
Proof. reflexivity. Qed.

Lemma state_of_discard {S A} (m : M S A) (s : S) :
  state_of ((m ≫= λ _, mret ()) s) = state_of (m s).
Proof. run. by destruct (m s). Qed.

End JSFacts.

Import JSFacts.

(** ** The document *)

Module DOMFacts.

Lemma lookup_parent_is_Some n ls : is_Some (lookup_parent n ls) ↔ n ∈ ls.*1.
Proof.
  induction ls as [|[c p] ls IH]; simpl.
  - split; [by intros [? ?] | by intros ?%elem_of_nil].
  - rewrite elem_of_cons. case_decide; subst.
    + split; eauto.
    + rewrite IH. naive_solver.
Qed.

Lemma lookup_parent_app n ls ls' :
  lookup_parent n (ls ++ ls') =
  match lookup_parent n ls with Some p => Some p | None => lookup_parent n ls' end.
Proof.
  induction ls as [|[c p] ls IH]; simpl; [done|]. by case_decide.
Qed.

Lemma lookup_parent_filter n m ls :
  lookup_parent m (filter (λ l, l.1 ≠ n) ls) =
  if decide (m = n) then None else lookup_parent m ls.
Proof.
  induction ls as [|[c p] ls IH]; simpl.
  - by case_decide.
  - rewrite filter_cons. simpl. repeat (case_decide; simpl; subst); try done.
    all: rewrite IH; by case_decide.
Qed.

Lemma lookup_parent_insert_before m r n c ls :
  n ∉ ls.*1 →
  lookup_parent m (insert_before r (n, c) ls) =
  if decide (m = n) then Some c else lookup_parent m ls.
Proof.
  induction ls as [|[x p] ls IH]; simpl; intros Hn.
  - by repeat case_decide.
  - apply not_elem_of_cons in Hn as [Hx Hn].
    repeat (case_decide; simpl; subst); try done.
    all: rewrite IH by done; by repeat case_decide.
Qed.

Lemma attached_links d n : attached d n ↔ n ∈ (links d).*1.
Proof. apply lookup_parent_is_Some. Qed.

Lemma doc_wf_attached d n : doc_wf d → attached d n → n < length (elements d).
Proof.
  intros Hwf [[c p] [-> Hin]]%attached_links%list_elem_of_fmap.
  by eapply Forall_forall in Hwf as [? ?].
Qed.

Lemma doc_wf_fresh d : doc_wf d → ¬ attached d (length (elements d)).
Proof. intros Hwf Ha%doc_wf_attached; [lia | done]. Qed.

End DOMFacts.

Import DOMFacts.

(** ** The element pool *)

Module PoolFacts.

(** Unfolds the monad down to the [match] on outcomes. *)
Ltac js_unfold :=
  repeat match goal with
    | |- context [@mbind _ (@M_bind ?S) ?A ?B ?k ?m] =>
        change (@mbind _ (@M_bind S) A B k m) with (@JS.bind S A B m k)
    | |- context [@mret _ (@M_ret ?S) ?A] =>
        change (@mret _ (@M_ret S) A) with (@JS.ret S A)
    end;
  unfold JS.bind, JS.ret, JS.modify, JS.zoom, JS.get, JS.throw.

(** The effect of the loops. *)
Definition mark_unused (e : entry) : entry := Entry [] (used e).
Definition clear_redundant (e : entry) : entry := Entry (used e) [].
Definition detach_all (ns : list node) (d : Document) : Document :=
  foldl (λ d n, detach n d) d ns.

Lemma updateEntry_run t f J d e :
  J !! t = Some e →
  updateEntry t f (Wld J d) = Return () (Wld (<[t := f e]> J) d).
Proof.
  intros H. unfold updateEntry, entryOf, setEntry. js_unfold. simpl. rewrite H.
  rewrite bool_decide_false; [done|]. simpl. intros [_ ?]. simplify_eq.
Qed.

Lemma setEntry_run t e J d :
  setEntry t e (Wld J d)
  = Return () (Wld (if bool_decide (t = "__proto__" ∧ J !! t = None) then J
                    else <[t := e]> J) d).
Proof. unfold setEntry, modify. simpl. by case_bool_decide. Qed.

(** The push onto the [used] list of a tag that is no own property. *)
Lemma updateEntry_proto f J d :
  J !! "__proto__" = None →
  updateEntry "__proto__" f (Wld J d) = Return () (Wld J d).
Proof.
  intros H. unfold updateEntry, entryOf, setEntry. js_unfold. simpl. rewrite H.
  simpl. by rewrite bool_decide_true.
Qed.

Lemma updateEntry_alter t f J d :
  is_Some (J !! t) →
  updateEntry t f (Wld J d) = Return () (Wld (alter f t J) d).
Proof.
  intros [e He]. rewrite (updateEntry_run _ _ _ _ e) by done. do 2 f_equal.
  apply map_eq. intros i. destruct (decide (i = t)) as [->|].
  - by rewrite lookup_insert_eq, lookup_alter_eq, He.
  - by rewrite lookup_insert_ne, lookup_alter_ne.
Qed.

Lemma elem_of_ownKeys (J : gmap string entry) t : t ∈ ownKeys J ↔ is_Some (J !! t).
Proof.
  unfold ownKeys. rewrite list_elem_of_fmap. split.
  - intros [[k e] [-> ?%elem_of_map_to_list]]. eauto.
  - intros [e ?]. exists (t, e). by rewrite elem_of_map_to_list.
Qed.

Lemma NoDup_ownKeys (J : gmap string entry) : NoDup (ownKeys J).
Proof. apply NoDup_fst_map_to_list. Qed.

Lemma foldl_alter_lookup (f : entry → entry) ks (J : gmap string entry) i :
  NoDup ks →
  foldl (λ J k, alter f k J) J ks !! i
  = if decide (i ∈ ks) then f <$> J !! i else J !! i.
Proof.
  revert J. induction ks as [|k ks IH]; intros J Hnd; simpl.
  - done.
  - apply NoDup_cons in Hnd as [Hk Hnd]. rewrite IH by done.
    destruct (decide (i = k)) as [->|Hne].
    + rewrite lookup_alter_eq.
      rewrite (decide_False (P := k ∈ ks)), (decide_True (P := k ∈ k :: ks));
        [done|left|done].
    + rewrite lookup_alter_ne by done.
      destruct (decide (i ∈ ks)).
      * rewrite decide_True; [done | by right].
      * rewrite decide_False; [done | by intros [?|?]%elem_of_cons].
Qed.

Lemma foldl_alter_ownKeys (f : entry → entry) (J : gmap string entry) :
  foldl (λ J k, alter f k J) J (ownKeys J) = f <$> J.
Proof.
  apply map_eq. intros i. rewrite foldl_alter_lookup by apply NoDup_ownKeys.
  rewrite lookup_fmap. destruct (decide (i ∈ ownKeys J)) as [|H]; [done|].
  rewrite elem_of_ownKeys in H. destruct (J !! i); [|done]. destruct H; eauto.
Qed.

Lemma for_each_alter (f1 f2 : entry → entry) ks J d :
  (∀ k, k ∈ ks → is_Some (J !! k)) →
  for_each (λ t, updateEntry t f1;; updateEntry t f2) ks (Wld J d)
  = Return () (Wld (foldl (λ J k, alter (f2 ∘ f1) k J) J ks) d).
Proof.
  revert J. induction ks as [|k ks IH]; intros J Hks; simpl; [done|].
  js_unfold. rewrite updateEntry_alter by (apply Hks; left).
  rewrite updateEntry_alter.
  2:{ rewrite lookup_alter_eq. destruct (Hks k) as [e ->]; [left|]. by eexists. }
  rewrite alter_alter_eq. apply IH. intros k' Hk'.
  destruct (Hks k') as [e He]; [by right|].
  rewrite lookup_alter. case_decide; subst; rewrite He; by eexists.
Qed.

Lemma prepareElements_run w :
  prepareElements w = Return () (Wld (mark_unused <$> JSONcontainer w) (document w)).
Proof.
  destruct w as [J d]. unfold prepareElements, for_in. simpl.
  rewrite for_each_alter by (by intros k ?%elem_of_ownKeys).
  by rewrite foldl_alter_ownKeys.
Qed.


(** *** Detaching *)

Lemma parentNode_detach n m d :
  parentNode (detach n d) m = if decide (m = n) then None else parentNode d m.
Proof. apply lookup_parent_filter. Qed.

Lemma parentNode_detach_all ns m d :
  parentNode (detach_all ns d) m = if decide (m ∈ ns) then None else parentNode d m.
Proof.
  revert d. induction ns as [|n ns IH]; intros d; simpl; [done|].
  rewrite IH, parentNode_detach.
  destruct (decide (m ∈ ns)).
  - rewrite decide_True; [done | by right].
  - destruct (decide (m = n)) as [->|].
    + rewrite decide_True; [done | left].
    + rewrite decide_False; [done | by intros [?|?]%elem_of_cons].
Qed.

Lemma removed_detach_all ns d : removed (detach_all ns d) = reverse ns ++ removed d.
Proof.
  revert d. induction ns as [|n ns IH]; intros d; simpl; [done|].
  rewrite IH, reverse_cons. simpl. by rewrite <-app_assoc.
Qed.

Lemma elements_detach_all ns d : elements (detach_all ns d) = elements d.
Proof. revert d. induction ns as [|n ns IH]; intros d; simpl; [done|]. by rewrite IH. Qed.

Lemma attributes_detach_all ns d : attributes (detach_all ns d) = attributes d.
Proof. revert d. induction ns as [|n ns IH]; intros d; simpl; [done|]. by rewrite IH. Qed.

Lemma links_detach_all ns d :
  links (detach_all ns d) = filter (λ l, l.1 ∉ ns) (links d).
Proof.
  revert d. induction ns as [|n ns IH]; intros d; simpl.
  - induction (links d) as [|l ls IHl]; [done|].
    rewrite filter_cons_True by apply not_elem_of_nil. by f_equal.
  - rewrite IH. simpl. rewrite list_filter_filter. apply list_filter_iff.
    intros [c p]. simpl. rewrite not_elem_of_cons. naive_solver.
Qed.

Lemma detach_all_app ns1 ns2 d :
  detach_all (ns1 ++ ns2) d = detach_all ns2 (detach_all ns1 d).
Proof. apply foldl_app. Qed.

Lemma doc_wf_detach_all ns d : doc_wf d → doc_wf (detach_all ns d).
Proof.
  unfold doc_wf. rewrite links_detach_all, elements_detach_all.
  intros H. apply Forall_forall. intros l [_ Hl]%list_elem_of_filter.
  by eapply Forall_forall in H.
Qed.

Lemma for_each_removeFromParent ns d :
  NoDup ns → (∀ n, n ∈ ns → attached d n) →
  for_each removeFromParent ns d = Return () (detach_all ns d).
Proof.
  revert d. induction ns as [|n ns IH]; intros d Hnd Ha; simpl; [done|].
  apply NoDup_cons in Hnd as [Hn Hnd]. js_unfold.
  unfold removeFromParent at 1. destruct (Ha n) as [p ->]; [left|].
  apply IH; [done|]. intros m Hm. unfold attached.
  rewrite parentNode_detach, decide_False by (intros ->; done).
  apply Ha. by right.
Qed.

Lemma for_each_in_document {A} (f : A → M Document unit) l J d :
  for_each (λ x, in_document (f x)) l (Wld J d)
  = in_document (for_each f l) (Wld J d).
Proof.
  revert d. induction l as [|x l IH]; intros d; simpl; [done|].
  unfold in_document at 1 3. js_unfold. simpl.
  destruct (f x d) as [[] d'|e d']; simpl; [|done].
  rewrite IH. unfold in_document. js_unfold. done.
Qed.

(** *** [cleanupElements] *)

Definition cleanup_body (elementType : string) : M World unit :=
  elementTypeJsonContainer ← entryOf elementType;
  for_each (λ n, in_document (removeFromParent n))
           (redundant elementTypeJsonContainer);;
  updateEntry elementType (λ e, Entry (used e) []).

Lemma bind_ext_in {A B} (f g : A → list B) (l : list A) :
  (∀ x, x ∈ l → f x = g x) → l ≫= f = l ≫= g.
Proof.
  induction l as [|x l IH]; intros H; [done|].
  rewrite !bind_cons, H by left. f_equal. apply IH. intros y Hy. apply H. by right.
Qed.

Lemma cleanup_loop ks J d :
  NoDup ks → (∀ k, k ∈ ks → is_Some (J !! k)) →
  NoDup (ks ≫= redundant_at J) →
  (∀ n, n ∈ ks ≫= redundant_at J → attached d n) →
  for_each cleanup_body ks (Wld J d)
  = Return () (Wld (foldl (λ J k, alter clear_redundant k J) J ks)
                   (detach_all (ks ≫= redundant_at J) d)).
Proof.
  revert J d. induction ks as [|k ks IH]; intros J d Hks Hdom Hnd Ha; [done|].
  apply NoDup_cons in Hks as [Hk Hks].
  destruct (Hdom k) as [e He]; [left|].
  rewrite bind_cons in Hnd, Ha |- *.
  assert (redundant_at J k = redundant e) as Hr by (unfold redundant_at; by rewrite He).
  rewrite Hr in *.
  apply NoDup_app in Hnd as (Hnd1 & Hdisj & Hnd2).
  simpl. unfold cleanup_body at 1. js_unfold. unfold entryOf at 1. simpl. rewrite He.
  js_unfold. rewrite for_each_in_document. unfold in_document at 1. js_unfold. simpl.
  rewrite for_each_removeFromParent;
    [|done|intros n Hn; apply Ha, elem_of_app; by left].
  rewrite updateEntry_alter by (rewrite He; by eexists).
  assert (ks ≫= redundant_at (alter (λ e, Entry (used e) []) k J)
          = ks ≫= redundant_at J) as Heq.
  { apply bind_ext_in. intros k' Hk'. unfold redundant_at.
    rewrite lookup_alter_ne; [done|]. by intros ->. }
  rewrite IH.
  - rewrite Heq, detach_all_app. done.
  - done.
  - intros k' Hk'. rewrite lookup_alter_ne by (by intros ->). apply Hdom. by right.
  - by rewrite Heq.
  - rewrite Heq. intros n Hn. unfold attached.
    rewrite parentNode_detach_all, decide_False.
    + apply Ha, elem_of_app. by right.
    + intros Hn'. by apply (Hdisj n).
Qed.

Lemma ownKeys_bind_redundant (J : gmap string entry) :
  ownKeys J ≫= redundant_at J = redundant_nodes J.
Proof.
  unfold ownKeys, redundant_nodes. rewrite list_fmap_bind.
  apply bind_ext_in. intros [t e] Hte%elem_of_map_to_list. simpl.
  unfold redundant_at. by rewrite Hte.
Qed.

Lemma elem_of_used_nodes J n :
  n ∈ used_nodes J ↔ ∃ t e, J !! t = Some e ∧ n ∈ used e.
Proof.
  unfold used_nodes. rewrite list_elem_of_bind. split.
  - intros [[t e] [? ?%elem_of_map_to_list]]. eauto.
  - intros (t & e & ? & ?). exists (t, e). by rewrite elem_of_map_to_list.
Qed.

Lemma elem_of_redundant_nodes J n :
  n ∈ redundant_nodes J ↔ ∃ t e, J !! t = Some e ∧ n ∈ redundant e.
Proof.
  unfold redundant_nodes. rewrite list_elem_of_bind. split.
  - intros [[t e] [? ?%elem_of_map_to_list]]. eauto.
  - intros (t & e & ? & ?). exists (t, e). by rewrite elem_of_map_to_list.
Qed.

Lemma pooled_lookup J n :
  pooled J n ↔ ∃ t e, J !! t = Some e ∧ n ∈ used e ++ redundant e.
Proof.
  unfold pooled. rewrite elem_of_used_nodes, elem_of_redundant_nodes.
  setoid_rewrite elem_of_app. naive_solver.
Qed.

Lemma NoDup_redundant_nodes w : pool_inv w → NoDup (redundant_nodes (JSONcontainer w)).
Proof.
  intros [Hnd Hdisj _ _]. apply NoDup_bind; [| |apply NoDup_map_to_list].
  - intros [t1 e1] [t2 e2] n ?%elem_of_map_to_list ?%elem_of_map_to_list ? ?. simpl in *.
    assert (t1 = t2) as -> by (eapply Hdisj; eauto; apply elem_of_app; by right).
    congruence.
  - intros [t e] ?%elem_of_map_to_list. simpl.
    eapply NoDup_app, Hnd. done.
Qed.

Lemma cleanupElements_run w :
  pool_inv w →
  cleanupElements w
  = Return () (Wld (clear_redundant <$> JSONcontainer w)
                   (detach_all (redundant_nodes (JSONcontainer w)) (document w))).
Proof.
  intros Hinv. destruct w as [J d]. unfold cleanupElements, for_in. simpl.
  change (for_each _ (ownKeys J)) with (for_each cleanup_body (ownKeys J)).
  rewrite cleanup_loop.
  - by rewrite foldl_alter_ownKeys, ownKeys_bind_redundant.
  - apply NoDup_ownKeys.
  - by intros k ?%elem_of_ownKeys.
  - rewrite ownKeys_bind_redundant. by apply (NoDup_redundant_nodes (Wld J d)).
  - rewrite ownKeys_bind_redundant.
    intros n (t & e & ? & ?)%elem_of_redundant_nodes.
    eapply (inv_attached _ Hinv); [done|]. apply elem_of_app. by right.
Qed.

(** Both acquisition functions are one scheme, run with the namespace of the
    elements they create and their way of inserting a new one. *)
Definition getElement (ns : namespace) (insert : node → M World unit)
    (elementType : string) : M World node :=
  own ← hasOwnProperty elementType;
  element ← (if own : bool then
               e ← entryOf elementType;
               match redundant e with
               | first :: rest =>
                   updateEntry elementType (λ e, Entry (used e) rest);;
                   mret first
               | [] =>
                   element ← in_document (createElementNS ns elementType);
                   insert element;;
                   mret element
               end
             else
               element ← in_document (createElementNS ns elementType);
               setEntry elementType (Entry [] []);;
               insert element;;
               mret element);
  updateEntry elementType (λ e, Entry (used e ++ [element]) (redundant e));;
  mret element.

Lemma getSVGElement_scheme t c :
  getSVGElement t c = getElement SVG (λ n, in_document (appendChild c n)) t.
Proof. reflexivity. Qed.

Lemma getDOMElement_scheme t c r :
  getDOMElement t c r = getElement HTML (λ n, place c n r) t.
Proof. reflexivity. Qed.

(** Where a new node [n] ends up among the links, or the exception. *)
Definition placed (c n : node) (r : option reference) (d : Document)
  : error + list (node * node) :=
  if exists_node d c then
    match r with
    | None | Some RefNull => inr (links d ++ [(n, c)])
    | Some (RefNode r) =>
        if decide (parentNode d r = Some c)
        then inr (insert_before r (n, c) (links d))
        else inl NotFoundError
    end
  else inl TypeError.

Definition with_links (d : Document) (ls : list (node * node)) : Document :=
  Doc (elements d) ls (attributes d) (removed d).

Definition inserts (insert : node → M World unit)
    (pl : node → Document → error + list (node * node)) : Prop :=
  ∀ n J d, insert n (Wld J d) =
           match pl n d with
           | inr ls => Return () (Wld J (with_links d ls))
           | inl e => Throw e (Wld J d)
           end.

Lemma appendChild_inserts c :
  inserts (λ n, in_document (appendChild c n)) (λ n, placed c n None).
Proof.
  intros n J d. unfold in_document, zoom, appendChild, placed.
  simpl. by destruct (exists_node d c).
Qed.

Lemma place_inserts c r : inserts (λ n, place c n r) (λ n, placed c n r).
Proof.
  intros n J d. unfold place, in_document, zoom, appendChild, DOM.insertBefore, placed.
  destruct r as [[|r]|]; simpl; destruct (exists_node d c); simpl; try done.
  all: by destruct (decide _).
Qed.

Definition create (ns : namespace) (t : string) (d : Document) : Document :=
  Doc (elements d ++ [Element ns t]) (links d) (attributes d) (removed d).

(** The own properties once the entry [e] is assigned to a name that was
    none of them. *)
Definition assigned (t : string) (e : entry) (J : gmap string entry)
  : gmap string entry :=
  if decide (t = "__proto__") then J else <[t := e]> J.

Lemma createElementNS_run ns t J d :
  in_document (createElementNS ns t) (Wld J d)
  = match name_error ns t with
    | Some err => Throw err (Wld J d)
    | None => Return (length (elements d)) (Wld J (create ns t d))
    end.
Proof.
  unfold in_document, zoom, createElementNS. simpl. by destruct (name_error ns t).
Qed.

Lemma getElement_run ns insert pl t J d :
  inserts insert pl →
  getElement ns insert t (Wld J d) =
  let n := length (elements d) in
  match J !! t with
  | Some e =>
      match redundant e with
      | first :: rest => Return first (Wld (<[t := Entry (used e ++ [first]) rest]> J) d)
      | [] =>
          match name_error ns t with
          | Some err => Throw err (Wld J d)
          | None =>
              match pl n (create ns t d) with
              | inr ls =>
                  Return n (Wld (<[t := Entry (used e ++ [n]) []]> J)
                                (with_links (create ns t d) ls))
              | inl err => Throw err (Wld J (create ns t d))
              end
          end
      end
  | None =>
      match name_error ns t with
      | Some err => Throw err (Wld J d)
      | None =>
          match pl n (create ns t d) with
          | inr ls =>
              Return n (Wld (assigned t (Entry [n] []) J) (with_links (create ns t d) ls))
          | inl err => Throw err (Wld (assigned t (Entry [] []) J) (create ns t d))
          end
      end
  end.
Proof.
  intros Hins. unfold getElement.
  rewrite run_bind. unfold hasOwnProperty at 1. cbn [JSONcontainer].
  destruct (J !! t) as [e|] eqn:He.
  - rewrite bool_decide_true by eauto. run.
    unfold entryOf at 1. cbn [JSONcontainer]. rewrite He.
    destruct (redundant e) as [|first rest] eqn:Hr; run.
    + rewrite createElementNS_run. destruct (name_error ns t); [done|].
      run. rewrite Hins.
      destruct (pl _ _) as [err|ls]; [done|]. run.
      rewrite (updateEntry_run _ _ _ _ e) by done. by rewrite Hr.
    + rewrite (updateEntry_run _ _ _ _ e) by done. run.
      rewrite (updateEntry_run _ _ _ _ (Entry (used e) rest)) by apply lookup_insert_eq.
      by rewrite insert_insert_eq.
  - rewrite bool_decide_false by (by intros [? ?]). run.
    rewrite createElementNS_run. destruct (name_error ns t); [done|].
    run. rewrite setEntry_run. run. unfold assigned.
    destruct (decide (t = "__proto__")) as [->|Hne].
    + rewrite bool_decide_true by done. rewrite Hins.
      destruct (pl _ _) as [err|ls]; [done|]. run.
      by rewrite updateEntry_proto.
    + rewrite bool_decide_false by (by intros [? _]). rewrite Hins.
      destruct (pl _ _) as [err|ls]; [done|]. run.
      rewrite (updateEntry_run _ _ _ _ (Entry [] [])) by apply lookup_insert_eq.
      by rewrite insert_insert_eq.
Qed.

Lemma pool_inv_insert J d d' t e' :
  pool_inv (Wld J d) →
  NoDup (used e' ++ redundant e') →
  (∀ m, m ∈ used e' ++ redundant e' →
        attached d' m ∧
        ∀ t2 e2, t2 ≠ t → J !! t2 = Some e2 → m ∉ used e2 ++ redundant e2) →
  (∀ m, attached d m → attached d' m) →
  doc_wf d' →
  pool_inv (Wld (<[t:=e']> J) d').
Proof.
  intros [Hnd Hdisj Hatt _] Hnd' Hnew Hmono Hwf. simpl in *.
  split; simpl; [| | |done].
  - intros t1 e1. rewrite lookup_insert. case_decide; [by intros [= <-]|]. apply Hnd.
  - intros t1 t2 e1 e2 n. rewrite !lookup_insert.
    repeat case_decide; subst; try done.
    + intros [= <-] H2 Hn1 Hn2. destruct (Hnew n Hn1) as [_ Hx].
      by destruct (Hx t2 e2).
    + intros H1 [= <-] Hn1 Hn2. destruct (Hnew n Hn2) as [_ Hx].
      by destruct (Hx t1 e1).
    + apply Hdisj.
  - intros t1 e1 n. rewrite lookup_insert. case_decide.
    + intros [= <-] Hn. by apply Hnew.
    + intros H1 Hn. eapply Hmono, Hatt; eauto.
Qed.

Lemma pool_inv_document J d d' :
  pool_inv (Wld J d) → (∀ m, attached d m → attached d' m) → doc_wf d' →
  pool_inv (Wld J d').
Proof.
  intros [Hnd Hdisj Hatt _] Hmono Hwf. split; simpl in *; eauto.
Qed.


(** *** The document after an insertion *)

Lemma elem_of_insert_before r (x l : node * node) ls :
  l ∈ insert_before r x ls ↔ l = x ∨ l ∈ ls.
Proof.
  induction ls as [|[c p] ls IH]; simpl.
  - rewrite list_elem_of_singleton. set_solver.
  - case_decide; rewrite !elem_of_cons, ?IH; naive_solver.
Qed.

Lemma placed_parent c n r d ls m :
  placed c n r d = inr ls → ¬ attached d n →
  lookup_parent m ls = if decide (m = n) then Some c else parentNode d m.
Proof.
  unfold placed, attached, parentNode. intros Hpl Hn.
  rewrite lookup_parent_is_Some in Hn.
  destruct (exists_node d c); [|done].
  assert (lookup_parent m (links d ++ [(n, c)])
          = if decide (m = n) then Some c else lookup_parent m (links d)) as Happ.
  { rewrite lookup_parent_app. simpl.
    destruct (lookup_parent m (links d)) eqn:Hm.
    - rewrite decide_False; [done|]. intros ->.
      apply Hn, lookup_parent_is_Some. by eexists.
    - destruct (decide (n = m)) as [->|].
      + by rewrite decide_True.
      + by rewrite decide_False. }
  destruct r as [[|r]|]; [by injection Hpl as <-| |by injection Hpl as <-].
  destruct (decide _); [|done]. injection Hpl as <-.
  by apply lookup_parent_insert_before.
Qed.

Lemma placed_links c n r d ls l :
  placed c n r d = inr ls → l ∈ ls ↔ l = (n, c) ∨ l ∈ links d.
Proof.
  unfold placed. intros Hpl. destruct (exists_node d c); [|done].
  destruct r as [[|r]|].
  - injection Hpl as <-. rewrite elem_of_app, list_elem_of_singleton. naive_solver.
  - destruct (decide _); [|done]. injection Hpl as <-. apply elem_of_insert_before.
  - injection Hpl as <-. rewrite elem_of_app, list_elem_of_singleton. naive_solver.
Qed.

Lemma placed_exists c n r d ls : placed c n r d = inr ls → c < length (elements d).
Proof.
  unfold placed, exists_node. case_bool_decide; [done|]. by intros.
Qed.

Lemma doc_wf_create ns t d : doc_wf d → doc_wf (create ns t d).
Proof.
  unfold doc_wf, create. simpl. rewrite length_app. simpl.
  intros H. eapply Forall_impl; [exact H|]. intros [c p]. simpl. lia.
Qed.

Lemma attached_create ns t d m : attached (create ns t d) m ↔ attached d m.
Proof. done. Qed.

Section inserted.
Context (ns : namespace) (t : string) (c : node) (r : option reference).
Context (d : Document) (ls : list (node * node)).
Let n := length (elements d).
Let d' := with_links (create ns t d) ls.
Hypothesis Hwf : doc_wf d.
Hypothesis Hpl : placed c n r (create ns t d) = inr ls.

Lemma inserted_parent m :
  parentNode d' m = if decide (m = n) then Some c else parentNode d m.
Proof.
  unfold d', parentNode. simpl.
  rewrite (placed_parent c n r (create ns t d) ls m Hpl); [done|].
  rewrite attached_create. by apply doc_wf_fresh.
Qed.

Lemma inserted_attached m : attached d' m ↔ m = n ∨ attached d m.
Proof.
  unfold attached. rewrite inserted_parent. destruct (decide (m = n)); [|naive_solver].
  split; eauto.
Qed.

Lemma inserted_wf : doc_wf d'.
Proof.
  pose proof (placed_exists _ _ _ _ _ Hpl) as Hc.
  apply (doc_wf_create ns t) in Hwf as Hwf'.
  unfold doc_wf, d' in *. simpl in *. rewrite length_app in *. simpl in *.
  apply Forall_forall. intros l [->|Hl]%(placed_links _ _ _ _ _ _ Hpl); simpl.
  - unfold n. lia.
  - by eapply Forall_forall in Hwf'.
Qed.

End inserted.


(** *** What an acquisition guarantees *)

Lemma used_nodes_insert J t e' n :
  n ∈ used_nodes (<[t:=e']> J) ↔
  n ∈ used e' ∨ ∃ t2 e2, t2 ≠ t ∧ J !! t2 = Some e2 ∧ n ∈ used e2.
Proof.
  rewrite elem_of_used_nodes. split.
  - intros (t2 & e2 & H & Hn). rewrite lookup_insert in H. case_decide.
    + injection H as <-. by left.
    + right. eauto.
  - intros [Hn|(t2 & e2 & Hne & H & Hn)].
    + exists t, e'. by rewrite lookup_insert_eq.
    + exists t2, e2. by rewrite lookup_insert_ne.
Qed.

Lemma redundant_nodes_insert J t e' n :
  n ∈ redundant_nodes (<[t:=e']> J) ↔
  n ∈ redundant e' ∨ ∃ t2 e2, t2 ≠ t ∧ J !! t2 = Some e2 ∧ n ∈ redundant e2.
Proof.
  rewrite elem_of_redundant_nodes. split.
  - intros (t2 & e2 & H & Hn). rewrite lookup_insert in H. case_decide.
    + injection H as <-. by left.
    + right. eauto.
  - intros [Hn|(t2 & e2 & Hne & H & Hn)].
    + exists t, e'. by rewrite lookup_insert_eq.
    + exists t2, e2. by rewrite lookup_insert_ne.
Qed.

Lemma pooled_insert J t e' n :
  pooled (<[t:=e']> J) n ↔
  n ∈ used e' ++ redundant e' ∨
  ∃ t2 e2, t2 ≠ t ∧ J !! t2 = Some e2 ∧ n ∈ used e2 ++ redundant e2.
Proof.
  unfold pooled. rewrite used_nodes_insert, redundant_nodes_insert.
  setoid_rewrite elem_of_app. naive_solver.
Qed.

Lemma pooled_insert_mono J t e' :
  (∀ e n, J !! t = Some e → n ∈ used e ++ redundant e → n ∈ used e' ++ redundant e') →
  ∀ n, pooled J n → pooled (<[t:=e']> J) n.
Proof.
  intros Hsub n (t2 & e2 & H & Hn)%pooled_lookup. apply pooled_insert.
  destruct (decide (t2 = t)) as [->|]; [left; eauto | right; eauto].
Qed.

Lemma used_insert_mono J t e' :
  (∀ e n, J !! t = Some e → n ∈ used e → n ∈ used e') →
  ∀ n, n ∈ used_nodes J → n ∈ used_nodes (<[t:=e']> J).
Proof.
  intros Hsub n (t2 & e2 & H & Hn)%elem_of_used_nodes. apply used_nodes_insert.
  destruct (decide (t2 = t)) as [->|]; [left; eauto | right; eauto].
Qed.

(** From [w] to [w']: the pool only gained nodes, and no node was detached
    or moved. *)
Record extends (w w' : World) : Prop := Extends {
  ext_pooled : ∀ n, pooled (JSONcontainer w) n → pooled (JSONcontainer w') n;
  ext_used : ∀ n,
    n ∈ used_nodes (JSONcontainer w) → n ∈ used_nodes (JSONcontainer w');
  ext_parent : ∀ n, attached (document w) n →
                    parentNode (document w') n = parentNode (document w) n;
  ext_removed : removed (document w') = removed (document w);
  ext_elements : length (elements (document w)) ≤ length (elements (document w'))
}.

Lemma extends_refl w : extends w w.
Proof. split; eauto. Qed.

Lemma extends_trans w1 w2 w3 : extends w1 w2 → extends w2 w3 → extends w1 w3.
Proof.
  intros [P1 U1 A1 R1 E1] [P2 U2 A2 R2 E2]. split; eauto.
  - intros n Hn. rewrite A2, A1; [done..|]. unfold attached. by rewrite A1.
  - congruence.
  - lia.
Qed.

(** Whatever is newly attached in [w'] is a new node in a [used] list. *)
Definition tracked (w w' : World) : Prop :=
  ∀ n, attached (document w') n →
       attached (document w) n ∨
       (n ∈ used_nodes (JSONcontainer w') ∧ length (elements (document w)) ≤ n).

Lemma tracked_refl w : tracked w w.
Proof. intros n Hn. by left. Qed.

Lemma tracked_trans w1 w2 w3 :
  extends w1 w2 → extends w2 w3 → tracked w1 w2 → tracked w2 w3 → tracked w1 w3.
Proof.
  intros [_ _ _ _ E1] [_ U2 _ _ _] N1 N2 n [Hn|[Hn ?]]%N2.
  - destruct (N1 n Hn) as [?|[? ?]]; [by left|]. right. eauto.
  - right. split; [done | lia].
Qed.

Lemma getElement_sound ns insert c r t w :
  inserts insert (λ n, placed c n r) → pool_inv w →
  pool_inv (state_of (getElement ns insert t w)) ∧
  extends w (state_of (getElement ns insert t w)).
Proof.
  intros Hins Hinv. destruct w as [J d].
  rewrite (getElement_run _ _ _ _ _ _ Hins). cbv zeta.
  pose proof (inv_nodup _ Hinv) as Hnd. pose proof (inv_disjoint _ Hinv) as Hdj.
  pose proof (inv_attached _ Hinv) as Hat. pose proof (inv_doc _ Hinv) as Hwf.
  simpl in Hnd, Hdj, Hat, Hwf.
  pose proof (doc_wf_fresh d Hwf) as Hfresh.
  destruct (J !! t) as [e|] eqn:He.
  - destruct (redundant e) as [|first rest] eqn:Hr.
    + destruct (name_error ns t); [split; [done | apply extends_refl]|].
      destruct (placed _ _ _ _) as [err|ls] eqn:Hpl; simpl.
      * split; [|split; simpl; eauto; rewrite ?length_app; simpl; lia].
        apply pool_inv_document with d; [done|done|by apply doc_wf_create].
      * pose proof (inserted_attached ns t c r d ls Hwf Hpl) as Hia.
        pose proof (inserted_parent ns t c r d ls Hwf Hpl) as Hip.
        assert (length (elements d) ∉ used e) as Hnew.
        { intros Hin. apply Hfresh, (Hat t e); [done|]. apply elem_of_app. by left. }
        split.
        -- apply pool_inv_insert with d; simpl; [done| | | |].
           ++ rewrite app_nil_r. apply NoDup_app. split_and!.
              ** pose proof (Hnd t e He) as Hnde. by apply NoDup_app in Hnde as (? & ? & ?).
              ** intros x Hx ->%list_elem_of_singleton. done.
              ** apply NoDup_singleton.
           ++ intros m. rewrite app_nil_r, elem_of_app, list_elem_of_singleton.
              intros [Hm| ->]; split.
              ** apply Hia. right. apply (Hat t e); [done|]. apply elem_of_app. by left.
              ** intros t2 e2 Hne H2 Hm2. apply Hne. symmetry.
                 apply (Hdj t t2 e e2 m); [done|done| |done]. apply elem_of_app. by left.
              ** apply Hia. by left.
              ** intros t2 e2 Hne H2 Hm2. apply Hfresh. by apply (Hat t2 e2).
           ++ intros m Hm. apply Hia. by right.
           ++ by apply inserted_wf with c r.
        -- split; simpl.
           ++ apply pooled_insert_mono. intros e0 n H0. rewrite He in H0.
              injection H0 as <-. simpl. rewrite Hr, !app_nil_r. intros Hn.
              apply elem_of_app. by left.
           ++ apply used_insert_mono. intros e0 n H0. rewrite He in H0.
              injection H0 as <-. simpl. intros Hn. apply elem_of_app. by left.
           ++ intros n Hn. rewrite Hip. rewrite decide_False; [done|]. by intros ->.
           ++ done.
           ++ rewrite length_app. simpl. lia.
    + simpl. split.
      * apply pool_inv_insert with d; simpl; [done| | |done|done].
        -- rewrite <-app_assoc. simpl. rewrite <-Hr. by apply (Hnd t e).
        -- intros m. rewrite <-app_assoc. simpl. rewrite <-Hr. intros Hm. split.
           ++ by apply (Hat t e).
           ++ intros t2 e2 Hne H2 Hm2. apply Hne. symmetry.
              by apply (Hdj t t2 e e2 m).
      * split; simpl; eauto.
        -- apply pooled_insert_mono. intros e0 n H0. rewrite He in H0.
           injection H0 as <-. simpl. by rewrite Hr, <-app_assoc.
        -- apply used_insert_mono. intros e0 n H0. rewrite He in H0.
           injection H0 as <-. simpl. intros Hn. apply elem_of_app. by left.
  - destruct (name_error ns t); [split; [done | apply extends_refl]|].
    unfold assigned. destruct (decide (t = "__proto__")) as [Hproto|Hproto].
    { destruct (placed _ _ _ _) as [err|ls] eqn:Hpl; simpl.
      - split; [|split; simpl; eauto; rewrite ?length_app; simpl; lia].
        apply pool_inv_document with d; [done|done|by apply doc_wf_create].
      - pose proof (inserted_attached ns t c r d ls Hwf Hpl) as Hia.
        pose proof (inserted_parent ns t c r d ls Hwf Hpl) as Hip.
        split.
        + apply pool_inv_document with d; [done| |by apply inserted_wf with c r].
          intros m Hm. apply Hia. by right.
        + split; simpl; eauto.
          * intros n Hn. rewrite Hip. rewrite decide_False; [done|]. by intros ->.
          * rewrite length_app. simpl. lia. }
    destruct (placed _ _ _ _) as [err|ls] eqn:Hpl; simpl.
    + split.
      * apply pool_inv_insert with d; simpl;
          [done|constructor|by intros m ?%elem_of_nil|done|by apply doc_wf_create].
      * split; simpl; eauto.
        -- apply pooled_insert_mono. intros e0 n H0. by rewrite He in H0.
        -- apply used_insert_mono. intros e0 n H0. by rewrite He in H0.
        -- rewrite length_app. simpl. lia.
    + pose proof (inserted_attached ns t c r d ls Hwf Hpl) as Hia.
      pose proof (inserted_parent ns t c r d ls Hwf Hpl) as Hip.
      split.
      * apply pool_inv_insert with d; simpl; [done|apply NoDup_singleton| | |].
        -- intros m ->%list_elem_of_singleton. split.
           ++ apply Hia. by left.
           ++ intros t2 e2 Hne H2 Hm2. apply Hfresh. by apply (Hat t2 e2).
        -- intros m Hm. apply Hia. by right.
        -- by apply inserted_wf with c r.
      * split; simpl.
        -- apply pooled_insert_mono. intros e0 n H0. by rewrite He in H0.
        -- apply used_insert_mono. intros e0 n H0. by rewrite He in H0.
        -- intros n Hn. rewrite Hip. rewrite decide_False; [done|]. by intros ->.
        -- done.
        -- rewrite length_app. simpl. lia.
Qed.

(** An acquisition under a name that becomes a property of the container
    keeps track of the node it attaches. *)
Lemma getElement_tracked ns insert c r t w :
  inserts insert (λ n, placed c n r) → pool_inv w →
  t ≠ "__proto__" ∨ is_Some (JSONcontainer w !! t) →
  tracked w (state_of (getElement ns insert t w)).
Proof.
  intros Hins Hinv Ht. destruct w as [J d].
  rewrite (getElement_run _ _ _ _ _ _ Hins). cbv zeta.
  pose proof (inv_doc _ Hinv) as Hwf. simpl in Hwf, Ht.
  destruct (J !! t) as [e|] eqn:He.
  - destruct (redundant e) as [|first rest] eqn:Hr; [|by intros n Hn; left].
    destruct (name_error ns t); [apply tracked_refl|].
    destruct (placed _ _ _ _) as [err|ls] eqn:Hpl; simpl.
    + intros n Hn. by left.
    + pose proof (inserted_attached ns t c r d ls Hwf Hpl) as Hia.
      intros n [->|Hn]%Hia; [right|by left]. split; [|done].
      apply used_nodes_insert. left. simpl. apply elem_of_app. right. left.
  - destruct Ht as [Ht|[? ?]]; [|done].
    destruct (name_error ns t); [apply tracked_refl|].
    unfold assigned. destruct (decide (t = "__proto__")) as [|_]; [done|].
    destruct (placed _ _ _ _) as [err|ls] eqn:Hpl; simpl.
    + intros m Hm. by left.
    + pose proof (inserted_attached ns t c r d ls Hwf Hpl) as Hia.
      intros n [->|Hn]%Hia; [right|by left]. split; [|done].
      apply used_nodes_insert. left. simpl. left.
Qed.

Lemma acquire_sound c w :
  pool_inv w →
  pool_inv (state_of (acquire c w)) ∧ extends w (state_of (acquire c w)).
Proof.
  destruct c as [t c|t c r]; simpl.
  - rewrite getSVGElement_scheme. apply getElement_sound with c None.
    apply appendChild_inserts.
  - rewrite getDOMElement_scheme. apply getElement_sound with c r.
    apply place_inserts.
Qed.

Lemma acquire_tracked c w :
  pool_inv w →
  call_tag c ≠ "__proto__" ∨ is_Some (JSONcontainer w !! call_tag c) →
  tracked w (state_of (acquire c w)).
Proof.
  destruct c as [t c|t c r]; simpl.
  - rewrite getSVGElement_scheme. apply getElement_tracked with c None.
    apply appendChild_inserts.
  - rewrite getDOMElement_scheme. apply getElement_tracked with c r.
    apply place_inserts.
Qed.

(** Where the nodes of the pool hang: an acquisition moves no node that
    exists, and a node it adds to the pool is the new one, under the
    container given. *)
Lemma getElement_parents ns insert c r t J d :
  inserts insert (λ n, placed c n r) → doc_wf d →
  let w' := state_of (getElement ns insert t (Wld J d)) in
  (∀ m, m < length (elements d) → parentNode (document w') m = parentNode d m) ∧
  (∀ n, pooled (JSONcontainer w') n →
        pooled J n ∨
        (n = length (elements d) ∧ parentNode (document w') n = Some c)).
Proof.
  intros Hins Hwf. rewrite (getElement_run _ _ _ _ _ _ Hins). cbv zeta.
  assert (∀ e n, J !! t = Some e → n ∈ used e ++ redundant e → pooled J n) as Hold.
  { intros e n He Hn. apply pooled_lookup. eauto. }
  assert (∀ n t2 e2, J !! t2 = Some e2 → n ∈ used e2 ++ redundant e2 → pooled J n)
    as Hother by (intros; apply pooled_lookup; eauto).
  destruct (J !! t) as [e|] eqn:He.
  - destruct (redundant e) as [|first rest] eqn:Hr.
    + destruct (name_error ns t); [by simpl; eauto|].
      destruct (placed _ _ _ _) as [err|ls] eqn:Hpl; simpl; [by eauto|].
      pose proof (inserted_parent ns t c r d ls Hwf Hpl) as Hip. split.
      * intros m Hm. rewrite Hip, decide_False; [done|lia].
      * intros n [Hn|(t2 & e2 & _ & H2 & Hn)]%pooled_insert; [|by eauto].
        simpl in Hn. rewrite app_nil_r in Hn.
        apply elem_of_app in Hn as [Hn| ->%list_elem_of_singleton].
        -- left. apply (Hold e); [done|]. apply elem_of_app. by left.
        -- right. split; [done|]. by rewrite Hip, decide_True.
    + simpl. split; [done|].
      intros n [Hn|(t2 & e2 & _ & H2 & Hn)]%pooled_insert; [|by eauto].
      left. apply (Hold e); [done|]. simpl in Hn.
      rewrite <-app_assoc in Hn. simpl in Hn. by rewrite <-Hr in Hn.
  - destruct (name_error ns t); [by simpl; eauto|].
    unfold assigned. destruct (decide (t = "__proto__")) as [_|_].
    { destruct (placed _ _ _ _) as [err|ls] eqn:Hpl; simpl; [by eauto|].
      pose proof (inserted_parent ns t c r d ls Hwf Hpl) as Hip. split; [|by eauto].
      intros m Hm. rewrite Hip, decide_False; [done|lia]. }
    destruct (placed _ _ _ _) as [err|ls] eqn:Hpl; simpl.
    + split; [done|].
      intros n [Hn|(t2 & e2 & _ & H2 & Hn)]%pooled_insert; [|by eauto].
      by apply elem_of_nil in Hn.
    + pose proof (inserted_parent ns t c r d ls Hwf Hpl) as Hip. split.
      * intros m Hm. rewrite Hip, decide_False; [done|lia].
      * intros n [Hn|(t2 & e2 & _ & H2 & Hn)]%pooled_insert; [|by eauto].
        simpl in Hn. apply list_elem_of_singleton in Hn as ->.
        right. split; [done|]. by rewrite Hip, decide_True.
Qed.

Lemma acquire_parents cl w :
  doc_wf (document w) →
  let w' := state_of (acquire cl w) in
  (∀ m, m < length (elements (document w)) →
        parentNode (document w') m = parentNode (document w) m) ∧
  (∀ n, pooled (JSONcontainer w') n →
        pooled (JSONcontainer w) n ∨
        (n = length (elements (document w)) ∧
         parentNode (document w') n = Some (call_container cl))).
Proof.
  destruct w as [J d]. destruct cl as [t c|t c r]; simpl; intros Hwf.
  - rewrite getSVGElement_scheme.
    apply (getElement_parents SVG _ c None); [apply appendChild_inserts | done].
  - rewrite getDOMElement_scheme.
    apply (getElement_parents HTML _ c r); [apply place_inserts | done].
Qed.

Lemma used_not_redundant w n :
  pool_inv w →
  n ∈ used_nodes (JSONcontainer w) → n ∉ redundant_nodes (JSONcontainer w).
Proof.
  intros Hinv (t1 & e1 & H1 & Hn1)%elem_of_used_nodes
    (t2 & e2 & H2 & Hn2)%elem_of_redundant_nodes.
  assert (t1 = t2) as <-.
  { eapply (inv_disjoint _ Hinv); eauto; apply elem_of_app; eauto. }
  assert (e2 = e1) as -> by congruence.
  pose proof (inv_nodup _ Hinv _ _ H1) as Hnd.
  apply NoDup_app in Hnd as (_ & Hd & _). by apply (Hd n).
Qed.

(** *** [prepareElements] *)

Lemma used_nodes_mark_unused J n : n ∉ used_nodes (mark_unused <$> J).
Proof.
  intros (t & e & H & Hn)%elem_of_used_nodes. rewrite lookup_fmap in H.
  destruct (J !! t); simplify_eq/=. by apply elem_of_nil in Hn.
Qed.

Lemma redundant_nodes_mark_unused J n :
  n ∈ redundant_nodes (mark_unused <$> J) ↔ n ∈ used_nodes J.
Proof.
  rewrite elem_of_redundant_nodes, elem_of_used_nodes. split.
  - intros (t & e & H & Hn). rewrite lookup_fmap in H.
    destruct (J !! t) as [e0|] eqn:H0; simplify_eq/=. eauto.
  - intros (t & e & H & Hn). exists t, (mark_unused e). by rewrite lookup_fmap, H.
Qed.

Lemma pooled_mark_unused J n :
  pooled (mark_unused <$> J) n ↔ n ∈ used_nodes J.
Proof.
  unfold pooled. rewrite redundant_nodes_mark_unused.
  pose proof (used_nodes_mark_unused J n). naive_solver.
Qed.

Lemma settled_pooled J n : settled J → pooled J n ↔ n ∈ used_nodes J.
Proof.
  intros Hs. unfold pooled. split; [|by left].
  intros [?|(t & e & H & Hn)%elem_of_redundant_nodes]; [done|].
  rewrite (Hs t e H) in Hn. by apply elem_of_nil in Hn.
Qed.

Lemma pool_inv_prepare J d : pool_inv (Wld J d) → pool_inv (Wld (mark_unused <$> J) d).
Proof.
  intros [Hnd Hdj Hat Hwf]. simpl in *. split; simpl; [| | |done].
  - intros t e. rewrite lookup_fmap. destruct (J !! t) as [e0|] eqn:H0; [|done].
    intros [= <-]. simpl. pose proof (Hnd t e0 H0) as H.
    by apply NoDup_app in H as (? & ? & ?).
  - intros t1 t2 e1 e2 n. rewrite !lookup_fmap.
    destruct (J !! t1) as [a1|] eqn:H1; [|done].
    destruct (J !! t2) as [a2|] eqn:H2; [|done].
    intros [= <-] [= <-]. simpl. intros Hn1 Hn2.
    apply (Hdj t1 t2 a1 a2 n); [done|done|..]; apply elem_of_app; by left.
  - intros t e n. rewrite lookup_fmap. destruct (J !! t) as [e0|] eqn:H0; [|done].
    intros [= <-]. simpl. intros Hn. apply (Hat t e0); [done|]. apply elem_of_app. by left.
Qed.

(** *** [cleanupElements] *)

Lemma used_nodes_clear_redundant J n :
  n ∈ used_nodes (clear_redundant <$> J) ↔ n ∈ used_nodes J.
Proof.
  rewrite !elem_of_used_nodes. split.
  - intros (t & e & H & Hn). rewrite lookup_fmap in H.
    destruct (J !! t) as [e0|] eqn:H0; simplify_eq/=. eauto.
  - intros (t & e & H & Hn). exists t, (clear_redundant e). by rewrite lookup_fmap, H.
Qed.

Lemma settled_clear_redundant J : settled (clear_redundant <$> J).
Proof.
  intros t e. rewrite lookup_fmap. destruct (J !! t); [|done]. by intros [= <-].
Qed.

Lemma pool_inv_cleanup J d :
  pool_inv (Wld J d) →
  pool_inv (Wld (clear_redundant <$> J) (detach_all (redundant_nodes J) d)).
Proof.
  intros Hinv. pose proof Hinv as [Hnd Hdj Hat Hwf]. simpl in *. split; simpl.
  - intros t e. rewrite lookup_fmap. destruct (J !! t) as [e0|] eqn:H0; [|done].
    intros [= <-]. simpl. rewrite app_nil_r. pose proof (Hnd t e0 H0) as H.
    by apply NoDup_app in H as (? & ? & ?).
  - intros t1 t2 e1 e2 n. rewrite !lookup_fmap.
    destruct (J !! t1) as [a1|] eqn:H1; [|done].
    destruct (J !! t2) as [a2|] eqn:H2; [|done].
    intros [= <-] [= <-]. simpl. rewrite !app_nil_r. intros Hn1 Hn2.
    apply (Hdj t1 t2 a1 a2 n); [done|done|..]; apply elem_of_app; by left.
  - intros t e n. rewrite lookup_fmap. destruct (J !! t) as [e0|] eqn:H0; [|done].
    intros [= <-]. simpl. rewrite app_nil_r. intros Hn. unfold attached.
    rewrite parentNode_detach_all, decide_False.
    + apply (Hat t e0); [done|]. apply elem_of_app. by left.
    + apply (used_not_redundant _ _ Hinv). apply elem_of_used_nodes. eauto.
  - by apply doc_wf_detach_all.
Qed.

Lemma count_NoDup (l : list node) n :
  NoDup l → length (filter (λ m, m = n) l) = if decide (n ∈ l) then 1 else 0.
Proof.
  induction 1 as [|x l Hx Hnd IH]; [done|].
  rewrite filter_cons. destruct (decide (x = n)) as [->|Hne]; simpl.
  - rewrite IH, decide_False, decide_True; [done|left|done].
  - rewrite IH. destruct (decide (n ∈ l)).
    + rewrite decide_True; [done|by right].
    + rewrite decide_False; [done|]. intros [?|?]%elem_of_cons; congruence.
Qed.

Lemma removals_detach_all ns d n :
  NoDup ns →
  removals (detach_all ns d) n = (if decide (n ∈ ns) then 1 else 0) + removals d n.
Proof.
  intros Hnd. unfold removals. rewrite removed_detach_all, filter_app, length_app.
  f_equal. rewrite count_NoDup by by rewrite reverse_Permutation.
  destruct (decide (n ∈ ns)).
  - rewrite decide_True; [done|]. by apply elem_of_reverse.
  - rewrite decide_False; [done|]. by rewrite elem_of_reverse.
Qed.

(** *** [resetElements] *)

Lemma resetElements_run w :
  pool_inv w →
  resetElements w
  = Return () (Wld (mark_unused <$> (clear_redundant <$> (mark_unused <$> JSONcontainer w)))
                   (detach_all (redundant_nodes (mark_unused <$> JSONcontainer w))
                      (document w))).
Proof.
  intros Hinv. destruct w as [J d]. unfold resetElements. run.
  rewrite prepareElements_run. run. simpl.
  rewrite cleanupElements_run by by apply pool_inv_prepare. run.
  by rewrite prepareElements_run.
Qed.

(** *** The invariant as a check *)

Lemma NoDup_bind_inv {A B} (f : A → list B) (l : list A) :
  NoDup (l ≫= f) →
  (∀ x, x ∈ l → NoDup (f x)) ∧
  (∀ x1 x2 y, x1 ∈ l → x2 ∈ l → y ∈ f x1 → y ∈ f x2 → x1 = x2).
Proof.
  induction l as [|a l IH]; intros Hnd.
  - split; [by intros x ?%elem_of_nil | by intros x1 x2 y ?%elem_of_nil].
  - rewrite bind_cons in Hnd. apply NoDup_app in Hnd as (Ha & Hdisj & Hl).
    destruct (IH Hl) as [IH1 IH2]. split.
    + intros x [->|?]%elem_of_cons; eauto.
    + intros x1 x2 y [->|H1]%elem_of_cons [->|H2]%elem_of_cons Hy1 Hy2; eauto.
      * destruct (Hdisj y Hy1). apply list_elem_of_bind. eauto.
      * destruct (Hdisj y Hy2). apply list_elem_of_bind. eauto.
Qed.

Lemma pool_ok_inv w : pool_ok w → pool_inv w.
Proof.
  intros (Hnd & Hat & Hwf). destruct w as [J d]. simpl in *.
  apply NoDup_bind_inv in Hnd as [Hnd Hdj]. split; simpl; [| | |done].
  - intros t e H. apply (Hnd (t, e)). by apply elem_of_map_to_list.
  - intros t1 t2 e1 e2 n H1 H2 Hn1 Hn2.
    assert ((t1, e1) = (t2, e2)) as [= -> ->]; [|done].
    apply (Hdj _ _ n); [by apply elem_of_map_to_list..|done|done].
  - intros t e n H Hn. apply attached_links.
    rewrite Forall_forall in Hat. apply Hat, list_elem_of_bind.
    exists (t, e). split; [done|]. by apply elem_of_map_to_list.
Qed.

Global Instance pool_ok_dec w : Decision (pool_ok w).
Proof. unfold pool_ok, doc_wf. apply _. Defined.

Lemma pool_inv_empty d : doc_wf d → pool_inv (Wld ∅ d).
Proof. intros Hwf. split; simpl; [..|done]; by intros *; rewrite lookup_empty. Qed.

(** *** Passes and runs *)

Lemma run_op_sound o w : pool_inv w → pool_inv (state_of (run_op o w)).
Proof.
  intros Hinv. destruct o as [| | |c]; simpl.
  - rewrite prepareElements_run. destruct w. by apply pool_inv_prepare.
  - rewrite cleanupElements_run by done. destruct w. by apply pool_inv_cleanup.
  - rewrite resetElements_run by done. destruct w as [J d]. simpl.
    by apply pool_inv_prepare, pool_inv_cleanup, pool_inv_prepare.
  - rewrite state_of_discard. by apply acquire_sound.
Qed.

Lemma run_sound ops w : pool_inv w → pool_inv (run ops w).
Proof.
  revert w. induction ops as [|o ops IH]; intros w Hinv; [done|].
  simpl. by apply IH, run_op_sound.
Qed.

(** A pass whose acquisitions all return is the run of them. *)
Lemma acquire_all_run cs w w2 :
  acquire_all cs w = Return () w2 → run (Get <$> cs) w = w2.
Proof.
  revert w. induction cs as [|c cs IH]; intros w.
  - by intros [= <-].
  - unfold acquire_all. simpl. fold (acquire_all cs). unfold JS.bind. run.
    destruct (acquire c w) as [n w1|e w1]; [|done]. simpl. run. apply IH.
Qed.

Lemma gets_sound cs w :
  pool_inv w → pool_inv (run (Get <$> cs) w) ∧ extends w (run (Get <$> cs) w).
Proof.
  revert w. induction cs as [|c cs IH]; intros w Hinv.
  - split; [done | apply extends_refl].
  - simpl. rewrite state_of_discard.
    destruct (acquire_sound c w Hinv) as [Hinv1 Hext1].
    destruct (IH _ Hinv1) as [Hinv2 Hext2]. split; [done|]. by eapply extends_trans.
Qed.

Lemma gets_tracked cs w :
  pool_inv w → Forall (λ cl, call_tag cl ≠ "__proto__") cs →
  tracked w (run (Get <$> cs) w).
Proof.
  revert w. induction cs as [|c cs IH]; intros w Hinv Hcs.
  - apply tracked_refl.
  - apply Forall_cons in Hcs as [Hc Hcs]. simpl. rewrite state_of_discard.
    destruct (acquire_sound c w Hinv) as [Hinv1 Hext1].
    destruct (gets_sound cs _ Hinv1) as [_ Hext2].
    eapply tracked_trans; [done|done| |by apply IH].
    apply acquire_tracked; [done | by left].
Qed.

(** Every node created since the pool was new is held by the pool or
    detached. *)
Definition no_leak (base : nat) (w : World) : Prop :=
  ∀ n, base ≤ n → attached (document w) n → pooled (JSONcontainer w) n.

Lemma no_leak_prepare base J d :
  settled J → no_leak base (Wld J d) → no_leak base (Wld (mark_unused <$> J) d).
Proof.
  intros Hs Hl n Hn Ha. apply pooled_mark_unused, (settled_pooled _ _ Hs). by apply Hl.
Qed.

Lemma no_leak_cleanup base J d :
  no_leak base (Wld J d) →
  no_leak base (Wld (clear_redundant <$> J) (detach_all (redundant_nodes J) d)).
Proof.
  intros Hl n Hn Ha. unfold attached in Ha. simpl in *.
  rewrite parentNode_detach_all in Ha.
  case_decide; [by apply is_Some_None in Ha|].
  left. apply used_nodes_clear_redundant. by destruct (Hl n Hn Ha).
Qed.

Lemma no_leak_extends base w w' :
  extends w w' → tracked w w' → no_leak base w → no_leak base w'.
Proof.
  intros Hext Htr Hl n Hn [Ha|[Hu _]]%Htr.
  - by apply (ext_pooled _ _ Hext), Hl.
  - by left.
Qed.

Lemma run_op_no_leak base o w :
  pool_inv w → guard o w → no_leak base w → no_leak base (state_of (run_op o w)).
Proof.
  intros Hinv Hg Hl. destruct o as [| | |c]; simpl in *.
  - rewrite prepareElements_run. destruct w. by apply no_leak_prepare.
  - rewrite cleanupElements_run by done. destruct w. by apply no_leak_cleanup.
  - rewrite resetElements_run by done. destruct w as [J d]. simpl in *.
    apply no_leak_prepare; [apply settled_clear_redundant|].
    by apply no_leak_cleanup, no_leak_prepare.
  - rewrite state_of_discard.
    eapply no_leak_extends; [by apply acquire_sound| |done].
    apply acquire_tracked; [done | by left].
Qed.

Lemma disciplined_cons o ops w :
  disciplined (o :: ops) w = true ↔
  guard o w ∧ disciplined ops (state_of (run_op o w)) = true.
Proof.
  simpl. by rewrite andb_true_iff, bool_decide_eq_true.
Qed.

Lemma run_no_leak base ops w :
  pool_inv w → no_leak base w → disciplined ops w = true → no_leak base (run ops w).
Proof.
  revert w. induction ops as [|o ops IH]; intros w Hinv Hl Hd; [done|].
  apply disciplined_cons in Hd as [Hg Hd]. simpl.
  apply IH; [by apply run_op_sound | by apply run_op_no_leak | done].
Qed.

Lemma no_leak_empty d : doc_wf d → no_leak (length (elements d)) (Wld ∅ d).
Proof. intros Hwf n Hn Ha%doc_wf_attached; [simpl in *; lia | done]. Qed.

(** *** The pool under the page *)

(** The page as it was when the pool was new ([d0], with [base] nodes) is
    untouched, and every pooled node came later and hangs under a container
    that [P] accepts. *)
Definition page_kept (base : nat) (d0 : Document) (P : node → Prop) (w : World) : Prop :=
  base ≤ length (elements (document w)) ∧
  (∀ m, m < base → parentNode (document w) m = parentNode d0 m) ∧
  (∀ n, pooled (JSONcontainer w) n →
        base ≤ n ∧ ∃ c, parentNode (document w) n = Some c ∧ P c).

Lemma page_kept_empty d0 P : page_kept (length (elements d0)) d0 P (Wld ∅ d0).
Proof.
  split_and!; [done|done|]. intros n (t & e & H & _)%pooled_lookup.
  simpl in H. by rewrite lookup_empty in H.
Qed.

Lemma page_kept_prepare base d0 P J d :
  page_kept base d0 P (Wld J d) → page_kept base d0 P (Wld (mark_unused <$> J) d).
Proof.
  intros (H0 & H1 & H2). split_and!; [done|done|].
  intros n Hn%pooled_mark_unused. apply H2. by left.
Qed.

Lemma page_kept_cleanup base d0 P J d :
  pool_inv (Wld J d) → page_kept base d0 P (Wld J d) →
  page_kept base d0 P
    (Wld (clear_redundant <$> J) (detach_all (redundant_nodes J) d)).
Proof.
  intros Hinv (H0 & H1 & H2). simpl in *. split_and!; simpl.
  - by rewrite elements_detach_all.
  - intros m Hm. rewrite parentNode_detach_all, decide_False; [by apply H1|].
    intros Hr. destruct (H2 m) as [? _]; [by right | lia].
  - intros n [Hn|(t & e & H & Hn)%elem_of_redundant_nodes].
    + apply (proj1 (used_nodes_clear_redundant _ _)) in Hn.
      pose proof (used_not_redundant (Wld J d) n Hinv Hn) as Hnr.
      rewrite parentNode_detach_all, decide_False by done.
      apply H2. by left.
    + rewrite lookup_fmap in H. destruct (J !! t); simplify_eq/=.
      by apply elem_of_nil in Hn.
Qed.

Lemma run_op_page_kept base d0 P o w :
  pool_inv w → page_kept base d0 P w →
  (∀ cl, o = Get cl → P (call_container cl)) →
  page_kept base d0 P (state_of (run_op o w)).
Proof.
  intros Hinv Hk HP. destruct o as [| | |cl]; simpl.
  - rewrite prepareElements_run. destruct w. by apply page_kept_prepare.
  - rewrite cleanupElements_run by done. destruct w. by apply page_kept_cleanup.
  - rewrite resetElements_run by done. destruct w as [J d]. simpl.
    apply page_kept_prepare, page_kept_cleanup; [by apply pool_inv_prepare|].
    by apply page_kept_prepare.
  - rewrite state_of_discard. destruct Hk as (H0 & H1 & H2).
    destruct (acquire_parents cl w (inv_doc _ Hinv)) as [Hsame Hnew].
    destruct (acquire_sound cl w Hinv) as [_ Hext].
    split_and!.
    + pose proof (ext_elements _ _ Hext). lia.
    + intros m Hm. rewrite Hsame by lia. by apply H1.
    + intros n [Hn|[-> Hp]]%Hnew.
      * destruct (H2 n Hn) as (Hb & c & Hc & HPc). split; [done|]. exists c.
        split; [|done]. rewrite Hsame; [done|].
        apply doc_wf_attached; [apply (inv_doc _ Hinv)|]. unfold attached. by rewrite Hc.
      * split; [done|]. eauto.
Qed.

Lemma run_page_kept base d0 P ops w :
  pool_inv w → page_kept base d0 P w →
  (∀ cl, Get cl ∈ ops → P (call_container cl)) →
  page_kept base d0 P (run ops w).
Proof.
  revert w. induction ops as [|o ops IH]; intros w Hinv Hk HP; [done|]. simpl.
  apply IH; [by apply run_op_sound| |].
  - apply run_op_page_kept; [done|done|]. intros cl ->. apply HP. left.
  - intros cl Hcl. apply HP. by right.
Qed.

Lemma lookup_parent_elem n p ls : lookup_parent n ls = Some p → (n, p) ∈ ls.
Proof.
  induction ls as [|[c q] ls IH]; simpl; [done|].
  case_decide; [intros [= <-]; subst; left | intros ?%IH; by right].
Qed.

Lemma connected_kept d0 d root c :
  doc_wf d0 →
  (∀ m, m < length (elements d0) → parentNode d m = parentNode d0 m) →
  c < length (elements d0) → connected d0 root c → connected d root c.
Proof.
  intros Hwf Hsame Hc Hcon. induction Hcon as [|n p Hp Hcon IH]; [constructor|].
  apply connected_child with p; [by rewrite Hsame|]. apply IH.
  unfold parentNode in Hp. apply lookup_parent_elem in Hp.
  unfold doc_wf in Hwf. rewrite Forall_forall in Hwf. by destruct (Hwf _ Hp).
Qed.

(** The containers that keep the pool in the tree of the page [d0] under
    [root]: nodes of the page in that tree. *)
Definition in_page (d0 : Document) (root c : node) : Prop :=
  c < length (elements d0) ∧ connected d0 root c.

(** C1, as the code has it: a cycle [prepareElements], acquisitions,
    [cleanupElements] on a pool between passes (every listed node has a
    parent and is listed once, no [redundant] list holds a node), with no
    element asked for under the name ["__proto__"].  Afterwards a node of
    the pool (held before the cycle or created in it) has a parent exactly
    when it is in a [used] list of the cycle; every node held before and not
    acquired again was removed from its parent once more, the acquired ones
    not at all.  The nodes in the [used] lists are in the tree of the page
    under [root] when the pool hangs under nodes of the page in that tree
    and the cycle is given such containers. *)
Theorem pool_cycle w cs :
  pool_inv w → settled (JSONcontainer w) →
  Forall (λ cl, call_tag cl ≠ "__proto__") cs →
  let w2 := run (Prepare :: (Get <$> cs)) w in
  ∃ w3, cleanupElements w2 = Return () w3 ∧
    JSONcontainer w3 = clear_redundant <$> JSONcontainer w2 ∧
    (∀ n, n ∈ used_nodes (JSONcontainer w3) ↔ n ∈ used_nodes (JSONcontainer w2)) ∧
    (∀ n, pooled (JSONcontainer w) n ∨ length (elements (document w)) ≤ n →
          (attached (document w3) n ↔ n ∈ used_nodes (JSONcontainer w2))) ∧
    (∀ n, pooled (JSONcontainer w) n → n ∉ used_nodes (JSONcontainer w2) →
          removals (document w3) n = S (removals (document w) n)) ∧
    (∀ n, n ∈ used_nodes (JSONcontainer w2) →
          removals (document w3) n = removals (document w) n) ∧
    (∀ d0 root,
       doc_wf d0 →
       page_kept (length (elements d0)) d0 (in_page d0 root) w →
       Forall (λ cl, in_page d0 root (call_container cl)) cs →
       ∀ n, n ∈ used_nodes (JSONcontainer w2) → connected (document w3) root n).
Proof.
  intros Hinv Hs Hcs w2. destruct w as [J d].
  assert (∀ base d0 P,
            page_kept base d0 P (Wld J d) →
            Forall (λ cl, P (call_container cl)) cs → page_kept base d0 P w2) as Hpk.
  { intros base d0 P Hk HP. apply run_page_kept; [done|done|].
    intros cl [?|Hcl]%elem_of_cons; [done|].
    apply list_elem_of_fmap in Hcl as (cl' & [= <-] & Hcl).
    rewrite Forall_forall in HP. by apply HP. }
  assert (w2 = run (Get <$> cs) (Wld (mark_unused <$> J) d)) as Hw2.
  { unfold w2. simpl. by rewrite prepareElements_run. }
  apply pool_inv_prepare in Hinv as Hinv1.
  destruct (gets_sound cs _ Hinv1) as [Hinv2 Hext].
  pose proof (gets_tracked cs _ Hinv1 Hcs) as Htr.
  rewrite <-Hw2 in Hinv2, Hext, Htr. clear Hw2. clearbody w2.
  destruct w2 as [J2 d2]. simpl in *.
  eexists. split; [by apply cleanupElements_run|]. simpl.
  pose proof (NoDup_redundant_nodes _ Hinv2) as Hnd. simpl in Hnd.
  assert (∀ n, pooled J n → n ∉ used_nodes J2 → n ∈ redundant_nodes J2) as Hred.
  { intros n Hn Hnu. apply (settled_pooled J n Hs) in Hn.
    assert (pooled (mark_unused <$> J) n) as Hp
      by by apply (proj2 (pooled_mark_unused J n)).
    by destruct (ext_pooled _ _ Hext n Hp). }
  split_and!.
  - done.
  - apply used_nodes_clear_redundant.
  - intros n Hn. unfold attached. rewrite parentNode_detach_all. split.
    + case_decide as Hr; [by intros ?%is_Some_None|]. intros Ha.
      destruct (Htr n Ha) as [Ha1|[? ?]]; [|done]. simpl in Ha1.
      destruct Hn as [Hn|Hn].
      * destruct (decide (n ∈ used_nodes J2)); [done|]. destruct Hr. by apply Hred.
      * apply doc_wf_attached in Ha1; [lia|]. apply (inv_doc _ Hinv1).
    + intros Hu. rewrite decide_False by by apply (used_not_redundant _ _ Hinv2).
      destruct (proj1 (elem_of_used_nodes _ _) Hu) as (t & e & H & Hin).
      apply (inv_attached _ Hinv2 t e); [done|]. apply elem_of_app. by left.
  - intros n Hn Hnu. rewrite removals_detach_all by done.
    rewrite decide_True by by apply Hred.
    pose proof (ext_removed _ _ Hext) as Hrem. simpl in Hrem.
    unfold removals. by rewrite Hrem.
  - intros n Hu. rewrite removals_detach_all by done.
    rewrite decide_False by by apply (used_not_redundant _ _ Hinv2).
    pose proof (ext_removed _ _ Hext) as Hrem. simpl in Hrem.
    unfold removals. by rewrite Hrem.
  - intros d0 root Hwf0 Hk HP n Hn.
    pose proof (page_kept_cleanup _ _ _ _ _ Hinv2 (Hpk _ _ _ Hk HP))
      as (_ & Hsame & Hpool).
    simpl in Hsame, Hpool.
    destruct (Hpool n) as (_ & c & Hc & Hlt & Hcon).
    { left. by apply used_nodes_clear_redundant. }
    apply connected_child with c; [done|]. by apply (connected_kept d0).
Qed.

(** C2, as the code has it: on every pool [prepareElements] turns every
    [used] list into the [redundant] list of its tag and leaves [used]
    empty; what the [redundant] lists held is forgotten.  On a pool whose
    listed nodes have a parent and are listed once, the [cleanupElements]
    that ends the pass returns, empties every [redundant] list and detaches
    the nodes in them and no other, so no node that was in a [used] list
    before the pass and was not acquired in it stays attached. *)
Theorem prepare_marks_cleanup_detaches w :
  (∃ w1, prepareElements w = Return () w1 ∧ document w1 = document w ∧
     ∀ t, JSONcontainer w1 !! t = (λ e, Entry [] (used e)) <$> JSONcontainer w !! t) ∧
  ∀ cs,
    pool_inv w →
    let w2 := run (Prepare :: (Get <$> cs)) w in
    ∃ w3, cleanupElements w2 = Return () w3 ∧
      (∀ t, JSONcontainer w3 !! t
            = (λ e, Entry (used e) []) <$> JSONcontainer w2 !! t) ∧
      (∀ n, n ∈ redundant_nodes (JSONcontainer w2) → ¬ attached (document w3) n) ∧
      (∀ n, n ∉ redundant_nodes (JSONcontainer w2) →
            parentNode (document w3) n = parentNode (document w2) n) ∧
      (∀ n, n ∈ used_nodes (JSONcontainer w) → n ∉ used_nodes (JSONcontainer w2) →
            ¬ attached (document w3) n).
Proof.
  split.
  { eexists. split; [apply prepareElements_run|]. split; [done|].
    intros t. simpl. by rewrite lookup_fmap. }
  intros cs Hinv w2. destruct w as [J d].
  assert (w2 = run (Get <$> cs) (Wld (mark_unused <$> J) d)) as Hw2.
  { unfold w2. simpl. by rewrite prepareElements_run. }
  apply pool_inv_prepare in Hinv as Hinv1.
  destruct (gets_sound cs _ Hinv1) as [Hinv2 Hext].
  rewrite <-Hw2 in Hinv2, Hext. clear Hw2. clearbody w2. simpl in *.
  eexists. split; [by apply cleanupElements_run|]. simpl.
  assert (∀ n, n ∈ redundant_nodes (JSONcontainer w2) →
               ¬ attached (detach_all (redundant_nodes (JSONcontainer w2))
                             (document w2)) n) as Hdet.
  { intros n Hn. unfold attached. rewrite parentNode_detach_all, decide_True by done.
    apply is_Some_None. }
  split_and!.
  - intros t. by rewrite lookup_fmap.
  - done.
  - intros n Hn. by rewrite parentNode_detach_all, decide_False.
  - intros n Hn Hnu. apply Hdet.
    assert (pooled (mark_unused <$> J) n) as Hp
      by by apply (proj2 (pooled_mark_unused J n)).
    by destruct (ext_pooled _ _ Hext n Hp).
Qed.


Definition call_placed (cl : call) (n : node) (d : Document) : error + list (node * node) :=
  match cl with
  | GetSVG _ c => placed c n None d
  | GetDOM _ c r => placed c n r d
  end.

Lemma acquire_run cl J d :
  acquire cl (Wld J d) =
  let t := call_tag cl in
  let ns := call_namespace cl in
  let n := length (elements d) in
  match J !! t with
  | Some e =>
      match redundant e with
      | first :: rest => Return first (Wld (<[t := Entry (used e ++ [first]) rest]> J) d)
      | [] =>
          match name_error ns t with
          | Some err => Throw err (Wld J d)
          | None =>
              match call_placed cl n (create ns t d) with
              | inr ls =>
                  Return n (Wld (<[t := Entry (used e ++ [n]) []]> J)
                                (with_links (create ns t d) ls))
              | inl err => Throw err (Wld J (create ns t d))
              end
          end
      end
  | None =>
      match name_error ns t with
      | Some err => Throw err (Wld J d)
      | None =>
          match call_placed cl n (create ns t d) with
          | inr ls =>
              Return n (Wld (assigned t (Entry [n] []) J) (with_links (create ns t d) ls))
          | inl err => Throw err (Wld (assigned t (Entry [] []) J) (create ns t d))
          end
      end
  end.
Proof.
  destruct cl as [t c|t c r]; simpl.
  - rewrite getSVGElement_scheme.
    apply (getElement_run SVG _ (λ n, placed c n None)), appendChild_inserts.
  - rewrite getDOMElement_scheme.
    apply (getElement_run HTML _ (λ n, placed c n r)), place_inserts.
Qed.




(** C4, as the code has it: from an empty pool, after any operations, every
    node in a [used] or [redundant] list has a parent; a node in a
    [redundant] list is returned by an acquisition for its tag once it heads
    the list, and is detached by [cleanupElements] if it is still there.
    When [prepareElements] and [resetElements] are only called on a pool
    with empty [redundant] lists and no element is asked for under the name
    ["__proto__"], every node created since is in a list or detached.  When
    every container handed to an acquisition is a node of the starting page
    in the tree under [root], every node in a list is in that tree too. *)
Theorem pool_invariant (d0 : Document) (ops : list op) :
  doc_wf d0 →
  let w := run ops (Wld ∅ d0) in
  (∀ n, pooled (JSONcontainer w) n → attached (document w) n) ∧
  (∀ cl first rest,
     redundant_at (JSONcontainer w) (call_tag cl) = first :: rest →
     ∃ w', acquire cl w = Return first w' ∧ first ∈ used_nodes (JSONcontainer w')) ∧
  (∃ w', cleanupElements w = Return () w' ∧
     settled (JSONcontainer w') ∧
     ∀ n, n ∈ redundant_nodes (JSONcontainer w) → ¬ attached (document w') n) ∧
  (disciplined ops (Wld ∅ d0) = true →
   ∀ n, length (elements d0) ≤ n → attached (document w) n →
        pooled (JSONcontainer w) n) ∧
  (∀ root,
     (∀ cl, Get cl ∈ ops →
            call_container cl < length (elements d0) ∧
            connected d0 root (call_container cl)) →
     ∀ n, pooled (JSONcontainer w) n → connected (document w) root n).
Proof.
  intros Hwf w.
  assert (pool_inv w) as Hinv by by apply run_sound, pool_inv_empty.
  split_and!.
  - intros n (t & e & H & Hn)%pooled_lookup. by apply (inv_attached _ Hinv t e).
  - intros cl first rest Hr. destruct w as [J d]. simpl in *.
    rewrite acquire_run. cbv zeta. unfold redundant_at in Hr.
    destruct (J !! call_tag cl) as [e|]; [|done]. rewrite Hr.
    eexists. split; [done|].
    simpl. apply used_nodes_insert. left. simpl. apply elem_of_app. right. left.
  - eexists. split; [by apply cleanupElements_run|]. simpl. split.
    + apply settled_clear_redundant.
    + intros n Hn. unfold attached.
      rewrite parentNode_detach_all, decide_True by done. apply is_Some_None.
  - intros Hd. by apply run_no_leak; [apply pool_inv_empty|apply no_leak_empty|].
  - intros root Hcs n Hn.
    destruct (run_page_kept (length (elements d0)) d0
                (λ c, c < length (elements d0) ∧ connected d0 root c)
                ops (Wld ∅ d0)) as (_ & Hsame & Hpool);
      [by apply pool_inv_empty | apply page_kept_empty | done |].
    destruct (Hpool n Hn) as (_ & c & Hc & Hlt & Hcon).
    apply connected_child with c; [done|]. by apply (connected_kept d0).
Qed.


(** *** A page to run on: one [svg] root, node 0 *)

Definition page : Document := Doc [Element SVG "svg"] [] ∅ [].

(** A pool between passes holding two rects and a circle. *)
Definition drawn : World :=
  run [Get (GetSVG "rect" 0); Get (GetSVG "rect" 0); Get (GetSVG "circle" 0)]
      (Wld ∅ page).

Global Instance doc_wf_dec d : Decision (doc_wf d).
Proof. unfold doc_wf. apply _. Defined.

Global Instance attached_dec d n : Decision (attached d n).
Proof. unfold attached. apply _. Defined.

Ltac by_computation := apply (bool_decide_unpack _); vm_compute; exact I.

Lemma pool_ok_drawn : pool_ok drawn.
Proof. by_computation. Qed.

Definition redrawn : World :=
  state_of ((prepareElements;; acquire_all [GetSVG "rect" 0]) drawn).

Lemma no_proto_rect : Forall (λ cl, call_tag cl ≠ "__proto__") [GetSVG "rect" 0].
Proof. by_computation. Qed.

Lemma page_kept_drawn : page_kept 1 page (in_page page 0) drawn.
Proof.
  apply (run_page_kept (length (elements page)) page);
    [apply pool_inv_empty; by_computation | apply page_kept_empty |].
  intros cl Hcl.
  repeat (apply elem_of_cons in Hcl as [Hcl|Hcl];
          [injection Hcl as ->; split; [simpl; lia | constructor]|]).
  apply elem_of_nil in Hcl. destruct Hcl.
Qed.

Lemma pool_cycle_witness :
  let cs := [GetSVG "rect" 0] in
  let w2 := run (Prepare :: (Get <$> cs)) drawn in
  pool_inv drawn ∧ settled (JSONcontainer drawn) ∧
  Forall (λ cl, call_tag cl ≠ "__proto__") cs ∧
  ∃ w3,
    cleanupElements w2 = Return () w3 ∧
    (attached (document w3) 1 ↔ 1 ∈ used_nodes (JSONcontainer w2)) ∧
    removals (document w3) 2 = S (removals (document drawn) 2) ∧
    connected (document w3) 0 1.
Proof.
  intros cs w2.
  assert (pool_inv drawn) as Hinv by apply pool_ok_inv, pool_ok_drawn.
  assert (settled (JSONcontainer drawn)) as Hs by by_computation.
  split; [done|]. split; [done|]. split; [apply no_proto_rect|].
  pose proof (pool_cycle drawn cs Hinv Hs no_proto_rect) as H. cbv zeta in H.
  destruct H as (w3 & Hc & _ & _ & Hatt & Hrem & _ & Htree).
  exists w3. split; [done|]. split_and!.
  - apply Hatt. left. left. by_computation.
  - apply Hrem.
    + left. by_computation.
    + by_computation.
  - apply (Htree page 0).
    + by_computation.
    + apply page_kept_drawn.
    + repeat constructor.
    + by_computation.
Defined.

(** A pool in the middle of a pass: rect 1 acquired again, rect 2 waiting
    in the [redundant] list. *)
Definition unsettled : World :=
  run [Get (GetSVG "rect" 0); Get (GetSVG "rect" 0); Prepare; Get (GetSVG "rect" 0)]
      (Wld ∅ page).

(** A pool holding a group and a rect drawn inside it. *)
Definition nested : World :=
  run [Get (GetSVG "g" 0); Get (GetSVG "rect" 1)] (Wld ∅ page).

(** A pool that lists rect 1, which the page has taken out of the tree. *)
Definition stale : World :=
  Wld {["rect" := Entry [1] []]} (Doc [Element SVG "svg"; Element SVG "rect"] [] ∅ []).

Lemma not_connected_detached d root n p :
  parentNode d n = Some p → parentNode d p = None → n ≠ root → p ≠ root →
  ¬ connected d root n.
Proof.
  intros Hn Hp Hnr Hpr Hc. inversion Hc as [|? q Hq Hcq]; [done|].
  assert (q = p) as -> by congruence.
  inversion Hcq as [|? q' Hq' _]; [done | congruence].
Qed.

(** What C1 says of every cycle fails in four ways.  On a pool with a node
    waiting in a [redundant] list, [prepareElements] forgets that node: the
    cycle leaves it attached, in no list and not removed.  An element asked
    for under the name ["__proto__"] is attached and in no list of the
    container, and the next cycle neither returns nor removes it.  A node in
    a [used] list has a parent, but is out of the tree when its container was
    a node of the pool that the cycle removed.  On a pool that lists a node
    without a parent the cycle does not end: [cleanupElements] throws. *)
Lemma cycle_leaks :
  let w3 := run [Prepare; Cleanup] unsettled in
  let v := run [Prepare; Get (GetSVG "__proto__" 0); Cleanup] (Wld ∅ page) in
  let v' := run [Prepare; Get (GetSVG "__proto__" 0); Cleanup] v in
  let u3 := run [Prepare; Get (GetSVG "rect" 1); Cleanup] nested in
  (pool_ok unsettled ∧
   JSONcontainer unsettled !! "rect" = Some (Entry [1] [2]) ∧
   (prepareElements;; acquire_all [];; cleanupElements) unsettled = Return () w3 ∧
   attached (document w3) 2 ∧ ¬ pooled (JSONcontainer w3) 2 ∧
   removals (document w3) 2 = 0) ∧
  ((prepareElements;; acquire_all [GetSVG "__proto__" 0];; cleanupElements)
     (Wld ∅ page) = Return () v ∧
   attached (document v) 1 ∧ used_nodes (JSONcontainer v) = [] ∧
   (prepareElements;; acquire_all [GetSVG "__proto__" 0];; cleanupElements) v
   = Return () v' ∧
   length (elements (document v')) = 3 ∧
   attached (document v') 1 ∧ removals (document v') 1 = 0) ∧
  (pool_ok nested ∧ settled (JSONcontainer nested) ∧
   (prepareElements;; acquire_all [GetSVG "rect" 1];; cleanupElements) nested
   = Return () u3 ∧
   2 ∈ used_nodes (JSONcontainer u3) ∧ attached (document u3) 2 ∧
   ¬ connected (document u3) 0 2) ∧
  (settled (JSONcontainer stale) ∧
   ∃ s, (prepareElements;; acquire_all [];; cleanupElements) stale = Throw TypeError s).
Proof.
  intros w3 v v' u3. split_and!; [..|by_computation|eexists; vm_compute; reflexivity].
  - by_computation.
  - vm_compute. reflexivity.
  - vm_compute. reflexivity.
  - by_computation.
  - intros [H|H]; revert H; by_computation.
  - vm_compute. reflexivity.
  - vm_compute. reflexivity.
  - by_computation.
  - vm_compute. reflexivity.
  - vm_compute. reflexivity.
  - vm_compute. reflexivity.
  - by_computation.
  - vm_compute. reflexivity.
  - by_computation.
  - by_computation.
  - vm_compute. reflexivity.
  - by_computation.
  - by_computation.
  - apply (not_connected_detached _ _ _ 1); [vm_compute; reflexivity..|lia|lia].
Qed.

Lemma prepare_marks_cleanup_detaches_witness :
  let w2 := run (Prepare :: (Get <$> [GetSVG "rect" 0])) drawn in
  pool_inv drawn ∧
  ∃ w3, cleanupElements w2 = Return () w3 ∧
    ¬ attached (document w3) 2 ∧ ¬ attached (document w3) 3 ∧
    parentNode (document w3) 1 = Some 0.
Proof.
  intros w2.
  assert (pool_inv drawn) as Hinv by apply pool_ok_inv, pool_ok_drawn.
  split; [done|].
  destruct (prepare_marks_cleanup_detaches drawn) as [_ Hpass].
  pose proof (Hpass [GetSVG "rect" 0] Hinv) as H. cbv zeta in H.
  destruct H as (w3 & Hc & _ & Hred & Hkeep & Hunused).
  exists w3. split; [done|]. split_and!.
  - apply Hred. by_computation.
  - apply Hunused; by_computation.
  - rewrite Hkeep; [vm_compute; reflexivity | by_computation].
Defined.

(** What C2 says of every pool state and of every pooled node fails: a node
    in a [redundant] list when [prepareElements] is called is dropped from
    the lists, goes unused and stays attached after [cleanupElements]; and
    [cleanupElements] throws on a listed node that has no parent. *)
Lemma prepare_forgets_redundant :
  let w1 := state_of (prepareElements unsettled) in
  let w3 := state_of (cleanupElements w1) in
  (pool_ok unsettled ∧
   redundant_at (JSONcontainer unsettled) "rect" = [2] ∧
   attached (document unsettled) 2 ∧
   prepareElements unsettled = Return () w1 ∧ ¬ pooled (JSONcontainer w1) 2 ∧
   cleanupElements w1 = Return () w3 ∧ attached (document w3) 2) ∧
  (used_at (JSONcontainer stale) "rect" = [1] ∧
   ∃ s1 s2, prepareElements stale = Return () s1 ∧
            cleanupElements s1 = Throw TypeError s2).
Proof.
  intros w1 w3. split_and!.
  - by_computation.
  - vm_compute. reflexivity.
  - by_computation.
  - vm_compute. reflexivity.
  - intros [H|H]; revert H; by_computation.
  - vm_compute. reflexivity.
  - by_computation.
  - vm_compute. reflexivity.
  - eexists _, _. split; vm_compute; reflexivity.
Qed.



(** What C4 says of every sequence fails in three ways.  After two
    [prepareElements] in a row the rect acquired first is dropped from the
    lists while attached; no later [cleanupElements] detaches it and the
    next acquisition of a rect creates another one.  An element asked for
    under the name ["__proto__"] is attached and in no list, also when the
    passes are kept.  A node in a [used] list has a parent but is out of the
    tree of the page when it was put into a node of the pool that a
    [cleanupElements] removed. *)
Lemma pool_leaks :
  let w := run [Get (GetSVG "rect" 0); Prepare; Prepare] (Wld ∅ page) in
  let v := run [Get (GetSVG "__proto__" 0); Prepare; Get (GetSVG "__proto__" 0);
                Cleanup] (Wld ∅ page) in
  let nest := [Get (GetSVG "g" 0); Get (GetSVG "rect" 1); Prepare;
               Get (GetSVG "rect" 1); Cleanup] in
  let u := run nest (Wld ∅ page) in
  (doc_wf page ∧
   1 ∈ redundant_nodes
         (JSONcontainer (run [Get (GetSVG "rect" 0); Prepare] (Wld ∅ page))) ∧
   length (elements page) ≤ 1 ∧
   attached (document w) 1 ∧
   ¬ pooled (JSONcontainer w) 1 ∧
   attached (document (state_of (cleanupElements w))) 1 ∧
   (∃ w', getSVGElement "rect" 0 w = Return 2 w')) ∧
  (settled (JSONcontainer (run [Get (GetSVG "__proto__" 0)] (Wld ∅ page))) ∧
   length (elements (document v)) = 3 ∧
   attached (document v) 1 ∧ ¬ pooled (JSONcontainer v) 1 ∧
   attached (document v) 2 ∧ ¬ pooled (JSONcontainer v) 2) ∧
  (disciplined nest (Wld ∅ page) = true ∧
   2 ∈ used_nodes (JSONcontainer u) ∧ attached (document u) 2 ∧
   ¬ connected (document u) 0 2).
Proof.
  intros w v nest u. split_and!.
  - by_computation.
  - by_computation.
  - vm_compute. lia.
  - by_computation.
  - intros [H|H]; revert H; by_computation.
  - by_computation.
  - eexists. vm_compute. reflexivity.
  - by_computation.
  - vm_compute. reflexivity.
  - by_computation.
  - intros [H|H]; revert H; by_computation.
  - by_computation.
  - intros [H|H]; revert H; by_computation.
  - vm_compute. reflexivity.
  - by_computation.
  - by_computation.
  - apply (not_connected_detached _ _ _ 1); [vm_compute; reflexivity..|lia|lia].
Qed.

Lemma pool_invariant_witness :
  let ops := [Get (GetSVG "rect" 0); Prepare; Get (GetDOM "div" 0 (Some (RefNode 1)));
              Cleanup; Reset; Get (GetSVG "rect" 0)] in
  let w := run ops (Wld ∅ page) in
  doc_wf page ∧ disciplined ops (Wld ∅ page) = true ∧
  (∀ n, pooled (JSONcontainer w) n → attached (document w) n) ∧
  (∀ n, 1 ≤ n → attached (document w) n → pooled (JSONcontainer w) n) ∧
  (∀ n, pooled (JSONcontainer w) n → connected (document w) 0 n).
Proof.
  intros ops w.
  assert (doc_wf page) as Hwf by by_computation.
  assert (disciplined ops (Wld ∅ page) = true) as Hd by (vm_compute; reflexivity).
  destruct (pool_invariant page ops Hwf) as (Hatt & _ & _ & Hleak & Hlive).
  split; [done|]. split; [done|]. split; [exact Hatt|]. split; [exact (Hleak Hd)|].
  apply Hlive. intros cl Hcl. unfold ops in Hcl.
  repeat (apply elem_of_cons in Hcl as [Hcl|Hcl]; [try discriminate Hcl|]);
    try (injection Hcl as ->; simpl; split; [lia | constructor]).
  apply elem_of_nil in Hcl. destruct Hcl.
Defined.

End PoolFacts.

Import PoolFacts.

(** ** [drawBar] *)

Module DrawBarFacts.

(** The attributes [drawBar] writes on the rect, once the sign of the
    height is settled. *)
Definition bar_attributes (x y width height : Q) (className : string) (style : value)
    (rect : node) (a : gmap (node * string) value) : gmap (node * string) value :=
  let a := <[(rect, "x") := Num (x - 0.5 * width)%Q]> a in
  let a := <[(rect, "y") := Num y]> a in
  let a := <[(rect, "width") := Num width]> a in
  let a := <[(rect, "height") := Num height]> a in
  let a := <[(rect, "class") := Str className]> a in
  if truthy style then <[(rect, "style") := style]> a else a.

Definition with_attributes (d : Document) (a : gmap (node * string) value) : Document :=
  Doc (elements d) (links d) a (removed d).

(** Drawing a bar of a height known not to be negative or zero. *)
Definition draw_rect (x y width height : Q) (className : string)
    (svgContainer : node) (style : value) (w : World) : outcome World unit :=
  match getSVGElement "rect" svgContainer w with
  | Return rect w1 =>
      Return () (Wld (JSONcontainer w1)
                     (with_attributes (document w1)
                        (bar_attributes x y width height className style rect
                           (attributes (document w1)))))
  | Throw e w1 => Throw e w1
  end.

Lemma drawBar_run x y width height className c style w :
  drawBar x y width height className c style w =
  if Qeq_bool height 0 then Return () w
  else if Qltb height 0
       then draw_rect x (y - height * -1) width (height * -1) className c style w
       else draw_rect x y width height className c style w.
Proof.
  unfold drawBar, draw_rect. destruct (Qeq_bool height 0); unfold negb; cbv iota;
    [reflexivity|].
  destruct (Qltb height 0); cbv zeta iota; run;
    (destruct (getSVGElement "rect" c w) as [rect [J d]|e w1]; [|done]);
    unfold in_document, setAttributeNS, zoom; simpl; run; simpl;
    unfold bar_attributes; by destruct (truthy style).
Qed.

Lemma Qltb_lt a b : Qltb a b = true ↔ (a < b)%Q.
Proof. unfold Qltb, Qlt. apply Z.ltb_lt. Qed.

Lemma Qflip_abs h : (h < 0)%Q → (h * -1)%Q = Qabs h.
Proof.
  destruct h as [n p]. unfold Qlt, Qmult, Qabs. simpl. intros H.
  f_equal; [|apply Pos.mul_1_r]. destruct n; simpl in *; lia.
Qed.

Lemma Qabs_flipped h :
  (h < 0)%Q → Qeq_bool (Qabs h) 0 = false ∧ Qltb (Qabs h) 0 = false.
Proof.
  intros H. split.
  - apply not_true_is_false. intros E%Qeq_bool_iff. revert H E.
    destruct h as [n p]. unfold Qlt, Qeq, Qabs. simpl. lia.
  - revert H. destruct h as [n p]. unfold Qlt, Qltb, Qabs. simpl. intros H.
    apply Z.ltb_ge. lia.
Qed.

Lemma bar_attributes_lookup x y width height className style rect a :
  bar_attributes x y width height className style rect a !! (rect, "height")
    = Some (Num height) ∧
  bar_attributes x y width height className style rect a !! (rect, "y") = Some (Num y) ∧
  bar_attributes x y width height className style rect a !! (rect, "x")
    = Some (Num (x - 0.5 * width)%Q) ∧
  bar_attributes x y width height className style rect a !! (rect, "width")
    = Some (Num width) ∧
  bar_attributes x y width height className style rect a !! (rect, "class")
    = Some (Str className).
Proof.
  unfold bar_attributes. cbv zeta.
  destruct (truthy style); split_and!; by simplify_map_eq.
Qed.

(** C8: with a height equal to zero [drawBar] leaves pool and document as
    they are; with a negative height it draws the bar of height [|height|]
    at [y - |height|]: it does what the call with those two values does,
    and the rect it acquires carries them as its [height] and [y]. *)
Theorem drawBar_zero_and_negative x y width height className svgContainer style w :
  ((height == 0)%Q →
     drawBar x y width height className svgContainer style w = Return () w) ∧
  ((height < 0)%Q →
     drawBar x y width height className svgContainer style w
     = drawBar x (y - Qabs height) width (Qabs height) className svgContainer style w ∧
     ∀ w', drawBar x y width height className svgContainer style w = Return () w' →
       ∃ rect w1,
         getSVGElement "rect" svgContainer w = Return rect w1 ∧
         JSONcontainer w' = JSONcontainer w1 ∧
         getAttribute (document w') rect "height" = Some (Num (Qabs height)) ∧
         getAttribute (document w') rect "y" = Some (Num (y - Qabs height)%Q) ∧
         getAttribute (document w') rect "x" = Some (Num (x - 0.5 * width)%Q) ∧
         getAttribute (document w') rect "width" = Some (Num width)).
Proof.
  split.
  - intros H%Qeq_bool_iff. by rewrite drawBar_run, H.
  - intros Hneg. pose proof (Qabs_flipped height Hneg) as [Hz Hl].
    assert (Qeq_bool height 0 = false) as Hz'.
    { apply not_true_is_false. intros E%Qeq_bool_iff. rewrite E in Hneg.
      by apply Qlt_irrefl in Hneg. }
    rewrite !drawBar_run, Hz, Hl, Hz', (proj2 (Qltb_lt _ _) Hneg).
    rewrite (Qflip_abs _ Hneg). split; [done|].
    intros w'. unfold draw_rect.
    destruct (getSVGElement "rect" svgContainer w) as [rect w1|e w1]; [|done].
    intros [= <-]. exists rect, w1. split; [done|]. split; [done|].
    unfold getAttribute. simpl.
    pose proof (bar_attributes_lookup x (y - Qabs height) width (Qabs height)
                  className style rect (attributes (document w1))) as (? & ? & ? & ? & _).
    by split_and!.
Qed.

Lemma drawBar_zero_and_negative_witness :
  ((0 # 3) == 0)%Q ∧
  drawBar 10 20 4 (0 # 3) "bar" 0 Undefined drawn = Return () drawn ∧
  (-5 < 0)%Q ∧
  ∃ w', drawBar 10 20 4 (-5) "bar" 0 Undefined drawn = Return () w' ∧
    getAttribute (document w') 4 "height" = Some (Num 5) ∧
    getAttribute (document w') 4 "y" = Some (Num (20 - 5)%Q).
Proof.
  assert ((0 # 3) == 0)%Q as Hz by reflexivity.
  assert (-5 < 0)%Q as Hn by reflexivity.
  destruct (drawBar_zero_and_negative 10 20 4 (0 # 3) "bar" 0 Undefined drawn) as [H0 _].
  destruct (drawBar_zero_and_negative 10 20 4 (-5) "bar" 0 Undefined drawn) as [_ H1].
  destruct (H1 Hn) as [_ Hdraw].
  split; [done|]. split; [exact (H0 Hz)|]. split; [done|].
  assert (∃ w', drawBar 10 20 4 (-5) "bar" 0 Undefined drawn = Return () w') as [w' Hw']
    by (eexists; vm_compute; reflexivity).
  exists w'. split; [done|].
  destruct (Hdraw w' Hw') as (rect & w1 & Hget & _ & Hh & Hy & _).
  assert (rect = 4) as -> by (vm_compute in Hget; congruence).
  split; [exact Hh | exact Hy].
Defined.

End DrawBarFacts.

(** ** [getNavigatorLanguage] *)

Module LocaleFacts.

(** C5: [getNavigatorLanguage] returns a value whatever [navigator] is and
    whatever its properties do when read; without a [navigator] (not
    declared, or falsy) and whenever the [try] block raises an exception,
    that value is ['en']. *)
Theorem getNavigatorLanguage_never_throws (navigator : binding) :
  (∃ v, getNavigatorLanguage navigator () = Return v ()) ∧
  ((navigator = Undeclared ∨ navigator = Falsy) →
     getNavigatorLanguage navigator () = Return (Str "en") ()) ∧
  (∀ e, getNavigatorLanguage_try navigator () = Throw e () →
     getNavigatorLanguage navigator () = Return (Str "en") ()).
Proof.
  split_and!.
  - unfold getNavigatorLanguage. rewrite try_catch_run.
    destruct (getNavigatorLanguage_try navigator ()) as [v []|e []]; eauto.
  - by intros [-> | ->].
  - intros e H. unfold getNavigatorLanguage. by rewrite try_catch_run, H.
Qed.

(** A browser whose [languages] getter throws on its second read. *)
Definition flaky : Navigator :=
  {| languages := λ k, if decide (k = 0) then Gives (Arr [Str "nl"])
                       else Raises (Thrown "languages");
     length_of := λ _, Gives Undefined;
     userLanguage := Gives Undefined;
     language := Gives (Str "nl");
     browserLanguage := Gives Undefined |}.

Lemma getNavigatorLanguage_never_throws_witness :
  getNavigatorLanguage Undeclared () = Return (Str "en") () ∧
  getNavigatorLanguage_try (Object flaky) () = Throw (Thrown "languages") () ∧
  getNavigatorLanguage (Object flaky) () = Return (Str "en") ().
Proof.
  split; [|split].
  - apply (getNavigatorLanguage_never_throws Undeclared). by left.
  - reflexivity.
  - by apply (getNavigatorLanguage_never_throws (Object flaky)) with (Thrown "languages").
Defined.

End LocaleFacts.

(** ** [Graph2d] *)

Module Graph2dFacts.

Import Graph2d.

Section SetOptions.

Context {W : Type}.
Variable validate : value → M (Page W) value.
Variable printStyle : string.
Variable Core_setOptions : value → M (Page W) unit.

Let setOptions := setOptions validate printStyle Core_setOptions.

(** C6, as the code has it: when the validator returns, [setOptions] hands
    the options to [Core.prototype.setOptions] whatever the answer was,
    after one more console line when the answer was [true]; so it ends as
    the Core call ends, and throws only if that call throws.  When the
    validator throws, [setOptions] throws the same and the Core call is not
    made. *)
Theorem setOptions_after_validation (options : value) (p : Page W) :
  (∀ errorFound p1,
     validate options p = Return errorFound p1 →
     let p2 := if is_true errorFound
               then {| console := console p1 ++ [errors_found printStyle];
                       widget := widget p1 |}
               else p1 in
     setOptions options p = Core_setOptions options p2 ∧
     (returned (Core_setOptions options p2) → returned (setOptions options p)) ∧
     (is_true errorFound = true →
        console p2 = console p1 ++
          [[Str "%cErrors have been found in the supplied options object.";
            Str printStyle]])) ∧
  (∀ e p1, validate options p = Throw e p1 → setOptions options p = Throw e p1).
Proof.
  split.
  - intros errorFound p1 Hv p2.
    assert (setOptions options p = Core_setOptions options p2) as Heq.
    { unfold setOptions, Graph2d.setOptions, p2. run. rewrite Hv. simpl.
      destruct (is_true errorFound); by run. }
    split_and!; [done|by rewrite Heq|].
    unfold p2. by intros ->.
  - intros e p1 Hv. unfold setOptions, Graph2d.setOptions. run. by rewrite Hv.
Qed.

End SetOptions.

(** A validator that objects to the options [Obj 0] and throws on [Obj 2],
    on a page where [Core.prototype.setOptions] leaves a line on the
    console. *)
Definition strict_validator : value → M (Page unit) value :=
  λ o, match o with
       | Obj 0 => mret (Bool true)
       | Obj 2 => throw TypeError
       | _ => mret (Bool false)
       end.

Definition Core_logs : value → M (Page unit) unit :=
  λ o, console_log [Str "Core.setOptions"; o].

Definition blank : Page unit := {| console := []; widget := () |}.

Lemma setOptions_after_validation_witness :
  setOptions strict_validator "color: red" Core_logs (Obj 0) blank
  = Return () {| console := [errors_found "color: red"; [Str "Core.setOptions"; Obj 0]];
                 widget := () |} ∧
  setOptions strict_validator "color: red" Core_logs (Obj 1) blank
  = Return () {| console := [[Str "Core.setOptions"; Obj 1]]; widget := () |}.
Proof.
  split.
  - destruct (setOptions_after_validation strict_validator "color: red" Core_logs
                (Obj 0) blank) as [Hret _].
    by destruct (Hret (Bool true) blank eq_refl) as [-> _].
  - destruct (setOptions_after_validation strict_validator "color: red" Core_logs
                (Obj 1) blank) as [Hret _].
    by destruct (Hret (Bool false) blank eq_refl) as [-> _].
Defined.

(** What C6 says of every options object fails when the validator throws:
    the call is in no [try], so [setOptions] throws what the validator
    threw, and [Core.prototype.setOptions] is not reached. *)
Lemma setOptions_throws_with_validator :
  strict_validator (Obj 2) blank = Throw TypeError blank ∧
  setOptions strict_validator "color: red" Core_logs (Obj 2) blank
  = Throw TypeError blank ∧
  Core_logs (Obj 2) blank
  = Return () {| console := [[Str "Core.setOptions"; Obj 2]]; widget := () |}.
Proof. split_and!; reflexivity. Qed.

Section GetLegend.

Context {S G L : Type}.
Variable GraphGroup_getLegend : G → value → value → M S L.

Let getLegend := getLegend GraphGroup_getLegend.



End GetLegend.

Section Constructor.

Variable isDataViewLike : value → bool.
Variable property : value → string → value.
Variable inherits_Object : value → bool.

Let Graph2d := Graph2d isDataViewLike property inherits_Object.

(** C9, as the code has it: when the third argument is an instance of
    [Object], no array and not like a DataView, the constructor takes it for
    the options and the fourth argument for the groups: it calls
    [setOptions] with the third, and [setGroups] with the fourth if there is
    one.  An object that is no instance of [Object] stays the groups. *)
Theorem Graph2d_swaps_arguments (container items third fourth : value) :
  isArray third = false → isDataViewLike third = false →
  (instanceofObject inherits_Object third = true →
     arguments isDataViewLike inherits_Object third fourth = (fourth, third) ∧
     Graph2d container items third fourth =
       (if truthy (property third "throttleRedraw")
        then [Warn throttleRedraw_warning] else []) ++
       [Create container; SetOptions third] ++
       (if truthy fourth then [SetGroups fourth] else []) ++
       (if truthy items then [SetItems items] else []) ++
       [Redraw]) ∧
  (instanceofObject inherits_Object third = false →
     arguments isDataViewLike inherits_Object third fourth = (third, fourth)).
Proof.
  intros Harr Hdv. split; intros Hobj.
  - assert (arguments isDataViewLike inherits_Object third fourth = (fourth, third))
      as Hargs.
    { unfold arguments. by rewrite Harr, Hdv, Hobj. }
    split; [done|]. unfold Graph2d, Graph2d.Graph2d. rewrite Hargs.
    assert (truthy third = true) as -> by (by destruct third).
    done.
  - unfold arguments. by rewrite Harr, Hdv, Hobj.
Qed.

End Constructor.

(** The objects 1, 2 and 3 come from object literals; object 9 was made with
    [Object.create(null)]. *)
Definition literal (v : value) : bool :=
  match v with Obj 9 => false | _ => true end.

Lemma Graph2d_swaps_arguments_witness :
  let isDataViewLike := λ v, match v with Obj 7 => true | _ => false end in
  let property := λ (_ : value) (_ : string), Undefined in
  Graph2d isDataViewLike property literal (Obj 1) (Arr []) (Obj 2) (Arr [Obj 3])
  = [Create (Obj 1); SetOptions (Obj 2); SetGroups (Arr [Obj 3]); SetItems (Arr []);
     Redraw].
Proof.
  intros isDataViewLike property.
  destruct (Graph2d_swaps_arguments isDataViewLike property literal (Obj 1) (Arr [])
              (Obj 2) (Arr [Obj 3]) eq_refl eq_refl) as [Hswap _].
  destruct (Hswap eq_refl) as [_ H].
  rewrite H. reflexivity.
Defined.

(** What C9 says of every object fails for one without [Object.prototype] in
    its chain: it is an object, no array and not like a DataView, and the
    constructor leaves the arguments as they are; it calls [setGroups] with
    the third and [setOptions] with the fourth. *)
Lemma Graph2d_keeps_bare_object :
  let isDataViewLike := λ v, match v with Obj 7 => true | _ => false end in
  let property := λ (_ : value) (_ : string), Undefined in
  isArray (Obj 9) = false ∧ isDataViewLike (Obj 9) = false ∧
  arguments isDataViewLike literal (Obj 9) (Arr [Obj 3]) = (Obj 9, Arr [Obj 3]) ∧
  Graph2d isDataViewLike property literal (Obj 1) (Arr []) (Obj 9) (Arr [Obj 3])
  = [Create (Obj 1); SetOptions (Arr [Obj 3]); SetGroups (Obj 9); SetItems (Arr []);
     Redraw] ∧
  Graph2d isDataViewLike property literal (Obj 1) (Arr []) (Obj 9) Undefined
  = [Create (Obj 1); SetGroups (Obj 9); SetItems (Arr []); Redraw].
Proof. intros isDataViewLike property. split_and!; reflexivity. Qed.



Section Changed.

Variable getItemRange : M Shared (option range).
Variable setWindow : value → value → M Shared unit.
Variable fit : M Shared unit.

Let initial_fit := initial_fit getItemRange setWindow fit.
Let on_changed := on_changed getItemRange setWindow fit.
Let emit_changed := emit_changed getItemRange setWindow fit.

(** A computation that leaves the draw flag and the timers alone, however
    it ends. *)
Definition same_draw (o o' : Own) : Prop :=
  initialDrawDone o' = initialDrawDone o ∧ timers o' = timers o.

Definition quiet {A} (m : M (Own * Shared) A) : Prop :=
  ∀ o s, same_draw o (state_of (m (o, s))).1.

Lemma quiet_ret {A} (a : A) : quiet (mret a).
Proof. by intros o s. Qed.

Lemma quiet_throw {A} e : quiet (throw e : M _ A).
Proof. by intros o s. Qed.

Lemma quiet_bind {A B} (m : M (Own * Shared) A) (k : A → M (Own * Shared) B) :
  quiet m → (∀ a, quiet (k a)) → quiet (m ≫= k).
Proof.
  intros Hm Hk o s. rewrite run_bind. specialize (Hm o s).
  destruct (m (o, s)) as [a [o1 s1]|e [o1 s1]]; [|done].
  destruct Hm as [Hd Ht]. destruct (Hk a o1 s1) as [Hd' Ht']. simpl in *.
  split; congruence.
Qed.

Lemma quiet_shared {A} (m : M Shared A) : quiet (shared m).
Proof. intros o s. unfold shared, zoom. simpl. by destruct (m s). Qed.

Lemma quiet_option_ name : quiet (option_ name).
Proof. by intros o s. Qed.

Lemma quiet_field r name : quiet (field r name).
Proof. destruct r; [apply quiet_ret | apply quiet_throw]. Qed.

Lemma quiet_if {A} (b : bool) (m1 m2 : M (Own * Shared) A) :
  quiet m1 → quiet m2 → quiet (if b then m1 else m2).
Proof. by destruct b. Qed.

Lemma quiet_get : quiet JS.get.
Proof. by intros o s. Qed.

Lemma quiet_fit_done :
  quiet (own (λ o, {| initialFitDone := true; initialDrawDone := initialDrawDone o;
                      timers := timers o |})).
Proof. by intros o s. Qed.

Ltac quiet_steps :=
  repeat first
    [ apply quiet_ret | apply quiet_throw | apply quiet_shared | apply quiet_option_
    | apply quiet_field | apply quiet_get | apply quiet_fit_done
    | apply quiet_bind; [|intros ?] | apply quiet_if ].

Lemma quiet_initial_fit : quiet initial_fit.
Proof. unfold initial_fit, Graph2d.initial_fit. quiet_steps. Qed.

(** At most one timer, the one for [onInitialDrawComplete], and none while
    the first draw has not been signalled. *)
Definition once (o : Own) : Prop :=
  length (timers o) ≤ 1 ∧
  (initialDrawDone o = false → timers o = []) ∧
  Forall (λ t, t = {| callback := "onInitialDrawComplete"; delay := 0 |}) (timers o).

Lemma once_same_draw o o' : same_draw o o' → once o → once o'.
Proof. intros [Hd Ht]. unfold once. by rewrite Hd, Ht. Qed.

Lemma initial_draw_done o s :
  initialDrawDone o = true → state_of (initial_draw (o, s)) = (o, s).
Proof.
  intros Hd. unfold initial_draw. rewrite run_bind. unfold JS.get at 1. cbv beta iota.
  simpl. by rewrite Hd.
Qed.

Lemma initial_draw_once o s : once o → once (state_of (initial_draw (o, s))).1.
Proof.
  intros Ho. destruct (initialDrawDone o) eqn:Hd.
  { by rewrite initial_draw_done. }
  destruct Ho as (_ & Hnone & _). specialize (Hnone Hd).
  assert (∀ b f, once {| initialFitDone := f; initialDrawDone := b; timers := timers o |})
    as Hkeep
    by (intros; unfold once; simpl; rewrite Hnone; simpl; split_and!;
        [lia|done|constructor]).
  unfold initial_draw. rewrite run_bind. unfold JS.get at 1. cbv beta iota. simpl.
  rewrite Hd. simpl.
  destruct (_ || _ || _); [|by destruct o; apply Hkeep].
  run. unfold own at 1, modify. cbv beta iota. run.
  unfold shared at 1, zoom, show_root, modify. cbv beta iota. simpl. run.
  unfold shared at 1, zoom, remove_loadingScreen. simpl.
  destruct (loadingScreen_parentNode s); simpl; [|apply Hkeep].
  run. unfold option_ at 1. run. unfold JS.get at 1. cbv beta iota. run. simpl.
  destruct (truthy _); simpl; [|apply Hkeep].
  rewrite Hnone. unfold once. simpl. split_and!; [lia|done|by constructor].
Qed.

Lemma on_changed_once o s : once o → once (state_of (on_changed (o, s))).1.
Proof.
  intros Ho. unfold on_changed, Graph2d.on_changed.
  rewrite run_bind. unfold JS.get at 1. cbv beta iota. simpl.
  destruct (loosely_undefined _); [done|]. rewrite run_bind.
  pose proof (quiet_initial_fit o s) as Hq. fold initial_fit.
  destruct (initial_fit (o, s)) as [[] [o1 s1]|e [o1 s1]]; simpl in *.
  - apply initial_draw_once. by apply (once_same_draw o).
  - by apply (once_same_draw o).
Qed.

Lemma on_changed_done o s :
  initialDrawDone o = true → same_draw o (state_of (on_changed (o, s))).1.
Proof.
  intros Hd. unfold on_changed, Graph2d.on_changed.
  rewrite run_bind. unfold JS.get at 1. cbv beta iota. simpl.
  destruct (loosely_undefined _); [done|]. rewrite run_bind.
  pose proof (quiet_initial_fit o s) as Hq. fold initial_fit.
  destruct (initial_fit (o, s)) as [[] [o1 s1]|e [o1 s1]]; simpl in *; [|done].
  rewrite initial_draw_done; [done|]. destruct Hq. congruence.
Qed.

Lemma emit_changed_once events o : once o → once (emit_changed events o).
Proof.
  revert o. induction events as [|s events IH]; intros o Ho; [done|].
  simpl. apply IH. by apply on_changed_once.
Qed.

Lemma emit_changed_done events o :
  initialDrawDone o = true → same_draw o (emit_changed events o).
Proof.
  revert o. induction events as [|s events IH]; intros o Hd; [done|]. simpl.
  destruct (on_changed_done o s Hd) as [Hd' Ht']. fold on_changed.
  destruct (IH (state_of (on_changed (o, s))).1) as [Hd2 Ht2]; [congruence|].
  split; congruence.
Qed.

(** C7: whatever [changed] events a widget goes through from its creation,
    the handler has called [setTimeout] at most once, with delay 0 and for
    [onInitialDrawComplete]; and on a widget whose first draw is signalled
    no event adds a timer. *)
Theorem initial_draw_complete_once (events : list Shared) :
  length (timers (emit_changed events created)) ≤ 1 ∧
  Forall (λ t, t = {| callback := "onInitialDrawComplete"; delay := 0 |})
         (timers (emit_changed events created)) ∧
  ∀ o, initialDrawDone o = true →
       timers (emit_changed events o) = timers o ∧
       initialDrawDone (emit_changed events o) = true.
Proof.
  destruct (emit_changed_once events created) as (? & _ & ?).
  { unfold once. simpl. split_and!; [lia|done|constructor]. }
  split; [done|]. split; [done|].
  intros o Hd. destruct (emit_changed_done events o Hd) as [-> ->]. done.
Qed.

End Changed.

(** A widget with items, no window set and a callback to call, on a page
    where fitting does nothing: the first event sets the timer, the next
    two find the loading screen as the first left it. *)
Definition loaded (parent : option node) : Shared :=
  {| itemsData := Obj 1;
     options := {| start := Null; end_ := Null; rollingMode := Undefined;
                   onInitialDrawComplete := Obj 2 |};
     initialRangeChangeDone := false;
     visibility := "hidden";
     loadingScreen_parentNode := parent |}.

Lemma initial_draw_complete_once_witness :
  let events := [loaded (Some 0); loaded None; loaded None] in
  let o := emit_changed (mret None) (λ _ _, mret ()) (mret ()) events created in
  timers o = [{| callback := "onInitialDrawComplete"; delay := 0 |}] ∧
  initialDrawDone o = true ∧
  length (timers o) ≤ 1.
Proof.
  intros events o. split; [reflexivity|]. split; [reflexivity|].
  apply (initial_draw_complete_once (mret None) (λ _ _, mret ()) (mret ()) events).
Defined.

End Graph2dFacts.

(** * More of the code *)

(** ** The pool in use *)

Module PoolUse.

Import DOMFacts.

(** *** [resetElements] *)

Lemma used_not_pooled_after_reset (J : gmap string entry) n :
  ¬ pooled (mark_unused <$> (clear_redundant <$> (mark_unused <$> J))) n.
Proof.
  intros (t & e & H & Hn)%pooled_lookup. rewrite !lookup_fmap in H.
  destruct (J !! t); simplify_eq/=. by apply elem_of_nil in Hn.
Qed.

(** X1: [resetElements] on a pool that keeps its invariant returns with
    every list empty and no element created; the nodes that were in use are
    detached and every other node stays where it was, so a node that waited
    in a [redundant] list stays attached and is held no more. *)
Theorem resetElements_empties w :
  pool_inv w →
  ∃ w', resetElements w = Return () w' ∧
    (∀ t, JSONcontainer w' !! t = (λ _, Entry [] []) <$> JSONcontainer w !! t) ∧
    elements (document w') = elements (document w) ∧
    (∀ n, n ∈ used_nodes (JSONcontainer w) → ¬ attached (document w') n) ∧
    (∀ n, n ∉ used_nodes (JSONcontainer w) →
          parentNode (document w') n = parentNode (document w) n) ∧
    (∀ n, n ∈ redundant_nodes (JSONcontainer w) →
          attached (document w') n ∧ ¬ pooled (JSONcontainer w') n).
Proof.
  intros Hinv. eexists. split; [by apply resetElements_run|]. simpl.
  assert (∀ n, n ∉ used_nodes (JSONcontainer w) →
            parentNode (detach_all (redundant_nodes (mark_unused <$> JSONcontainer w))
                          (document w)) n = parentNode (document w) n) as Hkeep.
  { intros n Hn. rewrite parentNode_detach_all, decide_False; [done|].
    by rewrite redundant_nodes_mark_unused. }
  split_and!.
  - intros t. rewrite !lookup_fmap. by destruct (JSONcontainer w !! t).
  - apply elements_detach_all.
  - intros n Hn. unfold attached. rewrite parentNode_detach_all, decide_True.
    + apply is_Some_None.
    + by apply redundant_nodes_mark_unused.
  - done.
  - intros n Hn. split; [|apply used_not_pooled_after_reset].
    unfold attached. rewrite Hkeep.
    + apply elem_of_redundant_nodes in Hn as (t & e & H & Hn).
      apply (inv_attached _ Hinv t e); [done|]. apply elem_of_app. by right.
    + intros Hu. by apply (used_not_redundant _ _ Hinv) in Hu.
Qed.

(** *** When [cleanupElements] returns *)

Definition detachable (ns : list node) (d : Document) : Prop :=
  NoDup ns ∧ ∀ n, n ∈ ns → attached d n.

Lemma removeFromParent_loop ns d :
  match for_each removeFromParent ns d with
  | Return _ _ => detachable ns d
  | Throw e _ => e = TypeError ∧ ¬ detachable ns d
  end.
Proof.
  revert d. induction ns as [|n ns IH]; intros d.
  { simpl. split; [constructor | by intros n ?%elem_of_nil]. }
  simpl. unfold JS.bind. unfold removeFromParent at 1.
  destruct (parentNode d n) as [p|] eqn:Hp.
  - specialize (IH (detach n d)).
    assert (∀ m, m ≠ n → attached (detach n d) m ↔ attached d m) as Hsame.
    { intros m Hm. unfold attached. by rewrite parentNode_detach, decide_False. }
    assert (¬ attached (detach n d) n) as Hgone.
    { unfold attached. rewrite parentNode_detach, decide_True by done.
      by intros ?%is_Some_None. }
    destruct (for_each removeFromParent ns (detach n d)) as [[] d'|e d'].
    + destruct IH as [Hnd Ha].
      assert (n ∉ ns) as Hn by (intros Hn; by apply Hgone, Ha).
      split; [by constructor|].
      intros m [->|Hm]%elem_of_cons; [by eexists|].
      apply Hsame; [by intros ->|by apply Ha].
    + destruct IH as [-> Hno]. split; [done|]. intros [Hnd Ha].
      apply NoDup_cons in Hnd as [Hn Hnd]. apply Hno. split; [done|].
      intros m Hm. apply Hsame; [by intros ->|]. apply Ha. by right.
  - split; [done|]. intros [_ Ha]. destruct (Ha n) as [p Hp']; [left|]. congruence.
Qed.

Lemma cleanup_loop_outcome ks J d :
  NoDup ks → (∀ k, k ∈ ks → is_Some (J !! k)) →
  match for_each cleanup_body ks (Wld J d) with
  | Return _ _ => detachable (ks ≫= redundant_at J) d
  | Throw e _ => e = TypeError ∧ ¬ detachable (ks ≫= redundant_at J) d
  end.
Proof.
  revert J d. induction ks as [|k ks IH]; intros J d Hks Hdom.
  { simpl. split; [constructor | by intros n ?%elem_of_nil]. }
  apply NoDup_cons in Hks as [Hk Hks].
  destruct (Hdom k) as [e He]; [left|].
  rewrite bind_cons.
  assert (redundant_at J k = redundant e) as Hr by (unfold redundant_at; by rewrite He).
  rewrite Hr.
  simpl. unfold cleanup_body at 1. js_unfold. unfold entryOf at 1. simpl. rewrite He.
  js_unfold. rewrite for_each_in_document. unfold in_document at 1. js_unfold. simpl.
  pose proof (removeFromParent_loop (redundant e) d) as Hloop.
  destruct (for_each removeFromParent (redundant e) d) as [[] d1|err d1] eqn:Hrun.
  - destruct Hloop as [Hnd1 Ha1].
    rewrite for_each_removeFromParent in Hrun by done. injection Hrun as <-.
    rewrite updateEntry_alter by (rewrite He; by eexists).
    assert (ks ≫= redundant_at (alter (λ e, Entry (used e) []) k J)
            = ks ≫= redundant_at J) as Heq.
    { apply bind_ext_in. intros k' Hk'. unfold redundant_at.
      rewrite lookup_alter_ne; [done|]. by intros ->. }
    specialize (IH (alter (λ e, Entry (used e) []) k J)
                   (detach_all (redundant e) d) Hks).
    rewrite Heq in IH.
    assert (∀ m, m ∉ redundant e →
              attached (detach_all (redundant e) d) m ↔ attached d m) as Hsame.
    { intros m Hm. unfold attached. by rewrite parentNode_detach_all, decide_False. }
    assert (∀ m, m ∈ redundant e → ¬ attached (detach_all (redundant e) d) m) as Hgone.
    { intros m Hm. unfold attached. rewrite parentNode_detach_all, decide_True by done.
      by intros ?%is_Some_None. }
    destruct (for_each cleanup_body ks _) as [[] w2|err w2].
    + destruct IH as [Hnd2 Ha2].
      { intros k' Hk'. rewrite lookup_alter_ne by (by intros ->). apply Hdom. by right. }
      split.
      * apply NoDup_app. split_and!; [done| |done].
        intros m Hm Hm'. by apply (Hgone m Hm), Ha2.
      * intros m [Hm|Hm]%elem_of_app; [by apply Ha1|].
        destruct (decide (m ∈ redundant e)) as [Hin|Hin].
        -- by apply Ha1.
        -- apply Hsame; [done|by apply Ha2].
    + destruct IH as [-> Hno].
      { intros k' Hk'. rewrite lookup_alter_ne by (by intros ->). apply Hdom. by right. }
      split; [done|]. intros [Hnd Ha]. apply Hno.
      apply NoDup_app in Hnd as (_ & Hdisj & Hnd2). split; [done|].
      intros m Hm. apply Hsame; [intros Hin; by apply (Hdisj m)|].
      apply Ha, elem_of_app. by right.
  - destruct Hloop as [-> Hno]. split; [done|]. intros [Hnd Ha]. apply Hno.
    apply NoDup_app in Hnd as (Hnd1 & _ & _). split; [done|].
    intros m Hm. apply Ha, elem_of_app. by left.
Qed.

Lemma cleanupElements_detachable J d :
  detachable (redundant_nodes J) d →
  cleanupElements (Wld J d)
  = Return () (Wld (clear_redundant <$> J) (detach_all (redundant_nodes J) d)).
Proof.
  intros [Hnd Ha]. unfold cleanupElements, for_in. simpl.
  change (for_each _ (ownKeys J)) with (for_each cleanup_body (ownKeys J)).
  rewrite cleanup_loop.
  - by rewrite foldl_alter_ownKeys, ownKeys_bind_redundant.
  - apply NoDup_ownKeys.
  - by intros k ?%elem_of_ownKeys.
  - by rewrite ownKeys_bind_redundant.
  - by rewrite ownKeys_bind_redundant.
Qed.

(** X2: [cleanupElements] returns exactly when every node in a
    [redundant] list has a parent and none is listed twice; what it throws
    otherwise is the TypeError of reading [removeChild] off [null]. *)
Theorem cleanupElements_returns_iff J d :
  (returned (cleanupElements (Wld J d)) ↔
     NoDup (redundant_nodes J) ∧ ∀ n, n ∈ redundant_nodes J → attached d n) ∧
  (∀ e w', cleanupElements (Wld J d) = Throw e w' → e = TypeError).
Proof.
  pose proof (cleanup_loop_outcome (ownKeys J) J d (NoDup_ownKeys J)) as H.
  rewrite ownKeys_bind_redundant in H.
  unfold cleanupElements, for_in. simpl.
  change (for_each _ (ownKeys J)) with (for_each cleanup_body (ownKeys J)).
  destruct (for_each cleanup_body (ownKeys J) (Wld J d)) as [[] w1|err w1].
  - split; [|done]. split; [intros _|done]. apply H. by intros k ?%elem_of_ownKeys.
  - destruct H as [-> Hno]; [by intros k ?%elem_of_ownKeys|].
    split; [|by intros ? ? [= <- _]]. split; [done|]. intros Hd. by apply Hno.
Qed.

(** *** Failed acquisitions *)

Lemma call_placed_error cl ns d err :
  call_placed cl (length (elements d)) (create ns (call_tag cl) d) = inl err →
  (err = TypeError ∧ ¬ call_container cl < length (elements d)) ∨
  (err = NotFoundError ∧
   ∃ x, cl = GetDOM (call_tag cl) (call_container cl) (Some (RefNode x)) ∧
        parentNode d x ≠ Some (call_container cl)).
Proof.
  destruct cl as [t c|t c r]; simpl; unfold placed, exists_node; simpl;
    rewrite length_app; simpl; case_bool_decide as Hc.
  - done.
  - intros [= <-]. left. split; [done|lia].
  - destruct r as [[|x]|]; [done| |done]. case_decide as Hx; [done|].
    intros [= <-]. right. split; [done|]. by exists x.
  - intros [= <-]. left. split; [done|lia].
Qed.

Lemma name_error_kind ns t err :
  name_error ns t = Some err → err = InvalidCharacterError ∨ err = NamespaceError.
Proof.
  unfold name_error. destruct ns.
  - destruct (Name t); [done | intros [= <-]; by left].
  - destruct (QName t) as [[prefix local]|]; [|intros [= <-]; by left].
    case_bool_decide; [intros [= <-]; by right | done].
Qed.

(** X4: an acquisition throws only when it has to create an element.  For a
    tag that is no element name it throws before anything is created, an
    InvalidCharacterError (a NamespaceError for a reserved prefix), and the
    pool and the document stay as they were.  Else it throws a TypeError
    for a container that is no element, or a NotFoundError for a reference
    that is no child of the container: the lists then hold what they held
    (a tag not seen before has its entry, empty, unless the tag is
    ["__proto__"]), and the element was created: it is in the document, and
    no node was attached or removed. *)
Theorem acquire_failure cl J d err w' :
  acquire cl (Wld J d) = Throw err w' →
  let t := call_tag cl in
  let c := call_container cl in
  redundant_at J t = [] ∧
  ((name_error (call_namespace cl) t = Some err ∧
    (err = InvalidCharacterError ∨ err = NamespaceError) ∧
    w' = Wld J d)
   ∨
   (name_error (call_namespace cl) t = None ∧
    ((err = TypeError ∧ ¬ c < length (elements d)) ∨
     (err = NotFoundError ∧
      ∃ x, cl = GetDOM t c (Some (RefNode x)) ∧ parentNode d x ≠ Some c)) ∧
    JSONcontainer w'
    = match J !! t with Some _ => J | None => assigned t (Entry [] []) J end ∧
    elements (document w') = elements d ++ [Element (call_namespace cl) t] ∧
    links (document w') = links d ∧
    removed (document w') = removed d)) ∧
  (∀ n, pooled (JSONcontainer w') n ↔ pooled J n).
Proof.
  rewrite acquire_run. cbv zeta. unfold redundant_at.
  destruct (J !! call_tag cl) as [e|] eqn:He.
  - destruct (redundant e) as [|first rest] eqn:Hr; [|done].
    destruct (name_error _ _) as [e1|] eqn:Hne.
    { intros [= <- <-]. split_and!; [done| |done]. left.
      split_and!; [done| by eapply name_error_kind |done]. }
    destruct (call_placed _ _ _) as [e0|ls] eqn:Hpl; [|done].
    intros [= <- <-]. simpl. split_and!; [done| |done]. right.
    split_and!; try done. by eapply call_placed_error.
  - destruct (name_error _ _) as [e1|] eqn:Hne.
    { intros [= <- <-]. split_and!; [done| |done]. left.
      split_and!; [done| by eapply name_error_kind |done]. }
    destruct (call_placed _ _ _) as [e0|ls] eqn:Hpl; [|done].
    intros [= <- <-]. simpl. split_and!; [done| |].
    { right. split_and!; try done. by eapply call_placed_error. }
    unfold assigned. destruct (decide (call_tag cl = "__proto__")) as [_|_]; [done|].
    intros n. rewrite pooled_insert. split.
    + intros [Hn|(t2 & e2 & _ & H2 & Hn)]; [by apply elem_of_nil in Hn|].
      apply pooled_lookup. eauto.
    + intros (t2 & e2 & H2 & Hn)%pooled_lookup. right. exists t2, e2.
      split_and!; [|done|done]. intros ->. congruence.
Qed.

(** *** What an acquisition leaves alone *)

(** X5: an acquisition, however it ends, removes no node, writes no
    attribute, creates at most one element and moves no node that exists. *)
Theorem acquire_keeps_document cl w :
  doc_wf (document w) →
  let w' := state_of (acquire cl w) in
  removed (document w') = removed (document w) ∧
  attributes (document w') = attributes (document w) ∧
  (∃ new, elements (document w') = elements (document w) ++ new ∧ length new ≤ 1) ∧
  (∀ m, m < length (elements (document w)) →
        parentNode (document w') m = parentNode (document w) m).
Proof.
  intros Hwf w'. destruct (acquire_parents cl w Hwf) as [Hpar _]. fold w' in Hpar.
  assert (removed (document w') = removed (document w) ∧
          attributes (document w') = attributes (document w) ∧
          ∃ new, elements (document w') = elements (document w) ++ new ∧ length new ≤ 1)
    as (Hr & Ha & Hel); [|done].
  unfold w'. destruct w as [J d]. rewrite acquire_run. cbv zeta. simpl.
  assert (∃ new, elements d = elements d ++ new ∧ length new ≤ 1) as Hsame
    by (exists []; rewrite app_nil_r; split; [done|simpl; lia]).
  assert (∀ ns t, ∃ new, elements d ++ [Element ns t] = elements d ++ new
                          ∧ length new ≤ 1) as Hone
    by (intros; eexists; split; [done|simpl; lia]).
  destruct (J !! call_tag cl) as [e|].
  - destruct (redundant e); [|by simpl].
    destruct (name_error _ _); [by simpl; eauto|].
    destruct (call_placed _ _ _); simpl; eauto.
  - destruct (name_error _ _); [by simpl; eauto|].
    destruct (call_placed _ _ _); simpl; eauto.
Qed.

Lemma acquire_attributes cl w :
  attributes (document (state_of (acquire cl w))) = attributes (document w).
Proof.
  destruct w as [J d]. rewrite acquire_run. cbv zeta. simpl.
  destruct (J !! call_tag cl) as [e|].
  - destruct (redundant e); [|done].
    destruct (name_error _ _); [done|]. by destruct (call_placed _ _ _).
  - destruct (name_error _ _); [done|]. by destruct (call_placed _ _ _).
Qed.

Lemma acquire_removed cl w :
  removed (document (state_of (acquire cl w))) = removed (document w).
Proof.
  destruct w as [J d]. rewrite acquire_run. cbv zeta. simpl.
  destruct (J !! call_tag cl) as [e|].
  - destruct (redundant e); [|done].
    destruct (name_error _ _); [done|]. by destruct (call_placed _ _ _).
  - destruct (name_error _ _); [done|]. by destruct (call_placed _ _ _).
Qed.

Lemma acquire_elements cl w :
  ∃ new, elements (document (state_of (acquire cl w))) = elements (document w) ++ new ∧
         length new ≤ 1.
Proof.
  destruct w as [J d]. rewrite acquire_run. cbv zeta. simpl.
  assert (∃ new, elements d = elements d ++ new ∧ length new ≤ 1) as Hsame
    by (exists []; rewrite app_nil_r; split; [done|simpl; lia]).
  assert (∀ ns t, ∃ new, elements d ++ [Element ns t] = elements d ++ new
                          ∧ length new ≤ 1) as Hone
    by (intros; eexists; split; [done|simpl; lia]).
  destruct (J !! call_tag cl) as [e|].
  - destruct (redundant e); [|by simpl].
    destruct (name_error _ _); [by simpl; eauto|].
    destruct (call_placed _ _ _); simpl; eauto.
  - destruct (name_error _ _); [by simpl; eauto|].
    destruct (call_placed _ _ _); simpl; eauto.
Qed.

(** The node an acquisition returns was not in use, and is afterwards. *)
Lemma acquire_unused cl w n w' :
  pool_inv w → acquire cl w = Return n w' →
  (n ∉ used_nodes (JSONcontainer w)) ∧
  (call_tag cl ≠ "__proto__" → n ∈ used_nodes (JSONcontainer w')).
Proof.
  intros Hinv. destruct w as [J d]. rewrite acquire_run. cbv zeta.
  assert (∀ m, m ∈ used_nodes J → m < length (elements d)) as Hlt.
  { intros m (t & e & H & Hm)%elem_of_used_nodes.
    apply doc_wf_attached; [apply (inv_doc _ Hinv)|].
    apply (inv_attached _ Hinv t e m H). apply elem_of_app. by left. }
  assert (∀ m, length (elements d) = m → m ∉ used_nodes J) as Hfresh.
  { intros m <- Hm. apply Hlt in Hm. lia. }
  destruct (J !! call_tag cl) as [e|] eqn:He.
  - destruct (redundant e) as [|first rest] eqn:Hr.
    + destruct (name_error _ _); [done|].
      destruct (call_placed _ _ _); [done|]. intros [= <- <-]. simpl.
      split; [by apply Hfresh|]. intros _. apply used_nodes_insert. left. simpl.
      apply elem_of_app. right. left.
    + intros [= <- <-]. simpl. split.
      * intros Hu. apply (used_not_redundant _ _ Hinv) in Hu. apply Hu. simpl.
        apply elem_of_redundant_nodes. exists (call_tag cl), e. split; [done|].
        rewrite Hr. left.
      * intros _. apply used_nodes_insert. left. simpl. apply elem_of_app. right. left.
  - destruct (name_error _ _); [done|].
    destruct (call_placed _ _ _); [done|]. intros [= <- <-]. simpl.
    split; [by apply Hfresh|]. intros Ht. unfold assigned.
    rewrite decide_False by done. apply used_nodes_insert. left. simpl. left.
Qed.


(** *** Reuse over a pass *)

(** The nodes a sequence of acquisitions returns, in order. *)
Fixpoint acquire_each (cs : list call) : M World (list node) :=
  match cs with
  | [] => mret []
  | c :: cs' => n ← acquire c; ns ← acquire_each cs'; mret (n :: ns)
  end.

(** How many of the calls ask for tag [t]. *)
Definition count_tag (t : string) (cs : list call) : nat :=
  length (filter (λ cl, call_tag cl = t) cs).

(** An entry after [k] reuses. *)
Definition reused (k : nat) (e : entry) : entry :=
  Entry (used e ++ take k (redundant e)) (drop k (redundant e)).

Lemma acquire_reuses cl J d e first rest :
  J !! call_tag cl = Some e → redundant e = first :: rest →
  acquire cl (Wld J d) = Return first (Wld (<[call_tag cl := reused 1 e]> J) d).
Proof.
  intros He Hr. rewrite acquire_run. cbv zeta. rewrite He, Hr.
  unfold reused. rewrite Hr. simpl. by rewrite drop_0.
Qed.

Lemma reused_reused k e : reused k (reused 1 e) = reused (S k) e.
Proof.
  unfold reused. simpl. destruct (redundant e) as [|x r]; simpl.
  - by rewrite take_nil, drop_nil, !app_nil_r.
  - by rewrite drop_0, <-app_assoc.
Qed.

Lemma reused_0 e : reused 0 e = e.
Proof. unfold reused. rewrite take_0, drop_0, app_nil_r. by destruct e. Qed.

Lemma acquire_each_reuses t cs J d e :
  J !! t = Some e → Forall (λ cl, call_tag cl = t) cs →
  length cs ≤ length (redundant e) →
  acquire_each cs (Wld J d)
  = Return (take (length cs) (redundant e)) (Wld (<[t := reused (length cs) e]> J) d).
Proof.
  revert J e. induction cs as [|cl cs IH]; intros J e He Hcs Hlen.
  { simpl. rewrite reused_0, insert_id by done. done. }
  apply Forall_cons in Hcs as [Ht Hcs]. simpl in Hlen.
  destruct (redundant e) as [|first rest] eqn:Hr; [simpl in Hlen; lia|].
  simpl in Hlen. simpl acquire_each. run.
  rewrite <-Ht in He. rewrite (acquire_reuses cl J d e first rest He Hr). run.
  rewrite Ht. rewrite (IH _ (reused 1 e)).
  - run. rewrite insert_insert_eq, reused_reused. do 2 f_equal.
    unfold reused. rewrite Hr. simpl. by rewrite drop_0.
  - by rewrite lookup_insert_eq.
  - done.
  - unfold reused. rewrite Hr. simpl. rewrite drop_0. lia.
Qed.

(** X7: after [prepareElements] the acquisitions for a tag get the
    nodes the tag had in use, in the order they were acquired before, and
    the document stays as it is. *)
Theorem pass_reuses_in_order t cs J d e :
  J !! t = Some e → Forall (λ cl, call_tag cl = t) cs →
  length cs ≤ length (used e) →
  (prepareElements;; acquire_each cs) (Wld J d)
  = Return (take (length cs) (used e))
      (Wld (<[t := Entry (take (length cs) (used e)) (drop (length cs) (used e))]>
              (mark_unused <$> J)) d).
Proof.
  intros He Hcs Hlen. run. rewrite prepareElements_run. simpl.
  rewrite (acquire_each_reuses t cs _ d (mark_unused e)); [done| |done|done].
  by rewrite lookup_fmap, He.
Qed.

(** *** A pass that draws what the last one drew *)

Lemma count_tag_cons t cl cs :
  count_tag t (cl :: cs) = (if decide (call_tag cl = t) then 1 else 0) + count_tag t cs.
Proof. unfold count_tag. rewrite filter_cons. by destruct (decide _). Qed.

Lemma acquire_all_reuses cs J d :
  (∀ t, count_tag t cs ≤ length (redundant_at J t)) →
  acquire_all cs (Wld J d)
  = Return () (Wld (foldl (λ J cl, alter (reused 1) (call_tag cl) J) J cs) d).
Proof.
  revert J. induction cs as [|cl cs IH]; intros J Hc; [done|].
  unfold acquire_all. simpl. fold (acquire_all cs). unfold JS.bind. run.
  pose proof (Hc (call_tag cl)) as Hcl. rewrite count_tag_cons, decide_True in Hcl by done.
  unfold redundant_at in Hcl.
  destruct (J !! call_tag cl) as [e|] eqn:He; [|simpl in Hcl; lia].
  destruct (redundant e) as [|first rest] eqn:Hr; [simpl in Hcl; lia|].
  rewrite (acquire_reuses cl J d e first rest He Hr). run.
  assert (<[call_tag cl := reused 1 e]> J = alter (reused 1) (call_tag cl) J) as ->.
  { apply map_eq. intros i. destruct (decide (i = call_tag cl)) as [->|].
    - by rewrite lookup_insert_eq, lookup_alter_eq, He.
    - by rewrite lookup_insert_ne, lookup_alter_ne. }
  apply IH. intros t. specialize (Hc t). rewrite count_tag_cons in Hc.
  unfold redundant_at in *. destruct (decide (call_tag cl = t)) as [<-|Hne].
  - rewrite lookup_alter_eq, He. rewrite He in Hc. simpl. unfold reused. simpl.
    rewrite Hr in *. simpl in *. rewrite drop_0. lia.
  - rewrite lookup_alter_ne by done. simpl in Hc. lia.
Qed.

Lemma foldl_reused_lookup cs (J : gmap string entry) t :
  foldl (λ J cl, alter (reused 1) (call_tag cl) J) J cs !! t
  = reused (count_tag t cs) <$> J !! t.
Proof.
  revert J. induction cs as [|cl cs IH]; intros J.
  { simpl. destruct (J !! t) as [e|]; [|done]. simpl. by rewrite reused_0. }
  simpl. rewrite IH, count_tag_cons. destruct (decide (call_tag cl = t)) as [<-|Hne].
  - rewrite lookup_alter_eq. destruct (J !! call_tag cl); [|done]. simpl.
    by rewrite reused_reused.
  - by rewrite lookup_alter_ne.
Qed.

Lemma bind_nil_in {A B} (f : A → list B) (l : list A) :
  (∀ x, x ∈ l → f x = []) → l ≫= f = [].
Proof.
  induction l as [|x l IH]; intros H; [done|].
  rewrite bind_cons, H by left. apply IH. intros y Hy. apply H. by right.
Qed.

Lemma settled_redundant_nodes J : settled J → redundant_nodes J = [].
Proof.
  intros Hs. apply bind_nil_in. intros [t e] Hte%elem_of_map_to_list. by apply (Hs t).
Qed.

Lemma settled_clear J : settled J → clear_redundant <$> J = J.
Proof.
  intros Hs. apply map_eq. intros t. rewrite lookup_fmap.
  destruct (J !! t) as [e|] eqn:He; [|done]. simpl. f_equal.
  specialize (Hs t e He). simpl in Hs. destruct e. simpl in *. by subst.
Qed.

Lemma cleanupElements_settled J d :
  settled J → cleanupElements (Wld J d) = Return () (Wld J d).
Proof.
  intros Hs. rewrite cleanupElements_detachable.
  - by rewrite settled_clear, settled_redundant_nodes.
  - rewrite settled_redundant_nodes by done. split; [constructor|].
    by intros n ?%elem_of_nil.
Qed.

(** X8: a pass that asks, tag by tag, for as many elements as are
    in use leaves the pool and the document exactly as they were. *)
Theorem redraw_of_the_same_is_stable J d cs :
  settled J →
  (∀ t, count_tag t cs = length (used_at J t)) →
  (prepareElements;; acquire_all cs;; cleanupElements) (Wld J d) = Return () (Wld J d).
Proof.
  intros Hs Hc. run. rewrite prepareElements_run. simpl.
  assert (∀ t, redundant_at (mark_unused <$> J) t = used_at J t) as Hred.
  { intros t. unfold redundant_at, used_at. rewrite lookup_fmap.
    by destruct (J !! t). }
  run. rewrite acquire_all_reuses by (intros t; rewrite Hred, Hc; lia). run.
  assert (foldl (λ J cl, alter (reused 1) (call_tag cl) J) (mark_unused <$> J) cs = J)
    as ->.
  { apply map_eq. intros t. rewrite foldl_reused_lookup, lookup_fmap, Hc.
    unfold used_at. destruct (J !! t) as [e|] eqn:He; [|done]. simpl. f_equal.
    unfold reused. simpl. rewrite firstn_all, drop_all.
    specialize (Hs t e He). simpl in Hs. destruct e. simpl in *. by subst. }
  by apply cleanupElements_settled.
Qed.

(** X3: after a [cleanupElements] that returned, another one returns
    and changes nothing. *)
Theorem cleanupElements_idempotent w w1 :
  cleanupElements w = Return () w1 → cleanupElements w1 = Return () w1.
Proof.
  destruct w as [J d]. intros Hrun.
  pose proof (cleanup_loop_outcome (ownKeys J) J d (NoDup_ownKeys J)) as H.
  rewrite ownKeys_bind_redundant in H.
  assert (detachable (redundant_nodes J) d) as Hd.
  { revert Hrun H. unfold cleanupElements, for_in. simpl.
    change (for_each _ (ownKeys J)) with (for_each cleanup_body (ownKeys J)).
    intros ->. intros H. apply H. by intros k ?%elem_of_ownKeys. }
  rewrite cleanupElements_detachable in Hrun by done. injection Hrun as <-.
  apply cleanupElements_settled, settled_clear_redundant.
Qed.

Lemma acquire_each_sound cs w ns w' :
  pool_inv w → acquire_each cs w = Return ns w' → pool_inv w' ∧ extends w w'.
Proof.
  revert w ns. induction cs as [|cl cs IH]; intros w ns Hinv.
  { intros [= <- <-]. split; [done | apply extends_refl]. }
  simpl. run.
  destruct (acquire_sound cl w Hinv) as [Hinv1 Hext1].
  destruct (acquire cl w) as [n w1|e w1]; [|done]. simpl in *. run.
  specialize (IH w1).
  destruct (acquire_each cs w1) as [ns1 w2|e w2]; [|done]. run.
  intros [= <- <-]. destruct (IH ns1 Hinv1 eq_refl) as [Hinv2 Hext2].
  split; [done|]. by eapply extends_trans.
Qed.

(** X6: the acquisitions of a pass, none of them under the name
    ["__proto__"], return different nodes, none of which was in use, and
    all of which are in use afterwards. *)
Theorem acquire_each_distinct cs w ns w' :
  pool_inv w → Forall (λ cl, call_tag cl ≠ "__proto__") cs →
  acquire_each cs w = Return ns w' →
  NoDup ns ∧ length ns = length cs ∧
  (∀ n, n ∈ ns → n ∉ used_nodes (JSONcontainer w)) ∧
  (∀ n, n ∈ ns → n ∈ used_nodes (JSONcontainer w')).
Proof.
  revert w ns. induction cs as [|cl cs IH]; intros w ns Hinv Hcs.
  { intros [= <- <-]. split_and!; [constructor|done|..]; by intros n ?%elem_of_nil. }
  apply Forall_cons in Hcs as [Hcl Hcs].
  simpl. run.
  destruct (acquire_sound cl w Hinv) as [Hinv1 Hext1].
  destruct (acquire cl w) as [n w1|e w1] eqn:Hacq; [|done]. simpl in *. run.
  destruct (acquire_unused cl w n w1 Hinv Hacq) as [Hn Hn1].
  specialize (Hn1 Hcl).
  specialize (IH w1).
  destruct (acquire_each cs w1) as [ns1 w2|e w2] eqn:Hrest; [|done]. run.
  intros [= <- <-].
  destruct (IH ns1 Hinv1 Hcs eq_refl) as (Hnd & Hlen & Hnot & Hin).
  destruct (acquire_each_sound cs w1 ns1 w2 Hinv1 Hrest) as [_ Hext2].
  split_and!.
  - constructor; [|done]. intros Hn'. by apply (Hnot n).
  - simpl. by rewrite Hlen.
  - intros m [->|Hm]%elem_of_cons; [done|]. intros Hu.
    apply (Hnot m Hm). by apply (ext_used _ _ Hext1).
  - intros m [->|Hm]%elem_of_cons; [|by apply Hin].
    by apply (ext_used _ _ Hext2).
Qed.

(** *** On the page of one root *)

Lemma pool_ok_redrawn : pool_ok redrawn.
Proof. by_computation. Qed.

Lemma resetElements_empties_witness :
  pool_inv redrawn ∧
  ∃ w', resetElements redrawn = Return () w' ∧
    ¬ attached (document w') 1 ∧
    attached (document w') 2 ∧ ¬ pooled (JSONcontainer w') 2.
Proof.
  assert (pool_inv redrawn) as Hinv by apply pool_ok_inv, pool_ok_redrawn.
  split; [done|].
  destruct (resetElements_empties redrawn Hinv) as (w' & Hrun & _ & _ & Hused & _ & Hred).
  exists w'. split; [done|]. split.
  - apply Hused. by_computation.
  - apply Hred. by_computation.
Defined.

Lemma acquire_failure_witness :
  ∃ w', acquire (GetSVG "rect" 7) (Wld ∅ page) = Throw TypeError w' ∧
    ¬ 7 < length (elements page) ∧
    JSONcontainer w' = <["rect" := Entry [] []]> ∅ ∧
    elements (document w') = [Element SVG "svg"; Element SVG "rect"] ∧
    links (document w') = [].
Proof.
  assert (∃ w', acquire (GetSVG "rect" 7) (Wld ∅ page) = Throw TypeError w') as [w' Hrun]
    by (eexists; vm_compute; reflexivity).
  exists w'. split; [done|].
  pose proof (acquire_failure (GetSVG "rect" 7) ∅ page TypeError w' Hrun) as H.
  cbv zeta in H. destruct H as (_ & [[Hname _]|(_ & Herr & HJ & Hel & Hl & _)] & _).
  { vm_compute in Hname. discriminate Hname. }
  split_and!.
  - destruct Herr as [[_ ?]|[? _]]; done.
  - exact HJ.
  - exact Hel.
  - exact Hl.
Defined.

Lemma acquire_keeps_document_witness :
  let w' := state_of (acquire (GetSVG "rect" 0) drawn) in
  doc_wf (document drawn) ∧
  removed (document w') = removed (document drawn) ∧
  attributes (document w') = attributes (document drawn) ∧
  parentNode (document w') 1 = parentNode (document drawn) 1.
Proof.
  intros w'. assert (doc_wf (document drawn)) as Hwf by by_computation.
  split; [done|].
  pose proof (acquire_keeps_document (GetSVG "rect" 0) drawn Hwf) as H.
  cbv zeta in H. destruct H as (Hr & Ha & _ & Hp).
  split; [exact Hr|]. split; [exact Ha|]. apply Hp. vm_compute. lia.
Defined.

Lemma pass_reuses_in_order_witness :
  let J := JSONcontainer drawn in
  let d := document drawn in
  J !! "rect" = Some (Entry [1; 2] []) ∧
  ∃ w', (prepareElements;; acquire_each [GetSVG "rect" 0; GetSVG "rect" 0]) (Wld J d)
        = Return [1; 2] w'.
Proof.
  intros J d. assert (J !! "rect" = Some (Entry [1; 2] [])) as He by (vm_compute; reflexivity).
  split; [done|]. eexists.
  rewrite (pass_reuses_in_order "rect" [GetSVG "rect" 0; GetSVG "rect" 0] J d _ He).
  - reflexivity.
  - by repeat constructor.
  - simpl. lia.
Defined.

Lemma redraw_of_the_same_is_stable_witness :
  let J := JSONcontainer drawn in
  let d := document drawn in
  let cs := [GetSVG "circle" 0; GetSVG "rect" 0; GetSVG "rect" 0] in
  settled J ∧ (∀ t, count_tag t cs = length (used_at J t)) ∧
  (prepareElements;; acquire_all cs;; cleanupElements) (Wld J d) = Return () (Wld J d).
Proof.
  intros J d cs.
  assert (settled J) as Hs by by_computation.
  assert (J = <["circle" := Entry [3] []]> (<["rect" := Entry [1; 2] []]> ∅)) as HJ
    by (vm_compute; reflexivity).
  assert (∀ t, count_tag t cs = length (used_at J t)) as Hc.
  { intros t. unfold count_tag, used_at, cs. rewrite HJ.
    destruct (decide (t = "circle")) as [->|Hc]; [by vm_compute|].
    destruct (decide (t = "rect")) as [->|Hr]; [by vm_compute|].
    rewrite !lookup_insert_ne, lookup_empty by done.
    rewrite !filter_cons_False by (simpl; congruence). done. }
  split; [done|]. split; [done|].
  exact (redraw_of_the_same_is_stable J d cs Hs Hc).
Defined.

Lemma cleanupElements_idempotent_witness :
  ∃ w1, cleanupElements redrawn = Return () w1 ∧ cleanupElements w1 = Return () w1.
Proof.
  assert (∃ w1, cleanupElements redrawn = Return () w1) as [w1 Hrun]
    by (eexists; vm_compute; reflexivity).
  exists w1. split; [done|]. exact (cleanupElements_idempotent redrawn w1 Hrun).
Defined.

Lemma acquire_each_distinct_witness :
  let w := state_of (prepareElements drawn) in
  let cs := [GetSVG "rect" 0; GetSVG "rect" 0; GetSVG "rect" 0] in
  pool_inv w ∧
  ∃ w', acquire_each cs w = Return [1; 2; 4] w' ∧
        NoDup [1; 2; 4] ∧ 4 ∈ used_nodes (JSONcontainer w').
Proof.
  intros w cs.
  assert (pool_inv w) as Hinv by (apply pool_ok_inv; by_computation).
  split; [done|].
  assert (∃ w', acquire_each cs w = Return [1; 2; 4] w') as [w' Hrun]
    by (eexists; vm_compute; reflexivity).
  exists w'. split; [done|].
  assert (Forall (λ cl, call_tag cl ≠ "__proto__") cs) as Hcs by by_computation.
  destruct (acquire_each_distinct cs w [1; 2; 4] w' Hinv Hcs Hrun)
    as (Hnd & _ & _ & Hin).
  split; [done|]. apply Hin. by_computation.
Defined.

End PoolUse.

Import PoolUse.

(** ** [drawPoint] *)

Module DrawPointFacts.

Import DOMFacts DrawBarFacts DrawPoint.

(** The tag of the element a point is drawn with. *)
Definition point_tag (g : GroupTemplate) : string :=
  if String.eqb (style g) "circle" then "circle" else "rect".

(** The attributes written on the point. *)
Definition point_attributes (x y : Q) (g : GroupTemplate) (point : node)
    (a : gmap (node * string) value) : gmap (node * string) value :=
  let a :=
    if String.eqb (style g) "circle" then
      <[(point, "r") := Num (0.5 * size g)%Q]>
        (<[(point, "cy") := Num y]> (<[(point, "cx") := Num x]> a))
    else
      <[(point, "height") := Num (size g)]>
        (<[(point, "width") := Num (size g)]>
           (<[(point, "y") := Num (y - 0.5 * size g)%Q]>
              (<[(point, "x") := Num (x - 0.5 * size g)%Q]> a))) in
  let a := if negb (is_undefined (styles g)) then <[(point, "style") := styles g]> a
           else a in
  <[(point, "class") := Str (className g +:+ " vis-point")]> a.

(** The attributes written on the label. *)
Definition label_attributes (x y : Q) (l : Label) (label : node)
    (a : gmap (node * string) value) : gmap (node * string) value :=
  let a := match label_className l with
           | Some c => if truthy (Str c)
                       then <[(label, "class") := Str (c +:+ " vis-label")]> a else a
           | None => a
           end in
  <[(label, "y") := Num (shifted y (yOffset l))]>
    (<[(label, "x") := Num (shifted x (xOffset l))]> a).

Definition label_text (l : Label) (label : node) (tc : gmap node value)
  : gmap node value :=
  if truthy (content l) then <[label := content l]> tc else tc.

Definition with_attrs (w : World) (f : gmap (node * string) value → gmap (node * string) value)
  : World :=
  Wld (JSONcontainer w) (with_attributes (document w) (f (attributes (document w)))).

Lemma attr_run n name v w tc :
  attr n name v (Cnv w tc) = Return () (Cnv (with_attrs w (<[(n, name) := v]>)) tc).
Proof. by destruct w. Qed.

Lemma with_attrs_with_attrs w f g :
  with_attrs (with_attrs w f) g = with_attrs w (g ∘ f).
Proof. by destruct w. Qed.

Lemma in_world_run {A} (m : M World A) w tc :
  in_world m (Cnv w tc)
  = match m w with Return a w' => Return a (Cnv w' tc) | Throw e w' => Throw e (Cnv w' tc) end.
Proof. reflexivity. Qed.

Lemma drawPoint_run x y g c lbl w tc :
  drawPoint x y g c lbl (Cnv w tc) =
  match getSVGElement (point_tag g) c w with
  | Throw e w1 => Throw e (Cnv w1 tc)
  | Return point w1 =>
      let w2 := with_attrs w1 (point_attributes x y g point) in
      match lbl with
      | None => Return point (Cnv w2 tc)
      | Some l =>
          match getSVGElement "text" c w2 with
          | Throw e w3 => Throw e (Cnv w3 tc)
          | Return label w3 =>
              Return point (Cnv (with_attrs w3 (label_attributes x y l label))
                                (label_text l label tc))
          end
      end
  end.
Proof.
  unfold drawPoint, point_tag, point_attributes, label_attributes, label_text.
  generalize (getSVGElement "text" c). intros get_text.
  destruct (String.eqb (style g) "circle").
  - generalize (getSVGElement "circle" c). intros get_point.
    run. rewrite in_world_run.
    destruct (get_point w) as [point [J1 [els lks ats rms]]|e w1]; [|done].
    destruct (is_undefined (styles g)); (destruct lbl as [l|]; [|done]).
    all: unfold with_attrs, with_attributes, attr, in_world, in_document, zoom,
           setAttributeNS, set_textContent, modify; simpl; run; simpl.
    all: destruct (get_text _) as [label [J3 [els3 lks3 ats3 rms3]]|e w3]; [|done].
    all: destruct (truthy (content l)); destruct (label_className l) as [cn|];
      try destruct cn; reflexivity.
  - generalize (getSVGElement "rect" c). intros get_point.
    run. rewrite in_world_run.
    destruct (get_point w) as [point [J1 [els lks ats rms]]|e w1]; [|done].
    destruct (is_undefined (styles g)); (destruct lbl as [l|]; [|done]).
    all: unfold with_attrs, with_attributes, attr, in_world, in_document, zoom,
           setAttributeNS, set_textContent, modify; simpl; run; simpl.
    all: destruct (get_text _) as [label [J3 [els3 lks3 ats3 rms3]]|e w3]; [|done].
    all: destruct (truthy (content l)); destruct (label_className l) as [cn|];
      try destruct cn; reflexivity.
Qed.

Lemma pool_inv_with_attrs w f : pool_inv w → pool_inv (with_attrs w f).
Proof.
  destruct w as [J d]. intros H. unfold with_attrs. simpl.
  apply (pool_inv_document J d); [done|done|]. apply (inv_doc _ H).
Qed.

Lemma point_attributes_other x y g point a m name :
  m ≠ point → point_attributes x y g point a !! (m, name) = a !! (m, name).
Proof.
  intros Hm. unfold point_attributes. cbv zeta.
  destruct (String.eqb (style g) "circle"), (negb (is_undefined (styles g)));
    rewrite !lookup_insert_ne by congruence; done.
Qed.

Lemma label_attributes_other x y l label a m name :
  m ≠ label → label_attributes x y l label a !! (m, name) = a !! (m, name).
Proof.
  intros Hm. unfold label_attributes. cbv zeta.
  rewrite !lookup_insert_ne by congruence.
  destruct (label_className l) as [cn|]; [|done].
  destruct (truthy (Str cn)); [|done]. by rewrite lookup_insert_ne by congruence.
Qed.

Lemma point_attributes_lookup x y g point a :
  let a' := point_attributes x y g point a in
  a' !! (point, "class") = Some (Str (className g +:+ " vis-point")) ∧
  (style g = "circle" →
     a' !! (point, "cx") = Some (Num x) ∧ a' !! (point, "cy") = Some (Num y) ∧
     a' !! (point, "r") = Some (Num (0.5 * size g)%Q)) ∧
  (style g ≠ "circle" →
     a' !! (point, "x") = Some (Num (x - 0.5 * size g)%Q) ∧
     a' !! (point, "y") = Some (Num (y - 0.5 * size g)%Q) ∧
     a' !! (point, "width") = Some (Num (size g)) ∧
     a' !! (point, "height") = Some (Num (size g))).
Proof.
  unfold point_attributes. cbv zeta.
  destruct (String.eqb_spec (style g) "circle") as [Hs|Hs];
    destruct (negb (is_undefined (styles g))); split_and!;
    try (intros ?; try done; split_and!); by simplify_map_eq.
Qed.

Lemma label_attributes_lookup x y l label a :
  label_attributes x y l label a !! (label, "x") = Some (Num (shifted x (xOffset l))) ∧
  label_attributes x y l label a !! (label, "y") = Some (Num (shifted y (yOffset l))).
Proof. unfold label_attributes. cbv zeta. split; by simplify_map_eq. Qed.

(** The tags [drawPoint] asks for are element names. *)
Lemma point_tag_name g :
  point_tag g ≠ "__proto__" ∧ name_error SVG (point_tag g) = None.
Proof. unfold point_tag. by destruct (String.eqb (style g) "circle"). Qed.

Lemma text_name : name_error SVG "text" = None.
Proof. reflexivity. Qed.

(** X9: what [drawPoint] draws: the point, in use only now, carries the class
    and the geometry asked for, centred on [(x, y)]; a label is another
    element, placed at the point shifted by the offsets; the attributes of
    the point are not those of the label. *)
Theorem drawPoint_draws x y g c lbl cv point cv' :
  pool_inv (world cv) →
  drawPoint x y g c lbl cv = Return point cv' →
  let J := JSONcontainer (world cv) in
  let J' := JSONcontainer (world cv') in
  let d' := document (world cv') in
  pool_inv (world cv') ∧
  (point ∉ used_nodes J) ∧ point ∈ used_nodes J' ∧
  getAttribute d' point "class" = Some (Str (className g +:+ " vis-point")) ∧
  (style g = "circle" →
     getAttribute d' point "cx" = Some (Num x) ∧
     getAttribute d' point "cy" = Some (Num y) ∧
     getAttribute d' point "r" = Some (Num (0.5 * size g)%Q)) ∧
  (style g ≠ "circle" →
     getAttribute d' point "x" = Some (Num (x - 0.5 * size g)%Q) ∧
     getAttribute d' point "y" = Some (Num (y - 0.5 * size g)%Q) ∧
     getAttribute d' point "width" = Some (Num (size g)) ∧
     getAttribute d' point "height" = Some (Num (size g))) ∧
  (lbl = None → textContent cv' = textContent cv) ∧
  (∀ l, lbl = Some l →
     ∃ label, label ≠ point ∧ (label ∉ used_nodes J) ∧ label ∈ used_nodes J' ∧
       getAttribute d' label "x" = Some (Num (shifted x (xOffset l))) ∧
       getAttribute d' label "y" = Some (Num (shifted y (yOffset l))) ∧
       (truthy (content l) = true → textContent cv' !! label = Some (content l))).
Proof.
  destruct cv as [w tc]. simpl. intros Hinv. rewrite drawPoint_run.
  change (getSVGElement (point_tag g) c) with (acquire (GetSVG (point_tag g) c)).
  destruct (acquire_sound (GetSVG (point_tag g) c) w Hinv) as [Hinv1 Hext1].
  destruct (acquire (GetSVG (point_tag g) c) w) as [p w1|e w1] eqn:Hp; [|done].
  simpl in Hinv1, Hext1. cbv zeta.
  destruct (acquire_unused _ _ _ _ Hinv Hp) as [Hfresh Hused].
  specialize (Hused (proj1 (point_tag_name g))).
  pose proof (point_attributes_lookup x y g p (attributes (document w1)))
    as (Hclass & Hcircle & Hrect). cbv zeta in Hclass, Hcircle, Hrect.
  destruct lbl as [l|].
  - set (w2 := with_attrs w1 (point_attributes x y g p)).
    assert (pool_inv w2) as Hinv2 by by apply pool_inv_with_attrs.
    change (getSVGElement "text" c) with (acquire (GetSVG "text" c)).
    destruct (acquire_sound (GetSVG "text" c) w2 Hinv2) as [Hinv3 Hext3].
    pose proof (acquire_attributes (GetSVG "text" c) w2) as Hat.
    destruct (acquire (GetSVG "text" c) w2) as [lb w3|e w3] eqn:Hl; [|done].
    simpl in Hinv3, Hext3, Hat.
    destruct (acquire_unused _ _ _ _ Hinv2 Hl) as [Hfresh3 Hused3].
    specialize (Hused3 ltac:(done)).
    assert (JSONcontainer w2 = JSONcontainer w1) as HJ2 by by destruct w1.
    rewrite HJ2 in Hfresh3.
    assert (lb ≠ p) as Hne by (intros ->; done).
    intros [= <- <-]. simpl.
    assert (∀ name, getAttribute
              (with_attributes (document w3)
                 (label_attributes x y l lb (attributes (document w3)))) p name
            = point_attributes x y g p (attributes (document w1)) !! (p, name)) as Hp_at.
    { intros name. unfold getAttribute. simpl.
      rewrite label_attributes_other by done. rewrite Hat. by destruct w1. }
    split_and!.
    + by apply pool_inv_with_attrs.
    + done.
    + apply (ext_used _ _ Hext3). by rewrite HJ2.
    + by rewrite Hp_at.
    + intros Hs. rewrite !Hp_at. by apply Hcircle.
    + intros Hs. rewrite !Hp_at. by apply Hrect.
    + done.
    + intros ? [= <-]. exists lb. split_and!.
      * done.
      * intros Hu. apply Hfresh3. by apply (ext_used _ _ Hext1).
      * done.
      * apply label_attributes_lookup.
      * apply label_attributes_lookup.
      * intros Ht. unfold label_text. rewrite Ht. by rewrite lookup_insert_eq.
  - intros [= <- <-]. simpl. split_and!.
    + by apply pool_inv_with_attrs.
    + done.
    + by destruct w1.
    + by destruct w1.
    + intros Hs. destruct w1. by apply Hcircle.
    + intros Hs. destruct w1. by apply Hrect.
    + done.
    + done.
Qed.

Lemma acquire_svg_returns t c J d :
  name_error SVG t = None →
  c < length (elements d) → ∃ n w', acquire (GetSVG t c) (Wld J d) = Return n w'.
Proof.
  intros Hname Hc. rewrite acquire_run. cbv zeta.
  cbn [call_tag call_namespace call_placed]. rewrite Hname.
  assert (placed c (length (elements d)) None (create SVG t d)
          = inr (links d ++ [(length (elements d), c)])) as ->.
  { unfold placed, exists_node. simpl. rewrite length_app. simpl.
    by rewrite bool_decide_true by lia. }
  destruct (J !! t) as [e|]; [|by eauto]. destruct (redundant e); by eauto.
Qed.

Lemma acquire_svg_throws t c w e w' :
  name_error SVG t = None →
  acquire (GetSVG t c) w = Throw e w' →
  e = TypeError ∧ ¬ c < length (elements (document w)).
Proof.
  destruct w as [J d]. intros Hname Hrun.
  destruct (decide (c < length (elements d))) as [Hc|Hc].
  - destruct (acquire_svg_returns t c J d Hname Hc) as (n & w1 & H). congruence.
  - split; [|done]. revert Hrun. rewrite acquire_run. cbv zeta.
    cbn [call_tag call_namespace call_placed]. rewrite Hname.
    unfold placed. destruct (exists_node _ c).
    + destruct (J !! t) as [e0|]; [|done]. by destruct (redundant e0).
    + destruct (J !! t) as [e0|]; [|by intros [= <- _]].
      destruct (redundant e0); [by intros [= <- _]|done].
Qed.

Lemma acquire_length cl w :
  length (elements (document w)) ≤ length (elements (document (state_of (acquire cl w))))
  ≤ S (length (elements (document w))).
Proof.
  destruct (acquire_elements cl w) as (new & -> & Hnew). rewrite length_app. lia.
Qed.

(** X10: [drawPoint] returns when the container is an element, after creating at
    most one element for the point and one for the label; it throws nothing
    but the TypeError of appending to a container that is none. *)
Theorem drawPoint_returns x y g c lbl cv :
  (c < length (elements (document (world cv))) →
   ∃ point cv',
     drawPoint x y g c lbl cv = Return point cv' ∧
     length (elements (document (world cv')))
     ≤ length (elements (document (world cv))) + match lbl with Some _ => 2 | None => 1 end ∧
     removed (document (world cv')) = removed (document (world cv))) ∧
  (∀ e cv', drawPoint x y g c lbl cv = Throw e cv' →
     e = TypeError ∧ ¬ c < length (elements (document (world cv)))).
Proof.
  destruct cv as [w tc]. simpl. rewrite drawPoint_run.
  change (getSVGElement (point_tag g) c) with (acquire (GetSVG (point_tag g) c)).
  change (getSVGElement "text" c) with (acquire (GetSVG "text" c)).
  pose proof (acquire_length (GetSVG (point_tag g) c) w) as Hlen1.
  pose proof (acquire_removed (GetSVG (point_tag g) c) w) as Hrem1.
  destruct (acquire (GetSVG (point_tag g) c) w) as [p w1|e w1] eqn:Hp.
  2:{ apply acquire_svg_throws in Hp as [-> Hc]; [|apply point_tag_name].
      split; [done|]. by intros ? ? [= <- _]. }
  simpl in Hlen1, Hrem1. cbv zeta. destruct lbl as [l|].
  - set (w2 := with_attrs w1 (point_attributes x y g p)).
    pose proof (acquire_length (GetSVG "text" c) w2) as Hlen2.
    pose proof (acquire_removed (GetSVG "text" c) w2) as Hrem2.
    assert (elements (document w2) = elements (document w1)) as Hel2 by by destruct w1.
    assert (removed (document w2) = removed (document w1)) as Hr2 by by destruct w1.
    destruct (acquire (GetSVG "text" c) w2) as [lb w3|e w3] eqn:Hl.
    + unfold state_of in Hlen2, Hrem2. split; [|done]. intros _. eexists _, _.
      split; [done|]. simpl. split; [rewrite Hel2 in Hlen2; lia | congruence].
    + apply acquire_svg_throws in Hl as [-> Hc]; [|apply text_name].
      rewrite Hel2 in Hc.
      split; [intros; lia|]. intros ? ? [= <- _]. split; [done|lia].
  - split; [|done]. intros _. eexists _, _. split; [done|]. simpl.
    destruct w1. simpl in *. split; [lia|done].
Qed.

(** X11: [drawPoint] only ever adds: with [styles] left out the [style]
    attribute of every element, also of a point it reuses, stays what it
    was; a label without content leaves every text as it was. *)
Theorem drawPoint_never_clears x y g c lbl cv :
  let cv' := state_of (drawPoint x y g c lbl cv) in
  (styles g = Undefined →
   ∀ n, getAttribute (document (world cv')) n "style"
        = getAttribute (document (world cv)) n "style") ∧
  ((∀ l, lbl = Some l → truthy (content l) = false) →
   textContent cv' = textContent cv).
Proof.
  destruct cv as [w tc]. simpl. rewrite drawPoint_run.
  change (getSVGElement (point_tag g) c) with (acquire (GetSVG (point_tag g) c)).
  change (getSVGElement "text" c) with (acquire (GetSVG "text" c)).
  pose proof (acquire_attributes (GetSVG (point_tag g) c) w) as Hat1.
  destruct (acquire (GetSVG (point_tag g) c) w) as [p w1|e w1]; simpl in Hat1.
  2:{ simpl. unfold getAttribute. by rewrite Hat1. }
  cbv zeta.
  assert (styles g = Undefined → ∀ n,
            point_attributes x y g p (attributes (document w1)) !! (n, "style")
            = attributes (document w) !! (n, "style")) as Hstyle.
  { intros Hs n. unfold point_attributes. cbv zeta. rewrite Hs. simpl.
    rewrite lookup_insert_ne by congruence. rewrite <-Hat1.
    destruct (String.eqb (style g) "circle"); by rewrite !lookup_insert_ne by congruence. }
  destruct lbl as [l|].
  - set (w2 := with_attrs w1 (point_attributes x y g p)).
    pose proof (acquire_attributes (GetSVG "text" c) w2) as Hat2.
    destruct (acquire (GetSVG "text" c) w2) as [lb w3|e w3]; simpl in *.
    + split.
      * intros Hs n. unfold getAttribute. simpl.
        assert (label_attributes x y l lb (attributes (document w3)) !! (n, "style")
                = attributes (document w3) !! (n, "style")) as ->.
        { unfold label_attributes. cbv zeta. rewrite !lookup_insert_ne by congruence.
          destruct (label_className l) as [cn|]; [|done].
          destruct (truthy (Str cn)); [|done]. by rewrite lookup_insert_ne by congruence. }
        rewrite Hat2. destruct w1. simpl. by apply Hstyle.
      * intros Hc. unfold label_text. by rewrite (Hc l eq_refl).
    + split; [|done]. intros Hs n. unfold getAttribute. rewrite Hat2.
      destruct w1. simpl. by apply Hstyle.
  - simpl. split; [|done]. intros Hs n. unfold getAttribute. destruct w1. simpl.
    by apply Hstyle.
Qed.


(** *** A point with a label *)

(** A circle of size 6 with a label two to the right of it. *)
Definition dot : GroupTemplate :=
  {| style := "circle"; size := 6; styles := Undefined; className := "dot" |}.

Definition caption : Label :=
  {| xOffset := Some 2%Q; yOffset := None; content := Str "a"; label_className := None |}.

Lemma drawPoint_draws_witness :
  let cv := Cnv drawn ∅ in
  pool_inv (world cv) ∧
  ∃ cv', drawPoint 10 20 dot 0 (Some caption) cv = Return 4 cv' ∧
    getAttribute (document (world cv')) 4 "cx" = Some (Num 10) ∧
    getAttribute (document (world cv')) 4 "r" = Some (Num (0.5 * 6)%Q) ∧
    ∃ label, label ≠ 4 ∧
      getAttribute (document (world cv')) label "x" = Some (Num (10 + 2)%Q) ∧
      textContent cv' !! label = Some (Str "a").
Proof.
  intros cv.
  assert (pool_inv (world cv)) as Hinv by apply pool_ok_inv, pool_ok_drawn.
  split; [done|].
  assert (∃ cv', drawPoint 10 20 dot 0 (Some caption) cv = Return 4 cv') as [cv' Hrun]
    by (eexists; vm_compute; reflexivity).
  exists cv'. split; [done|].
  pose proof (drawPoint_draws 10 20 dot 0 (Some caption) cv 4 cv' Hinv Hrun) as H.
  cbv zeta in H. destruct H as (_ & _ & _ & _ & Hcircle & _ & _ & Hlabel).
  destruct (Hcircle eq_refl) as (Hcx & _ & Hr).
  destruct (Hlabel caption eq_refl) as (label & Hne & _ & _ & Hx & _ & Htext).
  split; [exact Hcx|]. split; [exact Hr|].
  exists label. split; [done|]. split; [exact Hx|]. by apply Htext.
Defined.

End DrawPointFacts.

(** ** More on [drawBar] *)

Module DrawBarSpan.

Import DrawBarFacts.


Lemma draw_rect_style x y width height className c style w :
  truthy style = false →
  ∀ n, getAttribute (document (state_of (draw_rect x y width height className c style w)))
         n "style"
       = getAttribute (document w) n "style".
Proof.
  intros Hs n. unfold draw_rect.
  change (getSVGElement "rect" c) with (acquire (GetSVG "rect" c)).
  pose proof (acquire_attributes (GetSVG "rect" c) w) as Hat.
  destruct (acquire (GetSVG "rect" c) w) as [rect w1|e w1]; simpl in *;
    unfold getAttribute; simpl; [|by rewrite Hat].
  unfold bar_attributes. cbv zeta. rewrite Hs, !lookup_insert_ne by congruence.
  by rewrite Hat.
Qed.

(** X12: [drawBar] with an empty or missing [style] writes no [style]
    attribute: a rect it reuses keeps the one it had. *)
Theorem drawBar_keeps_style x y width height className c style w :
  truthy style = false →
  ∀ n, getAttribute (document (state_of (drawBar x y width height className c style w)))
         n "style"
       = getAttribute (document w) n "style".
Proof.
  intros Hs n. rewrite drawBar_run. destruct (Qeq_bool height 0); [done|].
  destruct (Qltb height 0); by apply draw_rect_style.
Qed.

Lemma flipped_height (h : Q) : (h < 0)%Q → (0 < h * -1)%Q ∧ (h * -1 == Qabs h)%Q.
Proof.
  intros Hh. split.
  - assert (h * -1 == - h)%Q as -> by ring.
    apply (Qopp_lt_compat h 0) in Hh. exact Hh.
  - rewrite Qabs_neg by by apply Qlt_le_weak. ring.
Qed.

Lemma upright_height (h : Q) :
  (0 <= h)%Q → ¬ (h == 0)%Q → (0 < h)%Q ∧ (h == Qabs h)%Q.
Proof.
  intros Hh Hne. split.
  - apply Qle_lteq in Hh as [?|Heq]; [done|]. destruct Hne. by symmetry.
  - by rewrite Qabs_pos.
Qed.

(** X13: for a height that is not zero [drawBar] acquires one rect and
    writes on it the class, the width, [x - 0.5 * width] for [x], and a
    height that is positive whatever the sign given: the height itself with
    [y] as it is, or [height * -1] with [y - height * -1]. *)
Theorem drawBar_positive_height x y width height className c style w w' :
  ¬ (height == 0)%Q →
  drawBar x y width height className c style w = Return () w' →
  ∃ rect w1 h',
    getSVGElement "rect" c w = Return rect w1 ∧
    JSONcontainer w' = JSONcontainer w1 ∧
    h' = (if Qltb height 0 then height * -1 else height)%Q ∧
    getAttribute (document w') rect "x" = Some (Num (x - 0.5 * width)%Q) ∧
    getAttribute (document w') rect "y"
    = Some (Num (if Qltb height 0 then y - h' else y)%Q) ∧
    getAttribute (document w') rect "width" = Some (Num width) ∧
    getAttribute (document w') rect "height" = Some (Num h') ∧
    getAttribute (document w') rect "class" = Some (Str className) ∧
    (0 < h')%Q ∧ (h' == Qabs height)%Q.
Proof.
  intros Hne. rewrite drawBar_run.
  destruct (Qeq_bool height 0) eqn:Hz; [by apply Qeq_bool_iff in Hz|].
  assert (∀ y0 h0, draw_rect x y0 width h0 className c style w = Return () w' →
            ∃ rect w1,
              getSVGElement "rect" c w = Return rect w1 ∧
              JSONcontainer w' = JSONcontainer w1 ∧
              getAttribute (document w') rect "x" = Some (Num (x - 0.5 * width)%Q) ∧
              getAttribute (document w') rect "y" = Some (Num y0) ∧
              getAttribute (document w') rect "width" = Some (Num width) ∧
              getAttribute (document w') rect "height" = Some (Num h0) ∧
              getAttribute (document w') rect "class" = Some (Str className)) as Hdraw.
  { intros y0 h0. unfold draw_rect.
    destruct (getSVGElement "rect" c w) as [rect w1|e w1]; [|done].
    intros [= <-]. exists rect, w1. split; [done|]. split; [done|].
    unfold getAttribute. simpl.
    pose proof (bar_attributes_lookup x y0 width h0 className style rect
                  (attributes (document w1))) as (? & ? & ? & ? & ?).
    by split_and!. }
  destruct (Qltb height 0) eqn:Hneg.
  - apply Qltb_lt in Hneg.
    intros (rect & w1 & ? & ? & ? & ? & ? & ? & ?)%Hdraw.
    destruct (flipped_height height Hneg) as [? ?].
    exists rect, w1, (height * -1)%Q. by split_and!.
  - assert (0 <= height)%Q as Hpos.
    { apply Qnot_lt_le. intros Hlt%Qltb_lt. congruence. }
    intros (rect & w1 & ? & ? & ? & ? & ? & ? & ?)%Hdraw.
    destruct (upright_height height Hpos Hne) as [? ?].
    exists rect, w1, height. by split_and!.
Qed.

(** *** A bar drawn twice *)

(** A pool whose one rect, styled red, waits to be reused. *)
Definition styled : World :=
  state_of ((drawBar 1 2 3 4 "bar" 0 (Str "fill: red");; prepareElements) (Wld ∅ page)).

Lemma drawBar_keeps_style_witness :
  truthy (Str "") = false ∧
  getAttribute (document (state_of (drawBar 5 6 7 8 "bar" 0 (Str "") styled))) 1 "style"
  = Some (Str "fill: red").
Proof.
  split; [reflexivity|].
  rewrite (drawBar_keeps_style 5 6 7 8 "bar" 0 (Str "") styled eq_refl 1).
  vm_compute. reflexivity.
Defined.

Lemma drawBar_positive_height_witness :
  ¬ (-5 == 0)%Q ∧
  ∃ w' rect h',
    drawBar 10 20 4 (-5) "bar" 0 Undefined drawn = Return () w' ∧
    getAttribute (document w') rect "y" = Some (Num (20 - h')%Q) ∧
    getAttribute (document w') rect "height" = Some (Num h') ∧
    (0 < h')%Q.
Proof.
  assert (¬ (-5 == 0)%Q) as Hne by done.
  split; [done|].
  assert (∃ w', drawBar 10 20 4 (-5) "bar" 0 Undefined drawn = Return () w') as [w' Hrun]
    by (eexists; vm_compute; reflexivity).
  destruct (drawBar_positive_height 10 20 4 (-5) "bar" 0 Undefined drawn w' Hne Hrun)
    as (rect & w1 & h' & _ & _ & _ & _ & Hy & _ & Hh & _ & Hpos & _).
  exists w', rect, h'. by split_and!.
Defined.

End DrawBarSpan.

(** ** More on [getNavigatorLanguage] *)

Module LocaleValue.

(** [a || b || c || 'en'] on values read without an exception. *)
Definition first_truthy (u l b : value) : value :=
  if truthy u then u else if truthy l then l else if truthy b then b else Str "en".

Lemma first_truthy_truthy u l b : truthy (first_truthy u l b) = true.
Proof.
  unfold first_truthy. destruct (truthy u) eqn:Hu; [done|].
  destruct (truthy l) eqn:Hl; [done|]. by destruct (truthy b) eqn:Hb.
Qed.

(** X14: the value is never falsy, provided [navigator.languages] answers its
    last read as its first. *)
Theorem getNavigatorLanguage_truthy (navigator : binding) :
  (∀ o, navigator = Object o → languages o 2 = languages o 0) →
  ∃ v, getNavigatorLanguage navigator () = Return v () ∧ truthy v = true.
Proof.
  intros Hstable. unfold getNavigatorLanguage. rewrite try_catch_run.
  destruct navigator as [| |o]; simpl; [by eauto..|].
  specialize (Hstable o eq_refl). run.
  unfold read at 1. destruct (languages o 0) as [l|e] eqn:H0; [|by eauto]. run.
  assert (∀ m : M unit value,
            (∀ v, m () = Return v () → truthy v = true) →
            ∃ v, match m () with Return a s' => Return a s' | Throw _ s' => Return (Str "en") s' end
                 = Return v () ∧ truthy v = true) as Hfin.
  { intros m Hm. destruct (m ()) as [v []|e []] eqn:Hr; eauto. }
  assert (∀ v, (u ← read (userLanguage o);
                if truthy u then mret u else
                l ← read (language o);
                if truthy l then mret l else
                b ← read (browserLanguage o);
                if truthy b then mret b else mret (Str "en")) () = Return v () →
               truthy v = true) as Hfallback.
  { intros v. run. unfold read.
    destruct (userLanguage o) as [u|]; [|done]. run.
    destruct (truthy u) eqn:Hu; [by intros [= <-]|]. run.
    destruct (language o) as [l'|]; [|done]. run.
    destruct (truthy l') eqn:Hl; [by intros [= <-]|]. run.
    destruct (browserLanguage o) as [b|]; [|done]. run.
    destruct (truthy b) eqn:Hb; by intros [= <-]. }
  destruct (truthy l) eqn:Hl.
  - run. unfold read at 1. destruct (languages o 1) as [l1|e]; [|by eauto]. run.
    destruct (lengthOf o l1 ()) as [c []|e []]; [|by eauto]. run.
    destruct (truthy c).
    + rewrite Hstable. simpl. eauto.
    + apply Hfin. intros v. apply Hfallback.
  - run. rewrite Hl. apply Hfin. intros v. apply Hfallback.
Qed.

(** A navigator whose properties are plain data. *)
Definition plain (ls : value) (u l b : access) : Navigator :=
  {| languages := λ _, Gives ls;
     length_of := λ _, Gives Undefined;
     userLanguage := u; language := l; browserLanguage := b |}.

(** X15: a list of languages that is not empty is returned as it is, an array
    and no language code, and nothing else is read; with an empty list or
    none the first of [userLanguage], [language] and [browserLanguage] that
    is not falsy is the answer, ['en'] if there is none. *)
Theorem getNavigatorLanguage_prefers_languages :
  (∀ first rest u l b,
     getNavigatorLanguage (Object (plain (Arr (first :: rest)) u l b)) ()
     = Return (Arr (first :: rest)) ()) ∧
  (∀ ls u l b, ls = Arr [] ∨ ls = Undefined →
     getNavigatorLanguage (Object (plain ls (Gives u) (Gives l) (Gives b))) ()
     = Return (first_truthy u l b) ()) ∧
  (∀ ls u l b, ls = Arr [] ∨ ls = Undefined → truthy u = true →
     getNavigatorLanguage (Object (plain ls (Gives u) l b)) () = Return u ()).
Proof.
  split_and!.
  - intros first rest u l b. unfold getNavigatorLanguage. rewrite try_catch_run.
    assert (truthy (Num (inject_Z (Z.of_nat (length (first :: rest))))) = true) as Hlen.
    { reflexivity. }
    unfold getNavigatorLanguage_try, plain. cbn -[truthy length]. run.
    change (truthy (Arr (first :: rest))) with true. cbv iota. run.
    cbn -[truthy length]. run. by rewrite Hlen.
  - intros ls u l b [-> | ->]; unfold getNavigatorLanguage, first_truthy;
      rewrite try_catch_run; simpl; run; simpl; run; simpl;
      destruct (truthy u); run; [done| |done|]; destruct (truthy l); run; try done;
      by destruct (truthy b).
  - intros ls u l b [-> | ->] Hu; unfold getNavigatorLanguage;
      rewrite try_catch_run; simpl; run; simpl; run; simpl; by rewrite Hu.
Qed.

(** *** A browser with an empty list of languages *)

Lemma getNavigatorLanguage_truthy_witness :
  let navigator :=
    Object (plain (Arr []) (Gives Undefined) (Gives (Str "nl")) (Gives Undefined)) in
  (∀ o, navigator = Object o → languages o 2 = languages o 0) ∧
  ∃ v, getNavigatorLanguage navigator () = Return v () ∧ truthy v = true.
Proof.
  intros navigator.
  assert (∀ o, navigator = Object o → languages o 2 = languages o 0) as Hstable
    by (by intros o [= <-]).
  split; [done|]. exact (getNavigatorLanguage_truthy navigator Hstable).
Defined.

End LocaleValue.

(** ** More on [Graph2d] *)

Module Graph2dCalls.

Import Graph2d Graph2dFacts.

Section Constructor.

Variable isDataViewLike : value → bool.
Variable property : value → string → value.
Variable inherits_Object : value → bool.

Let Graph2d := Graph2d isDataViewLike property inherits_Object.

(** The test of the constructor's first line: an instance of [Object] that
    is neither an array nor like a DataView, which the constructor takes
    for options when it comes third. *)
Definition plain_object (v : value) : bool :=
  negb (isArray v || isDataViewLike v) && instanceofObject inherits_Object v.

(** X16: the constructor takes groups and options in either order: with
    options that pass the test of its first line and groups that do not (an
    array, something like a DataView, no instance of [Object]), both orders
    run the same calls; the groups are always set before the items and the
    redraw comes last. *)
Theorem Graph2d_either_order (container items groups options : value) :
  plain_object options = true → plain_object groups = false →
  Graph2d container items groups options = Graph2d container items options groups ∧
  Graph2d container items groups options =
    (if truthy (property options "throttleRedraw")
     then [Warn throttleRedraw_warning] else []) ++
    [Create container; SetOptions options] ++
    (if truthy groups then [SetGroups groups] else []) ++
    (if truthy items then [SetItems items] else []) ++
    [Redraw].
Proof.
  intros Ho Hg. unfold Graph2d, Graph2d.Graph2d, arguments.
  unfold plain_object in Ho, Hg. rewrite Ho, Hg.
  assert (truthy options = true) as Ht.
  { apply andb_true_iff in Ho as [_ Ho]. by destruct options. }
  rewrite Ht. simpl. done.
Qed.

End Constructor.

Section Changed.

Variable getItemRange : M Shared (option range).
Variable setWindow : value → value → M Shared unit.
Variable fit : M Shared unit.

Let initial_fit := initial_fit getItemRange setWindow fit.
Let on_changed := on_changed getItemRange setWindow fit.
Let emit_changed := emit_changed getItemRange setWindow fit.

(** A computation that leaves the fit flag as it finds it, however it
    ends. *)
Definition keeps_fit {A} (m : M (Own * Shared) A) : Prop :=
  ∀ o s, initialFitDone (state_of (m (o, s))).1 = initialFitDone o.

Lemma keeps_fit_ret {A} (a : A) : keeps_fit (mret a).
Proof. by intros o s. Qed.

Lemma keeps_fit_throw {A} e : keeps_fit (throw e : M _ A).
Proof. by intros o s. Qed.

Lemma keeps_fit_bind {A B} (m : M (Own * Shared) A) (k : A → M (Own * Shared) B) :
  keeps_fit m → (∀ a, keeps_fit (k a)) → keeps_fit (m ≫= k).
Proof.
  intros Hm Hk o s. rewrite run_bind. specialize (Hm o s).
  destruct (m (o, s)) as [a [o1 s1]|e [o1 s1]]; [|done].
  simpl in Hm. rewrite <-Hm. apply Hk.
Qed.

Lemma keeps_fit_shared {A} (m : M Shared A) : keeps_fit (shared m).
Proof. intros o s. unfold shared, zoom. simpl. by destruct (m s). Qed.

Lemma keeps_fit_option_ name : keeps_fit (option_ name).
Proof. by intros o s. Qed.

Lemma keeps_fit_field r name : keeps_fit (field r name).
Proof. destruct r; [apply keeps_fit_ret | apply keeps_fit_throw]. Qed.

Lemma keeps_fit_if {A} (b : bool) (m1 m2 : M (Own * Shared) A) :
  keeps_fit m1 → keeps_fit m2 → keeps_fit (if b then m1 else m2).
Proof. by destruct b. Qed.

Lemma keeps_fit_get : keeps_fit JS.get.
Proof. by intros o s. Qed.

Lemma keeps_fit_own f :
  (∀ o, initialFitDone (f o) = initialFitDone o) → keeps_fit (own f).
Proof. intros Hf o s. apply Hf. Qed.

Ltac keeps_fit_steps :=
  repeat first
    [ apply keeps_fit_ret | apply keeps_fit_throw | apply keeps_fit_shared
    | apply keeps_fit_option_ | apply keeps_fit_field | apply keeps_fit_get
    | apply keeps_fit_own; by intros []
    | apply keeps_fit_bind; [|intros ?] | apply keeps_fit_if ].

Lemma keeps_fit_initial_draw : keeps_fit initial_draw.
Proof. unfold initial_draw, setTimeout. keeps_fit_steps. Qed.

(** The widget once the first fit is marked. *)
Definition fit_marked (o : Own) : Own :=
  {| initialFitDone := true; initialDrawDone := initialDrawDone o; timers := timers o |}.

Lemma initial_fit_skipped o s :
  initialFitDone o = true ∨ truthy (rollingMode (options s)) = true →
  initial_fit (o, s) = Return () (o, s).
Proof.
  intros H. unfold initial_fit, Graph2d.initial_fit.
  rewrite run_bind. unfold JS.get at 1. cbv beta iota.
  simpl. destruct H as [-> | ->]; [done|]. by rewrite andb_false_r.
Qed.

Lemma initial_fit_marks o s :
  initialFitDone o = false → truthy (rollingMode (options s)) = false →
  initialFitDone (state_of (initial_fit (o, s))).1 = true.
Proof.
  intros Hd Hr. unfold initial_fit, Graph2d.initial_fit.
  rewrite run_bind. unfold JS.get at 1. cbv beta iota. simpl. rewrite Hd, Hr. simpl.
  rewrite run_bind. unfold own at 1, modify. cbv beta iota. simpl.
  match goal with |- initialFitDone (state_of (?m (?o1, s))).1 = true =>
    assert (keeps_fit m) as Hk end.
  { keeps_fit_steps. }
  by rewrite Hk.
Qed.

Lemma on_changed_fit_done o s :
  initialFitDone o = true → initialFitDone (state_of (on_changed (o, s))).1 = true.
Proof.
  intros Hd. unfold on_changed, Graph2d.on_changed.
  rewrite run_bind. unfold JS.get at 1. cbv beta iota. simpl.
  destruct (loosely_undefined _); [done|]. rewrite run_bind.
  fold initial_fit. rewrite initial_fit_skipped by by left.
  by rewrite keeps_fit_initial_draw.
Qed.

End Changed.

(** X17: the first fit happens once: on a widget that has fitted, the handler
    calls none of [getItemRange], [setWindow] and [fit]; an event on a widget
    with items and not in rolling mode marks the fit as done, also when the
    handler throws; and the mark stays. *)
Theorem initial_fit_at_most_once :
  (∀ g1 sw1 f1 g2 sw2 f2 o s,
     initialFitDone o = true →
     on_changed g1 sw1 f1 (o, s) = on_changed g2 sw2 f2 (o, s)) ∧
  (∀ g sw f o s,
     loosely_undefined (itemsData s) = false →
     truthy (rollingMode (options s)) = false →
     initialFitDone (state_of (on_changed g sw f (o, s))).1 = true) ∧
  (∀ g sw f events o,
     initialFitDone o = true →
     initialFitDone (emit_changed g sw f events o) = true).
Proof.
  split_and!.
  - intros g1 sw1 f1 g2 sw2 f2 o s Hd. unfold on_changed.
    rewrite !run_bind. unfold JS.get at 1 2. cbv beta iota. simpl.
    destruct (loosely_undefined _); [done|]. rewrite !run_bind.
    by rewrite !initial_fit_skipped by by left.
  - intros g sw f o s Hi Hr. destruct (initialFitDone o) eqn:Hd.
    { by apply on_changed_fit_done. }
    unfold on_changed. rewrite run_bind. unfold JS.get at 1. cbv beta iota. simpl.
    rewrite Hi. rewrite run_bind.
    pose proof (initial_fit_marks g sw f o s Hd Hr) as Hm.
    destruct (initial_fit g sw f (o, s)) as [[] [o1 s1]|e [o1 s1]]; simpl in *; [|done].
    by rewrite keeps_fit_initial_draw.
  - intros g sw f events. induction events as [|s events IH]; intros o Hd; [done|].
    simpl. apply IH. by apply on_changed_fit_done.
Qed.

(** X18: the first block dereferences no missing range: with a [getItemRange]
    that answers with a range and methods that return, it returns. *)
Theorem initial_fit_returns g sw f o s :
  (∀ s, ∃ r s', g s = Return (Some r) s') →
  (∀ a b s, returned (sw a b s)) →
  (∀ s, returned (f s)) →
  returned (initial_fit g sw f (o, s)).
Proof.
  intros Hg Hsw Hf. unfold initial_fit.
  rewrite run_bind. unfold JS.get at 1. cbv beta iota. simpl.
  destruct (negb (initialFitDone o) && _); [|done].
  rewrite run_bind. unfold own at 1, modify. cbv beta iota.
  assert (∀ a b os, returned (shared (sw a b) os)) as Hsw'.
  { intros a b [o1 s1]. unfold shared, zoom. simpl. specialize (Hsw a b s1).
    by destruct (sw a b s1). }
  assert (∀ name o1 s1, option_ name (o1, s1) = Return (name (options s1)) (o1, s1))
    as Hopt by done.
  assert (∀ A (m : M Shared A) o1 s1,
            shared m (o1, s1)
            = match m s1 with
              | Return a s' => Return a (o1, s')
              | Throw e s' => Throw e (o1, s')
              end) as Hsh by done.
  assert (∀ r name os, field (Some r) name os = Return (name r) os) as Hfield by done.
  repeat (rewrite ?run_bind, ?Hopt; cbv beta iota; simpl).
  destruct (defined (start (options s))) eqn:Hs;
    destruct (defined (end_ (options s))) eqn:He; simpl;
    repeat (rewrite ?run_bind, ?Hopt, ?run_ret, ?Hs, ?He; cbv beta iota; simpl).
  - apply Hsw'.
  - rewrite Hsh. destruct (Hg s) as (r & s1 & ->).
    repeat (rewrite ?run_bind, ?Hopt, ?run_ret, ?Hfield; cbv beta iota; simpl).
    destruct (defined (start (options s1)));
      repeat (rewrite ?run_bind, ?Hopt, ?run_ret, ?Hfield; cbv beta iota; simpl);
      destruct (defined (end_ (options s1)));
      repeat (rewrite ?run_bind, ?Hopt, ?run_ret, ?Hfield; cbv beta iota; simpl);
      apply Hsw'.
  - rewrite Hsh. destruct (Hg s) as (r & s1 & ->).
    repeat (rewrite ?run_bind, ?Hopt, ?run_ret, ?Hfield; cbv beta iota; simpl).
    destruct (defined (start (options s1)));
      repeat (rewrite ?run_bind, ?Hopt, ?run_ret, ?Hfield; cbv beta iota; simpl);
      destruct (defined (end_ (options s1)));
      repeat (rewrite ?run_bind, ?Hopt, ?run_ret, ?Hfield; cbv beta iota; simpl);
      apply Hsw'.
  - rewrite Hsh. specialize (Hf s). by destruct (f s).
Qed.

(** X19: the draw flag is set before the loading screen is removed: when the
    screen has no parent that removal throws, the flag stays set, and no
    later event schedules [onInitialDrawComplete]. *)
Theorem first_draw_signal_lost g sw f o s :
  initialFitDone o = true → initialDrawDone o = false →
  loosely_undefined (itemsData s) = false →
  initialRangeChangeDone s
  || (negb (truthy (start (options s))) && negb (truthy (end_ (options s))))
  || truthy (rollingMode (options s)) = true →
  loadingScreen_parentNode s = None →
  ∃ o' s',
    on_changed g sw f (o, s) = Throw TypeError (o', s') ∧
    initialDrawDone o' = true ∧ timers o' = timers o ∧
    ∀ events, timers (emit_changed g sw f events o') = timers o.
Proof.
  intros Hfit Hdraw Hitems Hcond Hscreen. unfold on_changed.
  rewrite run_bind. unfold JS.get at 1. cbv beta iota. simpl. rewrite Hitems.
  rewrite run_bind, initial_fit_skipped by by left.
  unfold initial_draw. rewrite run_bind. unfold JS.get at 1. cbv beta iota. simpl.
  rewrite Hdraw, Hcond. simpl. run. unfold own at 1, modify. cbv beta iota. run.
  unfold shared at 1, zoom, show_root, modify. cbv beta iota. simpl. run.
  unfold shared at 1, zoom, remove_loadingScreen. simpl. rewrite Hscreen. simpl.
  eexists _, _. split; [done|]. simpl. split; [done|]. split; [done|].
  intros events.
  by destruct (emit_changed_done g sw f events
                 {| initialFitDone := initialFitDone o; initialDrawDone := true;
                    timers := timers o |} eq_refl) as [_ ->].
Qed.

Section Groups.

Context {I : Type}.
Variable time : I → Z.

(** The times of the items of the groups whose [visible] is [true]. *)
Definition sampled (groups : gmap string (@GraphGroup I)) (t : Z) : Prop :=
  ∃ k g i, groups !! k = Some g ∧ visible g = Bool true ∧
           i ∈ group_itemsData g ∧ time i = t.

Definition times (groups : gmap string (@GraphGroup I)) : list Z :=
  map_to_list groups ≫= λ kg,
    if is_true (visible kg.2) then time <$> group_itemsData kg.2 else [].

Lemma is_true_spec v : is_true v = true ↔ v = Bool true.
Proof. destruct v as [| |[]| | | |]; naive_solver. Qed.

Lemma elem_of_times groups t : t ∈ times groups ↔ sampled groups t.
Proof.
  unfold times, sampled. rewrite list_elem_of_bind. split.
  - intros [[k g] [Ht Hkg%elem_of_map_to_list]]. simpl in Ht.
    destruct (is_true (visible g)) eqn:Hv; [|by apply elem_of_nil in Ht].
    apply list_elem_of_fmap in Ht as (i & -> & Hi). apply is_true_spec in Hv.
    by exists k, g, i.
  - intros (k & g & i & Hk & Hv & Hi & <-). exists (k, g). split.
    + simpl. rewrite Hv. simpl. apply list_elem_of_fmap. by exists i.
    + by apply elem_of_map_to_list.
Qed.

Lemma foldl_widen_fmap (l : list I) acc :
  foldl (λ acc item, widen acc (time item)) acc l = foldl widen acc (time <$> l).
Proof. revert acc. induction l as [|i l IH]; intros acc; simpl; [done|]. apply IH. Qed.

Lemma getDataRange_times groups :
  getDataRange time groups = foldl widen (None, None) (times groups).
Proof.
  unfold getDataRange, times. generalize (None : option Z, None : option Z).
  induction (map_to_list groups) as [|[k g] l IH]; intros acc; simpl; [done|].
  rewrite foldl_app, IH. f_equal.
  destruct (is_true (visible g)); [apply foldl_widen_fmap | done].
Qed.

Lemma foldl_widen l :
  l ≠ [] →
  ∃ lo hi, foldl widen (None, None) l = (Some lo, Some hi) ∧
           lo ∈ l ∧ hi ∈ l ∧ ∀ t, t ∈ l → (lo ≤ t ≤ hi)%Z.
Proof.
  induction l as [|v l IH] using rev_ind; [done|]. intros _.
  rewrite foldl_app. simpl. destruct (decide (l = [])) as [->|Hne].
  - simpl. exists v, v. split; [done|]. split_and!; [left|left|].
    intros t ->%list_elem_of_singleton. lia.
  - destruct (IH Hne) as (lo & hi & -> & Hlo & Hhi & Hb). unfold widen. simpl.
    exists (if (lo >? v)%Z then v else lo), (if (hi <? v)%Z then v else hi).
    split; [done|].
    pose proof (Z.gtb_spec lo v) as Hg. pose proof (Z.ltb_spec hi v) as Hl.
    split_and!.
    + destruct Hg; rewrite elem_of_app, list_elem_of_singleton; eauto.
    + destruct Hl; rewrite elem_of_app, list_elem_of_singleton; eauto.
    + intros t [Ht| ->%list_elem_of_singleton]%elem_of_app.
      * specialize (Hb t Ht). destruct Hg, Hl; lia.
      * specialize (Hb lo Hlo). destruct Hg, Hl; lia.
Qed.

(** X20: [getDataRange] answers with the earliest and the latest time among the
    items of the groups whose [visible] is [true], and with two [null]s when
    there is no such item. *)
Theorem getDataRange_bounds (groups : gmap string (@GraphGroup I)) :
  let r := getDataRange time groups in
  ((∀ t, ¬ sampled groups t) → r = (None, None)) ∧
  (∀ t, sampled groups t →
     ∃ lo hi, r = (Some lo, Some hi) ∧
       sampled groups lo ∧ sampled groups hi ∧ (lo ≤ t ≤ hi)%Z).
Proof.
  intros r. unfold r. rewrite getDataRange_times. split.
  - intros Hno. destruct (times groups) as [|x l] eqn:Hl; [done|].
    destruct (Hno x). apply elem_of_times. rewrite Hl. left.
  - intros t Ht%elem_of_times.
    destruct (foldl_widen (times groups)) as (lo & hi & Hr & Hlo & Hhi & Hb).
    { intros Hnil. rewrite Hnil in Ht. by apply elem_of_nil in Ht. }
    exists lo, hi. split; [done|].
    split; [by apply elem_of_times|]. split; [by apply elem_of_times|]. by apply Hb.
Qed.

End Groups.

Section Visible.

Context {W I : Type}.
Variable converted_equals_true : value → M W bool.

(** X21: [isGroupVisible] answers [false] for an id under which the groups
    have nothing, and [undefined] for a name they inherit from
    [Object.prototype].  For a group it hands back a falsy [visible] as it
    is; with a truthy [visible] it answers [true] when nothing is set for
    the id (no property, or [undefined]), [false] for an inherited name, and
    else whether what is set equals [true]: a boolean as it is, a number
    when it is 1, [null] never. *)
Theorem isGroupVisible_answers (groups : gmap string (@GraphGroup I))
    (visibility : gmap string value) (groupId : string) (s : W) :
  let answer := isGroupVisible converted_equals_true groups visibility groupId s in
  (groups !! groupId = None →
     answer = Return (if bool_decide (groupId ∈ Object_prototype)
                      then Undefined else Bool false) s) ∧
  (∀ group, groups !! groupId = Some group →
     (truthy (visible group) = false → answer = Return (visible group) s) ∧
     (truthy (visible group) = true →
        (visibility !! groupId = None →
           answer = Return (Bool (negb (bool_decide (groupId ∈ Object_prototype)))) s) ∧
        (visibility !! groupId = Some Undefined → answer = Return (Bool true) s) ∧
        (∀ b, visibility !! groupId = Some (Bool b) → answer = Return (Bool b) s) ∧
        (∀ q, visibility !! groupId = Some (Num q) →
              answer = Return (Bool (Qeq_bool q 1)) s) ∧
        (visibility !! groupId = Some Null → answer = Return (Bool false) s))).
Proof.
  intros answer. unfold answer, isGroupVisible, read. split.
  - intros ->. by case_bool_decide.
  - intros group ->. split; intros ->; [done|]. split_and!.
    + intros ->. by case_bool_decide.
    + by intros ->.
    + by intros b ->.
    + by intros q ->.
    + by intros ->.
Qed.

End Visible.


Section SetItems.

Variable isDataViewLike : value → bool.
Variable typeCoerceDataSet : value → M Shared value.
Variable new_DataSet : value → M Shared value.
Variable rawDS : value → value.
Variable dispose : value → M Shared unit.
Variable linegraph_setItems : value → M Shared unit.
Variable setWindow : value → value → M Shared unit.
Variable fit : M Shared unit.

(** X22: items set on a widget that has items leave the window alone: neither
    [setWindow] nor [fit] is called.  Falsy items make no data set; on a
    widget that has items they dispose of the old set, give [null] to the
    line graph and leave [itemsData] [null]. *)
Theorem setItems_reload (items : value) (s : Shared) :
  (loosely_undefined (itemsData s) = false →
   ∀ setWindow' fit',
     setItems isDataViewLike typeCoerceDataSet new_DataSet rawDS dispose
       linegraph_setItems setWindow fit items s
     = setItems isDataViewLike typeCoerceDataSet new_DataSet rawDS dispose
         linegraph_setItems setWindow' fit' items s) ∧
  (truthy items = false →
   ∀ isDataViewLike' typeCoerceDataSet' new_DataSet',
     setItems isDataViewLike typeCoerceDataSet new_DataSet rawDS dispose
       linegraph_setItems setWindow fit items s
     = setItems isDataViewLike' typeCoerceDataSet' new_DataSet' rawDS dispose
         linegraph_setItems setWindow fit items s) ∧
  (truthy items = false → truthy (itemsData s) = true →
   setItems isDataViewLike typeCoerceDataSet new_DataSet rawDS dispose
     linegraph_setItems setWindow fit items s
   = (dispose (itemsData s);; set_itemsData Null;; linegraph_setItems Null) s).
Proof.
  unfold setItems. split_and!.
  - intros Hi sw' f'. rewrite !run_bind. change (JS.get s) with (Return s s).
    cbv beta iota. rewrite Hi. reflexivity.
  - intros Hf idv' tc' nd'. rewrite !run_bind. change (JS.get s) with (Return s s).
    cbv beta iota. rewrite Hf. reflexivity.
  - intros Hf Ht. rewrite !run_bind. change (JS.get s) with (Return s s).
    cbv beta iota.
    assert (loosely_undefined (itemsData s) = false) as -> by by destruct (itemsData s).
    rewrite Hf. simpl. run. change (JS.get s) with (Return s s). cbv beta iota.
    rewrite Ht.
    run. destruct (dispose (itemsData s) s) as [[] s1|e s1]; [|done].
    run. destruct (set_itemsData Null s1) as [[] s2|e s2]; [|done].
    run. simpl. by destruct (linegraph_setItems Null s2) as [[] s3|e s3].
Qed.

End SetItems.

Section GetEventProperties.

Context {T : Type}.
Variable toTime : Q → value.
Variable customTimeFromTarget : Event → option value.
Variable getTarget : Event → T.
Variable hasParent : T → region → bool.
Variable yAxisLeft_screenToValue : Q → value.
Variable yAxisRight_screenToValue : Q → value.

Let getEventProperties :=
  getEventProperties toTime customTimeFromTarget getTarget hasParent
    yAxisLeft_screenToValue yAxisRight_screenToValue.

(** The vertical position of an event in the centre container. *)
Definition event_y (w : Widget) (event : Event) : Q :=
  (match center event with Some c => c.2 | None => clientY event end - absoluteTop w)%Q.

(** X23: [getEventProperties] reads the length of [itemsData] for every data
    axis that is not hidden: without items data ([null]) it throws a
    TypeError unless both axes are hidden; else [value] holds one value per
    axis shown, left before right, and none when there are no items. *)
Theorem getEventProperties_value (w : Widget) (event : Event) :
  (itemsData_length w = None →
   yAxisLeft_hidden w = false ∨ yAxisRight_hidden w = false →
   getEventProperties w event () = Throw TypeError ()) ∧
  (yAxisLeft_hidden w = true → yAxisRight_hidden w = true →
   ∃ p, getEventProperties w event () = Return p () ∧ ep_value p = []) ∧
  (∀ n, itemsData_length w = Some n →
   ∃ p, getEventProperties w event () = Return p () ∧
        ep_value p =
          if bool_decide (0 < n)
          then (if yAxisLeft_hidden w then []
                else [yAxisLeft_screenToValue (event_y w event)]) ++
               (if yAxisRight_hidden w then []
                else [yAxisRight_screenToValue (event_y w event)])
          else []).
Proof.
  unfold getEventProperties, Graph2d.getEventProperties, has_items, event_y.
  split_and!.
  - intros Hn [Hl|Hr].
    + rewrite Hl, Hn. simpl. run. done.
    + rewrite Hr, Hn. simpl. destruct (yAxisLeft_hidden w); simpl; by run.
  - intros -> ->. simpl. run. eauto.
  - intros n ->. destruct (yAxisLeft_hidden w), (yAxisRight_hidden w); simpl; run;
      destruct (bool_decide (0 < n)); eexists; split; done.
Qed.

End GetEventProperties.

(** *** Widgets to run on *)

Lemma Graph2d_either_order_witness :
  let isDataViewLike := λ v, match v with Obj 7 => true | _ => false end in
  let property := λ (_ : value) (_ : string), Undefined in
  Graph2d isDataViewLike property literal (Obj 1) (Arr []) (Arr [Obj 3]) (Obj 2)
  = Graph2d isDataViewLike property literal (Obj 1) (Arr []) (Obj 2) (Arr [Obj 3]).
Proof.
  intros isDataViewLike property.
  by destruct (Graph2d_either_order isDataViewLike property literal (Obj 1) (Arr [])
                 (Arr [Obj 3]) (Obj 2) eq_refl eq_refl) as [-> _].
Defined.

(** A widget with items whose window starts at 5 and has no end. *)
Definition half_open : Shared :=
  {| itemsData := Obj 1;
     options := {| start := Num 5; end_ := Undefined; rollingMode := Undefined;
                   onInitialDrawComplete := Undefined |};
     initialRangeChangeDone := false;
     visibility := "hidden";
     loadingScreen_parentNode := Some 0 |}.

Lemma initial_fit_returns_witness :
  let getItemRange : M Shared (option range) :=
    λ s, Return (Some {| min := Num 1; max := Num 9 |}) s in
  let setWindow : value → value → M Shared unit := λ _ _, mret () in
  let fit : M Shared unit := mret () in
  returned (initial_fit getItemRange setWindow fit (created, half_open)).
Proof.
  intros getItemRange setWindow fit.
  apply (initial_fit_returns getItemRange setWindow fit created half_open).
  - intros s. by eexists _, _.
  - by intros a b s.
  - by intros s.
Defined.

Lemma first_draw_signal_lost_witness :
  let getItemRange : M Shared (option range) := mret None in
  let setWindow : value → value → M Shared unit := λ _ _, mret () in
  let fit : M Shared unit := mret () in
  let o := {| initialFitDone := true; initialDrawDone := false; timers := [] |} in
  ∃ o' s',
    on_changed getItemRange setWindow fit (o, loaded None) = Throw TypeError (o', s') ∧
    initialDrawDone o' = true ∧
    timers (emit_changed getItemRange setWindow fit
              [loaded (Some 0); loaded (Some 0)] o') = [].
Proof.
  intros getItemRange setWindow fit o.
  destruct (first_draw_signal_lost getItemRange setWindow fit o (loaded None)
              eq_refl eq_refl eq_refl eq_refl eq_refl)
    as (o' & s' & Hrun & Hd & _ & Hlater).
  exists o', s'. split; [done|]. split; [done|]. apply Hlater.
Defined.

End Graph2dCalls.
